(** * The testimonial slider of globals.js

    A shallow embedding of [Slider.init] / [Slider.initSlider]
    (src/globals.js, lines 676-747) and of the closures that
    [initSlider] installs as event listeners and timer callbacks.

    Conventions of the embedding.
    - JavaScript numbers that hold indices are integers of [Z]; [%] is
      the truncating remainder [Z.rem].  A negative zero produced by
      [%] is observably the same as [0] in every place where the slider
      reads [current] (template literal, [===]), so it is not
      distinguished.  The numbers of JavaScript are doubles: [+] on
      integers is the sum of [Z] as long as the operands and the sum do
      not exceed [2^53] in absolute value ([JS.exact]), and statements
      about an arbitrary index carry this bound ([exact_call]).
    - A string is the sequence of the bytes of the UTF-8 encoding of a
      text; this covers every attribute value that markup can hold.
      Only the part on links, where [encodeURIComponent] tells
      well-formed strings from others, takes a string as the sequence
      of its UTF-16 code units.
    - The DOM subtree under one [.slider] root is a record; the
      listeners that [addEventListener] attaches are data stored on the
      element they were attached to, and an event is dispatched by
      running the listeners found there.
    - The variables captured by the closures ([current], [total],
      [startX], [autoplay]) are fields of the [Carousel] record of a
      root that passed the guard of [initSlider].
    - Touch coordinates ([clientX]) are doubles, values of
      [JS.Number]: the binary64 format of the Standard Library's
      specification of floating-point arithmetic, whose subtraction
      rounds to nearest-even as JavaScript's does.
    - The [style.transform] setter keeps the old value when it is given
      a string that is no transform, as the CSS object model says.
    - [classList] is the set of class tokens of an element.
    - An interval timer is known by the handle [setInterval] returned;
      handles are numbered per closure, since a closure only ever
      clears a handle it created itself.
    - Distinct selectors are taken to match distinct elements and
      sliders are not nested in one another. *)

From Stdlib Require Import ZArith String Ascii DecimalString DecimalPos.
From Stdlib Require Import SpecFloat.
From stdpp Require Import base decidable option list strings gmap.

Local Open Scope string_scope.
Local Open Scope list_scope.
Local Open Scope Z_scope.

(** ** JavaScript primitives used by the slider *)

Module JS.

(** [String(n)] for an integer [n], as a template literal inserts it. *)
Definition toString (n : Z) : string :=
  NilZero.string_of_int (Z.to_int n).

(** [String(b)] for a boolean, as [setAttribute] stores it. *)
Definition boolToString (b : bool) : string :=
  if b then "true" else "false".

(** The white space that [parseInt] skips (WhiteSpace and LineTerminator
    of the language), by the bytes of its UTF-8 encoding.  One byte:
    TAB, LF, VT, FF, CR and the space. *)
Definition isSpace (c : ascii) : bool :=
  match nat_of_ascii c with
  | 9%nat | 10%nat | 11%nat | 12%nat | 13%nat | 32%nat => true
  | _ => false
  end.

(** Two bytes: U+00A0 (C2 A0). *)
Definition isSpace2 (a b : ascii) : bool :=
  (nat_of_ascii a =? 194)%nat && (nat_of_ascii b =? 160)%nat.

(** Three bytes: U+1680 (E1 9A 80), U+2000 to U+200A (E2 80 80 to 8A),
    U+2028 and U+2029 (E2 80 A8, A9), U+202F (E2 80 AF), U+205F
    (E2 81 9F), U+3000 (E3 80 80) and U+FEFF (EF BB BF). *)
Definition isSpace3 (a b c : ascii) : bool :=
  match nat_of_ascii a, nat_of_ascii b with
  | 225%nat, 154%nat => (nat_of_ascii c =? 128)%nat
  | 226%nat, 128%nat =>
      ((128 <=? nat_of_ascii c)%nat && (nat_of_ascii c <=? 138)%nat)
      || (nat_of_ascii c =? 168)%nat || (nat_of_ascii c =? 169)%nat
      || (nat_of_ascii c =? 175)%nat
  | 226%nat, 129%nat => (nat_of_ascii c =? 159)%nat
  | 227%nat, 128%nat => (nat_of_ascii c =? 128)%nat
  | 239%nat, 187%nat => (nat_of_ascii c =? 191)%nat
  | _, _ => false
  end.

Definition digit (c : ascii) : option Z :=
  let n := Z.of_nat (nat_of_ascii c) in
  if (48 <=? n) && (n <=? 57) then Some (n - 48) else None.

Fixpoint skipSpace (s : string) : string :=
  match s with
  | String a r =>
      if isSpace a then skipSpace r
      else
        match r with
        | String b r2 =>
            if isSpace2 a b then skipSpace r2
            else
              match r2 with
              | String c r3 => if isSpace3 a b c then skipSpace r3 else s
              | EmptyString => s
              end
        | EmptyString => s
        end
  | EmptyString => s
  end.

(** The longest prefix of decimal digits, read with accumulator [acc];
    [seen] tells whether a digit was read. *)
Fixpoint digits (s : string) (seen : bool) (acc : Z) : option Z :=
  match s with
  | String c r =>
      match digit c with
      | Some d => digits r true (10 * acc + d)
      | None => if seen then Some acc else None
      end
  | EmptyString => if seen then Some acc else None
  end.

(** [parseInt(s, 10)]; [None] is [NaN]. *)
Definition parseInt (s : string) : option Z :=
  match skipSpace s with
  | String "-" r => Z.opp <$> digits r false 0
  | String "+" r => digits r false 0
  | r => digits r false 0
  end.

(** [x > 0] for the result of [parseInt]; [NaN > 0] is [false]. *)
Definition positive (x : option Z) : bool :=
  match x with
  | Some n => 0 <? n
  | None => false
  end.

(** A number that is not an index: a double.  [S754_nan] is [NaN]. *)
Definition Number : Type := spec_float.

(** The double nearest to [m * 2^e]. *)
Definition dyadic (m e : Z) : Number := binary_normalize 53 1024 m e false.

(** The double of an integer literal. *)
Definition number (n : Z) : Number := dyadic n 0.

(** [x - y], [Math.abs(x)] and [x < y] on doubles. *)
Definition sub (x y : Number) : Number := SFsub 53 1024 x y.
Definition abs (x : Number) : Number := SFabs x.
Definition lt (x y : Number) : bool := SFltb x y.

(** The integers on which the arithmetic of doubles is that of [Z]. *)
Definition exact (n : Z) : Prop := Z.abs n ≤ 2 ^ 53.

End JS.

(** ** The DOM under one slider root *)

(** The closures that [initSlider] passes to [addEventListener]. *)
Inductive Listener : Type :=
  | OnDot (i : nat)      (* () => goTo(i)            line 700 *)
  | OnPrev               (* () => goTo(current - 1)  line 717 *)
  | OnNext               (* () => goTo(current + 1)  line 718 *)
  | OnMouseenter         (* () => clearInterval(autoplay)     *)
  | OnMouseleave         (* () => { autoplay = setInterval(...) } *)
  | OnTouchstart         (* e => { startX = ... }    line 732 *)
  | OnTouchend           (* e => { ... }             line 733 *)
  | OnKeydown.           (* e => { ... }             line 740 *)

(** A registered listener: the event type and the closure. *)
Definition Registration : Type := string * Listener.

Record Button : Type := mkButton {
  btn_listeners : list Registration
}.

Record Dot : Type := mkDot {
  classList : gset string;
  aria_label : option string;
  dot_listeners : list Registration
}.

Record Slide : Type := mkSlide {
  aria_hidden : option string;
  inert : bool
}.

Record Track : Type := mkTrack {
  transform : string;                 (* track.style.transform *)
  track_listeners : list Registration
}.

Record SliderEl : Type := mkSliderEl {
  track : option Track;               (* $('.slider__track', slider) *)
  slides : list Slide;                (* $$('.slider__slide', slider) *)
  prevBtn : option Button;            (* $('.slider__prev', slider) *)
  nextBtn : option Button;            (* $('.slider__next', slider) *)
  (* $('.slider__dots', slider): when present, the number of
     [.slider__dot] elements of the root that come before the end of
     the container in document order, which is where [appendChild]
     puts a new one. *)
  dotsContainer : option nat;
  dots : list Dot;                    (* $$('.slider__dot', slider) *)
  data_interval : option string;      (* slider.dataset.interval *)
  tabindex : option string;
  listeners : list Registration
}.

Definition with_track (t : option Track) (e : SliderEl) : SliderEl :=
  mkSliderEl t (slides e) (prevBtn e) (nextBtn e) (dotsContainer e)
    (dots e) (data_interval e) (tabindex e) (listeners e).

Definition with_slides (l : list Slide) (e : SliderEl) : SliderEl :=
  mkSliderEl (track e) l (prevBtn e) (nextBtn e) (dotsContainer e)
    (dots e) (data_interval e) (tabindex e) (listeners e).

Definition with_prevBtn (b : option Button) (e : SliderEl) : SliderEl :=
  mkSliderEl (track e) (slides e) b (nextBtn e) (dotsContainer e)
    (dots e) (data_interval e) (tabindex e) (listeners e).

Definition with_nextBtn (b : option Button) (e : SliderEl) : SliderEl :=
  mkSliderEl (track e) (slides e) (prevBtn e) b (dotsContainer e)
    (dots e) (data_interval e) (tabindex e) (listeners e).

Definition with_dots (l : list Dot) (e : SliderEl) : SliderEl :=
  mkSliderEl (track e) (slides e) (prevBtn e) (nextBtn e) (dotsContainer e)
    l (data_interval e) (tabindex e) (listeners e).

Definition with_tabindex (v : option string) (e : SliderEl) : SliderEl :=
  mkSliderEl (track e) (slides e) (prevBtn e) (nextBtn e) (dotsContainer e)
    (dots e) (data_interval e) v (listeners e).

Definition with_listeners (l : list Registration) (e : SliderEl) : SliderEl :=
  mkSliderEl (track e) (slides e) (prevBtn e) (nextBtn e) (dotsContainer e)
    (dots e) (data_interval e) (tabindex e) l.

(** [target.addEventListener(type, f)] on each kind of element. *)
Definition button_listen (r : Registration) (b : Button) : Button :=
  mkButton (btn_listeners b ++ [r]).

Definition track_listen (r : Registration) (t : Track) : Track :=
  mkTrack (transform t) (track_listeners t ++ [r]).

Definition slider_listen (r : Registration) (e : SliderEl) : SliderEl :=
  with_listeners (listeners e ++ [r]) e.

(** [d.classList.toggle(token, force)]. *)
Definition toggle (token : string) (force : bool) (d : Dot) : Dot :=
  mkDot (if force then {[ token ]} ∪ classList d
         else classList d ∖ {[ token ]})
        (aria_label d) (dot_listeners d).

Definition is_active (d : Dot) : Prop := "is-active" ∈ classList d.

(** A slide is exposed to assistive technology when [aria-hidden] is
    ["false"] and it is not inert. *)
Definition visible (s : Slide) : Prop :=
  aria_hidden s = Some "false" ∧ inert s = false.

Definition hidden_inert (s : Slide) : Prop :=
  aria_hidden s = Some "true" ∧ inert s = true.

#[global] Instance is_active_dec (d : Dot) : Decision (is_active d).
Proof. unfold is_active. apply _. Defined.

#[global] Instance visible_dec (s : Slide) : Decision (visible s).
Proof. unfold visible. apply _. Defined.

#[global] Instance hidden_inert_dec (s : Slide) : Decision (hidden_inert s).
Proof. unfold hidden_inert. apply _. Defined.

(** ** The closure state of one initialised slider *)

Record Carousel : Type := mkCarousel {
  el : SliderEl;            (* the elements captured by the closures *)
  total : Z;                (* const total = slides.length *)
  current : Z;              (* let current *)
  interval : option Z;      (* const interval = parseInt(...); None is NaN *)
  autoplay : option nat;    (* let autoplay, declared when interval > 0 *)
  startX : JS.Number;       (* let startX *)
  timers : list nat;        (* handles of this closure still scheduled *)
  next_timer : nat          (* the handle the next setInterval returns *)
}.

Definition with_el (e : SliderEl) (c : Carousel) : Carousel :=
  mkCarousel e (total c) (current c) (interval c) (autoplay c) (startX c)
    (timers c) (next_timer c).

Definition with_current (n : Z) (c : Carousel) : Carousel :=
  mkCarousel (el c) (total c) n (interval c) (autoplay c) (startX c)
    (timers c) (next_timer c).

Definition with_autoplay (h : option nat) (c : Carousel) : Carousel :=
  mkCarousel (el c) (total c) (current c) (interval c) h (startX c)
    (timers c) (next_timer c).

Definition with_startX (x : JS.Number) (c : Carousel) : Carousel :=
  mkCarousel (el c) (total c) (current c) (interval c) (autoplay c) x
    (timers c) (next_timer c).

(** [setInterval(() => goTo(current + 1), interval)]: a fresh handle is
    scheduled and returned. *)
Definition setInterval (c : Carousel) : nat * Carousel :=
  (next_timer c,
   mkCarousel (el c) (total c) (current c) (interval c) (autoplay c)
     (startX c) (next_timer c :: timers c) (S (next_timer c))).

(** [clearInterval(h)]. *)
Definition clearInterval (h : nat) (c : Carousel) : Carousel :=
  mkCarousel (el c) (total c) (current c) (interval c) (autoplay c)
    (startX c) (filter (λ h', h' ≠ h) (timers c)) (next_timer c).

(** ** goTo (lines 707-715) *)

(** [track.style.transform = `translateX(-${current * 100}%)`].  For a
    negative [current] the numeral brings a minus sign of its own and
    the string, [translateX(--100%)] say, is no transform: the setter
    drops it and the track keeps the transform it had. *)
Definition paint_track (cur : Z) (e : SliderEl) : SliderEl :=
  if 0 <=? cur then
    with_track
      ((λ t, mkTrack ("translateX(-" +:+ JS.toString (cur * 100) +:+ "%)")
                     (track_listeners t)) <$> track e) e
  else e.

(** [dots.forEach((d, i) => d.classList.toggle('is-active', i === current))] *)
Definition paint_dots (cur : Z) (e : SliderEl) : SliderEl :=
  with_dots
    (imap (λ i d, toggle "is-active" (Z.of_nat i =? cur) d) (dots e)) e.

(** [slides.forEach((s, i) => { s.setAttribute('aria-hidden', i !== current);
                                s.inert = i !== current; })] *)
Definition paint_slides (cur : Z) (e : SliderEl) : SliderEl :=
  with_slides
    (imap (λ i (_ : Slide),
             mkSlide (Some (JS.boolToString (negb (Z.of_nat i =? cur))))
                     (negb (Z.of_nat i =? cur)))
          (slides e)) e.

(** Lines 709-714 for the value [cur] of [current]. *)
Definition paint (cur : Z) (e : SliderEl) : SliderEl :=
  paint_slides cur (paint_dots cur (paint_track cur e)).

(** [current = (index + total) % total], then the three writes.  The sum
    is that of [Z] for an [exact_call]. *)
Definition goTo (index : Z) (c : Carousel) : Carousel :=
  let cur := Z.rem (index + total c) (total c) in
  with_el (paint cur (el c)) (with_current cur c).

(** The calls [goTo(index)] for which lines 708 and 709 compute in [Z]:
    the index, the sum [index + total] and the products [current * 100]
    are integers that doubles hold exactly. *)
Definition exact_call (index : Z) (c : Carousel) : Prop :=
  JS.exact index ∧ JS.exact (index + total c) ∧ JS.exact (100 * total c).

(** ** initSlider (lines 682-746) *)

(** The button that the [forEach] of lines 696-702 builds for slide [i]. *)
Definition new_dot (i : nat) : Dot :=
  mkDot {[ "slider__dot" ]}
        (Some ("Go to slide " +:+ JS.toString (Z.of_nat i + 1)))
        [("click", OnDot i)].

(** Lines 695-703: one dot per slide, appended to the container. *)
Definition create_dots (e : SliderEl) : SliderEl :=
  match dotsContainer e with
  | Some p =>
      let built := imap (λ i (_ : Slide), new_dot i) (slides e) in
      mkSliderEl (track e) (slides e) (prevBtn e) (nextBtn e)
        (Some (p + length built)%nat)
        (take p (dots e) ++ built ++ drop p (dots e))
        (data_interval e) (tabindex e) (listeners e)
  | None => e
  end.

(** Lines 717-718: [prevBtn?.addEventListener], [nextBtn?.addEventListener]. *)
Definition wire_buttons (e : SliderEl) : SliderEl :=
  with_nextBtn (button_listen ("click", OnNext) <$> nextBtn e)
    (with_prevBtn (button_listen ("click", OnPrev) <$> prevBtn e) e).

(** Line 721: [parseInt(slider.dataset.interval || 0, 10)]; the empty
    string is falsy, like an absent attribute. *)
Definition read_interval (e : SliderEl) : option Z :=
  JS.parseInt
    (match data_interval e with
     | Some s => if String.eqb s "" then JS.toString 0 else s
     | None => JS.toString 0
     end).

(** Lines 722-728. *)
Definition wire_autoplay (c : Carousel) : Carousel :=
  if JS.positive (interval c) then
    let '(h, c1) := setInterval c in
    with_el (slider_listen ("mouseleave", OnMouseleave)
               (slider_listen ("mouseenter", OnMouseenter) (el c1)))
            (with_autoplay (Some h) c1)
  else c.

(** Lines 731-736. *)
Definition wire_touch (c : Carousel) : Carousel :=
  with_el
    (with_track
       (track_listen ("touchend", OnTouchend) <$>
          (track_listen ("touchstart", OnTouchstart) <$> track (el c)))
       (el c))
    (with_startX (JS.number 0) c).

(** Lines 739-743. *)
Definition wire_keyboard (c : Carousel) : Carousel :=
  with_el (slider_listen ("keydown", OnKeydown)
             (with_tabindex (Some "0") (el c))) c.

(** What one call of [initSlider] leaves behind: nothing new for a root
    that fails the guard of line 689, a closure otherwise. *)
Inductive Instance : Type :=
  | Skipped (slider : SliderEl)
  | Ready (c : Carousel).

(** The variables as lines 691-721 declare them, with the dots built
    and the buttons wired. *)
Definition declare (slider : SliderEl) : Carousel :=
  mkCarousel (wire_buttons (create_dots slider))
    (Z.of_nat (length (slides slider))) 0
    (read_interval slider) None (JS.number 0) [] 0%nat.

(** Everything before the final [goTo(0)] of line 745. *)
Definition wire (slider : SliderEl) : Carousel :=
  wire_keyboard (wire_touch (wire_autoplay (declare slider))).

Definition initSlider (slider : SliderEl) : Instance :=
  match track slider, slides slider with
  | None, _ | Some _, [] => Skipped slider   (* line 689 *)
  | Some _, _ :: _ => Ready (goTo 0 (wire slider))
  end.

(** The root element as one call of [initSlider] leaves it. *)
Definition root (i : Instance) : SliderEl :=
  match i with
  | Skipped s => s
  | Ready c => el c
  end.

(** [Slider.init] (lines 678-680): every [.slider] root of the page, in
    document order. *)
Definition init (page : list SliderEl) : list Instance :=
  initSlider <$> page.

(** ** Events and the listeners they run *)

Inductive Event : Type :=
  | Click_prev
  | Click_next
  | Click_dot (j : nat)            (* the j-th element of [dots] *)
  | Mouseenter
  | Mouseleave
  | Touchstart (clientX : JS.Number)   (* e.touches[0].clientX *)
  | Touchend (clientX : JS.Number)     (* e.changedTouches[0].clientX *)
  | Keydown (key : string)         (* e.key, focus in the slider *)
  | Timer (h : nat).               (* the interval timer [h] fires *)

(** A listener changes the closure state and calls [goTo] some number
    of times; the second component lists the arguments of these calls
    in order. *)
Definition Effect : Type := Carousel → Carousel * list Z.

Definition call_goTo (index : Z) : Effect :=
  λ c, (goTo index c, [index]).

Definition quiet (f : Carousel → Carousel) : Effect :=
  λ c, (f c, []).

Definition and_then (a b : Effect) : Effect :=
  λ c, let '(c1, t1) := a c in
       let '(c2, t2) := b c1 in
       (c2, t1 ++ t2).

(** The body of each closure.  A closure that reads its event argument
    is registered for one event type only; for any other event it has
    nothing to read and is taken to do nothing. *)
Definition run_listener (l : Listener) (e : Event) : Effect :=
  match l with
  | OnDot i => call_goTo (Z.of_nat i)
  | OnPrev => λ c, call_goTo (current c - 1) c
  | OnNext => λ c, call_goTo (current c + 1) c
  | OnMouseenter =>
      quiet (λ c, match autoplay c with
                  | Some h => clearInterval h c
                  | None => c
                  end)
  | OnMouseleave =>
      quiet (λ c, let '(h, c1) := setInterval c in with_autoplay (Some h) c1)
  | OnTouchstart =>
      match e with
      | Touchstart x => quiet (with_startX x)
      | _ => quiet id
      end
  | OnTouchend =>
      match e with
      | Touchend x =>
          λ c, let dx := JS.sub x (startX c) in
               if JS.lt (JS.number 50) (JS.abs dx)
               then call_goTo (if JS.lt dx (JS.number 0) then current c + 1
                               else current c - 1) c
               else (c, [])
      | _ => quiet id
      end
  | OnKeydown =>
      match e with
      | Keydown key =>
          and_then
            (λ c, if String.eqb key "ArrowRight"
                  then call_goTo (current c + 1) c else (c, []))
            (λ c, if String.eqb key "ArrowLeft"
                  then call_goTo (current c - 1) c else (c, []))
      | _ => quiet id
      end
  end.

Definition event_type (e : Event) : string :=
  match e with
  | Click_prev | Click_next | Click_dot _ => "click"
  | Mouseenter => "mouseenter"
  | Mouseleave => "mouseleave"
  | Touchstart _ => "touchstart"
  | Touchend _ => "touchend"
  | Keydown _ => "keydown"
  | Timer _ => "interval"
  end.

(** The registrations on the element the event is delivered to. *)
Definition registrations (e : Event) (s : SliderEl) : list Registration :=
  match e with
  | Click_prev => from_option btn_listeners [] (prevBtn s)
  | Click_next => from_option btn_listeners [] (nextBtn s)
  | Click_dot j => from_option dot_listeners [] (dots s !! j)
  | Mouseenter | Mouseleave | Keydown _ => listeners s
  | Touchstart _ | Touchend _ => from_option track_listeners [] (track s)
  | Timer _ => []
  end.

(** The closures an event runs, in registration order.  A timer tick is
    not a DOM event and has no registration; [dispatch] runs its
    callback. *)
Definition listeners_for (e : Event) (s : SliderEl) : list Listener :=
  snd <$> filter (λ r, fst r = event_type e) (registrations e s).

Fixpoint run_all (ls : list Listener) (e : Event) : Effect :=
  match ls with
  | [] => quiet id
  | l :: ls' => and_then (run_listener l e) (run_all ls' e)
  end.

Definition dispatch (e : Event) : Effect :=
  match e with
  | Timer h =>
      λ c, if decide (h ∈ timers c)
           then call_goTo (current c + 1) c else (c, [])
  | _ => λ c, run_all (listeners_for e (el c)) e c
  end.

Definition step (e : Event) (c : Carousel) : Carousel := fst (dispatch e c).

(** The arguments of the [goTo] calls an event causes. *)
Definition navigations (e : Event) (c : Carousel) : list Z :=
  snd (dispatch e c).

(** The states of the slider built from [slider]: the one [initSlider]
    leaves, and every state an event leads to from there. *)
Inductive reachable (slider : SliderEl) : Carousel → Prop :=
  | reach_init c :
      initSlider slider = Ready c → reachable slider c
  | reach_step c e :
      reachable slider c → reachable slider (step e c).

(** [next()] and [previous()] of the specification are the bodies of
    the closures of lines 718 and 717. *)
Definition next (c : Carousel) : Carousel := goTo (current c + 1) c.
Definition previous (c : Carousel) : Carousel := goTo (current c - 1) c.

(** A root on which [initSlider] has not run before: none of its
    closures is registered anywhere under it. *)
Definition pristine (s : SliderEl) : Prop :=
  listeners s = []
  ∧ from_option track_listeners [] (track s) = []
  ∧ from_option btn_listeners [] (prevBtn s) = []
  ∧ from_option btn_listeners [] (nextBtn s) = []
  ∧ Forall (λ d, dot_listeners d = []) (dots s).

#[global] Instance pristine_dec (s : SliderEl) : Decision (pristine s).
Proof. unfold pristine. apply _. Defined.

(** ** The invariant of an initialised slider

    [total] is the number of slides of the root, [current] is a slide
    position, and the captured elements are the wired ones painted for
    [current]. *)
Record Inv (slider : SliderEl) (c : Carousel) : Prop := mkInv {
  inv_track : is_Some (track slider);
  inv_total : total c = Z.of_nat (length (slides slider));
  inv_nonempty : 1 ≤ total c;
  inv_current : 0 ≤ current c < total c;
  inv_el : el c = paint (current c) (el (wire slider))
}.

(** ** Pages used in the examples *)

Definition blank_slide : Slide := mkSlide None false.

(** Three slides, both buttons, a dot container, no [data-interval]. *)
Definition demo : SliderEl :=
  mkSliderEl (Some (mkTrack "" [])) [blank_slide; blank_slide; blank_slide]
    (Some (mkButton [])) (Some (mkButton [])) (Some 0%nat) []
    None None [].

(** The state [initSlider] leaves for it. *)
Definition demo0 : Carousel := goTo 0 (wire demo).

(** A root with slides but no track. *)
Definition no_track : SliderEl :=
  mkSliderEl None [blank_slide; blank_slide] (Some (mkButton []))
    (Some (mkButton [])) (Some 0%nat) [] (Some "3000") None [].

(** A root with two slides and [data-interval="3000"], no buttons and
    no dot container. *)
Definition timed : SliderEl :=
  mkSliderEl (Some (mkTrack "" [])) [blank_slide; blank_slide]
    None None None [] (Some "3000") None [].

Definition timed0 : Carousel := goTo 0 (wire timed).

(** ** Auxiliary notions for the further properties of the slider *)

(** The two closures that schedule or clear a timer. *)
Definition hover_listener (l : Listener) : bool :=
  match l with
  | OnMouseenter | OnMouseleave => true
  | _ => false
  end.

#[global] Instance Number_eq_dec : EqDecision JS.Number.
Proof. unfold JS.Number. solve_decision. Defined.

#[global] Instance Event_eq_dec : EqDecision Event.
Proof. solve_decision. Defined.

(** The timer handles are fresh: no handle is scheduled twice, and every
    handle that was ever returned lies below the next one. *)
Definition fresh_handles (c : Carousel) : Prop :=
  NoDup (timers c)
  ∧ Forall (λ h, (h < next_timer c)%nat) (timers c)
  ∧ ∀ h, autoplay c = Some h → (h < next_timer c)%nat.

(** * The vehicle selector (lines 902-983)

    The closures of [initVehicleScripts]: [currentIndex], the image and
    the type buttons.  The callbacks that [updateImage] hands to
    [setTimeout] all have the same delay, so they run in the order in
    which they were scheduled; [pending] lists the [type] each of them
    captured, oldest first. *)

Module Vehicle.

Definition vehicleKeys : list string := ["sedan"; "suv"; "pickup"; "van"].

Record Entry : Type := mkEntry {
  image : string;
  title : string;
  price : string
}.

(** What the expression [vehicles[type]] evaluates to: an entry of the
    object literal, a member inherited from [Object.prototype] (whose
    [image] is [undefined]), or [undefined]. *)
Inductive Lookup : Type :=
  | Own (v : Entry)
  | Inherited
  | Undefined.

Definition prototype_keys : list string :=
  ["constructor"; "__defineGetter__"; "__defineSetter__"; "hasOwnProperty";
   "__lookupGetter__"; "__lookupSetter__"; "isPrototypeOf";
   "propertyIsEnumerable"; "toString"; "valueOf"; "__proto__";
   "toLocaleString"].

(** [vehicles[type]]; [None] is the value [undefined], whose property
    key is the string ["undefined"]. *)
Definition vehicles (type : option string) : Lookup :=
  match type with
  | None => Undefined
  | Some k =>
      if String.eqb k "sedan" then
        Own (mkEntry "public/Assets/sedan.png" "Sedan Detailing" "KES 5,500")
      else if String.eqb k "suv" then
        Own (mkEntry "public/Assets/suv.png" "SUV Detailing" "KES 10,500")
      else if String.eqb k "pickup" then
        Own (mkEntry "public/Assets/pickup.png" "Pickup Detailing"
               "KES 12,000")
      else if String.eqb k "van" then
        Own (mkEntry "public/Assets/van.png" "Mini Van Detailing"
               "KES 14,000")
      else if bool_decide (k ∈ prototype_keys) then Inherited
      else Undefined
  end.

(** [l.indexOf(x)], counting from [i]. *)
Fixpoint indexOf_from (l : list string) (x : string) (i : Z) : Z :=
  match l with
  | [] => -1
  | y :: l' => if String.eqb y x then i else indexOf_from l' x (i + 1)
  end.

(** [vehicleKeys.indexOf(type)]; [undefined] is no element. *)
Definition indexOf (type : option string) : Z :=
  match type with
  | Some k => indexOf_from vehicleKeys k 0
  | None => -1
  end.

(** [vehicleKeys[i]]. *)
Definition key_at (i : Z) : option string :=
  if i <? 0 then None else vehicleKeys !! Z.to_nat i.

Record Img : Type := mkImg {
  src : option string;
  img_classes : gset string
}.

Record Button : Type := mkButton {
  classes : gset string;
  data_vehicle : option string        (* this.dataset.vehicle *)
}.

Record State : Type := mkState {
  currentIndex : Z;
  img : Img;                          (* #carImage *)
  buttons : list Button;              (* .vehicle-types button *)
  nextBtn : bool;                     (* #nextCarBtn exists *)
  prevBtn : bool;                     (* #prevCarBtn exists *)
  pending : list (option string);     (* scheduled callbacks, oldest first *)
  uncaught : nat                      (* TypeErrors thrown by callbacks *)
}.

Definition with_index (i : Z) (s : State) : State :=
  mkState i (img s) (buttons s) (nextBtn s) (prevBtn s) (pending s)
    (uncaught s).

(** Lines 928-935. *)
Definition updateImage (type : option string) (s : State) : State :=
  mkState (currentIndex s)
    (mkImg (src (img s)) ({[ "fade" ]} ∪ img_classes (img s)))
    (buttons s) (nextBtn s) (prevBtn s) (pending s ++ [type]) (uncaught s).

(** Lines 941-944; [buttonElement] is the position of the clicked
    button, [None] for the default [null]. *)
Definition mark_buttons (buttonElement : option nat) (s : State) : State :=
  mkState (currentIndex s) (img s)
    (imap (λ j b,
             mkButton
               (if bool_decide (buttonElement = Some j)
                then {[ "active" ]} ∪ (classes b ∖ {[ "active" ]})
                else classes b ∖ {[ "active" ]})
               (data_vehicle b))
          (buttons s))
    (nextBtn s) (prevBtn s) (pending s) (uncaught s).

(** Lines 937-945. *)
Definition selectVehicle (type : option string) (buttonElement : option nat)
    (s : State) : State :=
  mark_buttons buttonElement
    (updateImage type (with_index (indexOf type) s)).

(** Lines 947-950. *)
Definition nextCar (s : State) : State :=
  let i := Z.rem (currentIndex s + 1) (Z.of_nat (length vehicleKeys)) in
  selectVehicle (key_at i) None (with_index i s).

(** Lines 952-955. *)
Definition prevCar (s : State) : State :=
  let n := Z.of_nat (length vehicleKeys) in
  let i := Z.rem (currentIndex s - 1 + n) n in
  selectVehicle (key_at i) None (with_index i s).

(** The callback of line 931 for the oldest scheduled [type]:
    [img.src = vehicles[type].image; img.classList.remove("fade")].
    Reading [image] of [undefined] throws, which ends the callback. *)
Definition timeout (s : State) : State :=
  match pending s with
  | [] => s
  | type :: rest =>
      let shown (url : string) :=
        mkState (currentIndex s)
          (mkImg (Some url) (img_classes (img s) ∖ {[ "fade" ]}))
          (buttons s) (nextBtn s) (prevBtn s) rest (uncaught s) in
      match vehicles type with
      | Own v => shown (image v)
      | Inherited => shown "undefined"
      | Undefined =>
          mkState (currentIndex s) (img s) (buttons s) (nextBtn s)
            (prevBtn s) rest (S (uncaught s))
      end
  end.

(** Every scheduled callback has run. *)
Definition settle (s : State) : State :=
  Nat.iter (length (pending s)) timeout s.

Inductive Event : Type :=
  | Click_button (j : nat)     (* the j-th type button *)
  | Click_next
  | Click_prev
  | Timeout.

(** Lines 957-970: the listeners attached at set-up. *)
Definition step (e : Event) (s : State) : State :=
  match e with
  | Click_button j =>
      match buttons s !! j with
      | Some b => selectVehicle (data_vehicle b) (Some j) s
      | None => s
      end
  | Click_next => if nextBtn s then nextCar s else s
  | Click_prev => if prevBtn s then prevCar s else s
  | Timeout => timeout s
  end.

(** The part of the document that [initVehicleScripts] looks at;
    [openModal] tells whether a global of that name exists, which this
    file does not define. *)
Record Page : Type := mkPage {
  carImage : option Img;
  packageModal : bool;
  modalContent : bool;
  type_buttons : list Button;
  nextCarBtn : bool;
  prevCarBtn : bool;
  bookNowBtn : bool;
  openModal : bool
}.

Inductive Outcome : Type :=
  | Skipped                    (* returned at line 921 *)
  | Threw (s : State)          (* ReferenceError at line 971 *)
  | Ready (s : State).

Definition initVehicleScripts (p : Page) : Outcome :=
  match carImage p with
  | Some im =>
      if packageModal p && modalContent p then
        let s := mkState 0 im (type_buttons p) (nextCarBtn p) (prevCarBtn p)
                   [] 0%nat in
        if bookNowBtn p && negb (openModal p) then Threw s
        else Ready (selectVehicle (key_at 0) None s)
      else Skipped
  | None => Skipped
  end.

(** The states of the selector of page [p]. *)
Inductive reachable (p : Page) : State → Prop :=
  | reach_ready s : initVehicleScripts p = Ready s → reachable p s
  | reach_threw s : initVehicleScripts p = Threw s → reachable p s
  | reach_step s e : reachable p s → reachable p (step e s).

Definition is_active (b : Button) : Prop := "active" ∈ classes b.

(** A page with the four type buttons and one button of an unknown type. *)
Definition showroom : Page :=
  mkPage (Some (mkImg None ∅)) true true
    [mkButton ∅ (Some "sedan"); mkButton ∅ (Some "suv");
     mkButton ∅ (Some "pickup"); mkButton ∅ (Some "van");
     mkButton ∅ (Some "truck")]
    true true false false.

Definition showroom0 : State := selectVehicle (key_at 0) None
  (mkState 0 (mkImg None ∅) (type_buttons showroom) true true [] 0%nat).

End Vehicle.

(** * throttle and debounce (lines 35-57)

    The closure each of them returns, with the timers it schedules.  The
    wrapped [fn] is known by the arguments it is called with; [calls]
    lists them, oldest first.  A timer fires when the environment says
    so: the events [Timeout] and [Fire] stand for it. *)

Module Throttle.
Section Throttle.
Context {A : Type}.

(** Whether [fn(...args)] throws. *)
Variable throws : A → bool.

(** One run of [fn(...args)] as the closure sees it: the arguments, and
    the calls that [fn] makes to the throttled closure itself before it
    returns or throws, each with the run of [fn] it may start. *)
#[local] Unset Elimination Schemes.
Inductive Run : Type :=
  | mkRun (args : A) (inner : list Run).
#[local] Set Elimination Schemes.

Record State : Type := mkState {
  inThrottle : bool;          (* let inThrottle; [undefined] is false *)
  timers : nat;               (* scheduled [() => { inThrottle = false; }] *)
  calls : list A              (* the calls of [fn] so far *)
}.

Definition fresh : State := mkState false 0 [].

(** The returned closure, lines 50-56, called with the arguments of [r]
    when [fn] behaves as [r] says.  [inThrottle] is set and the reset
    scheduled only after [fn] has returned, so the calls that [fn]
    makes to the closure meanwhile are not throttled by this one.  A
    throwing [fn] ends the call before line 53. *)
Fixpoint enter (r : Run) (s : State) {struct r} : State :=
  if inThrottle s then s
  else
    match r with
    | mkRun args inner =>
        let s1 :=
          (fix each (l : list Run) (s : State) {struct l} : State :=
             match l with
             | [] => s
             | r' :: l' => each l' (enter r' s)
             end) inner (mkState false (timers s) (calls s ++ [args])) in
        if throws args then s1
        else mkState true (S (timers s1)) (calls s1)
    end.

(** A call during which [fn] does not call the closure. *)
Definition call (args : A) (s : State) : State :=
  enter (mkRun args []) s.

(** One of the scheduled callbacks runs. *)
Definition timeout (s : State) : State :=
  match timers s with
  | O => s
  | S n => mkState false n (calls s)
  end.

Inductive Event : Type :=
  | Enter (r : Run)
  | Timeout.

Definition Call (args : A) : Event := Enter (mkRun args []).

Definition step (e : Event) (s : State) : State :=
  match e with
  | Enter r => enter r s
  | Timeout => timeout s
  end.

Definition run (es : list Event) (s : State) : State :=
  foldl (λ s e, step e s) s es.

(** The calls of [fn] that returned. *)
Definition completed (s : State) : list A :=
  filter (λ a, throws a = false) (calls s).

Definition is_timeout (e : Event) : bool :=
  match e with
  | Timeout => true
  | Enter _ => false
  end.

Definition timeouts (es : list Event) : nat :=
  length (filter (λ e, is_timeout e = true) es).

(** An event during which [fn] does not call the closure. *)
Definition flat (e : Event) : Prop :=
  match e with
  | Enter (mkRun _ inner) => inner = []
  | Timeout => True
  end.

(** The invariant of a throttled closure after [fired] timeouts: a
    reset is scheduled exactly while it is throttled, and the completed
    calls are covered by the timeouts, plus one while throttled. *)
Definition ok (fired : nat) (s : State) : Prop :=
  timers s = (if inThrottle s then 1 else 0)%nat
  ∧ (length (completed s) ≤ fired + (if inThrottle s then 1 else 0))%nat.

End Throttle.
End Throttle.

Module Debounce.
Section Debounce.
Context {A : Type}.

Record State : Type := mkState {
  timeout : option nat;       (* let timeout; the last handle *)
  timers : list (nat * A);    (* scheduled [() => fn(...args)] by handle *)
  next_handle : nat;          (* the handle the next setTimeout returns *)
  calls : list A              (* the calls of [fn] so far *)
}.

Definition fresh : State := mkState None [] 0 [].

(** [clearTimeout(h)]; [undefined] and handles no longer scheduled are
    ignored. *)
Definition clearTimeout (h : option nat) (l : list (nat * A))
    : list (nat * A) :=
  match h with
  | Some h => filter (λ t, fst t ≠ h) l
  | None => l
  end.

(** The returned closure, lines 37-40. *)
Definition call (args : A) (s : State) : State :=
  mkState (Some (next_handle s))
    (clearTimeout (timeout s) (timers s) ++ [(next_handle s, args)])
    (S (next_handle s)) (calls s).

(** The timer [h] fires and runs [fn] with the arguments it captured. *)
Definition fire (h : nat) (s : State) : State :=
  match list_find (λ t, fst t = h) (timers s) with
  | Some (_, (_, args)) =>
      mkState (timeout s) (filter (λ t, fst t ≠ h) (timers s))
        (next_handle s) (calls s ++ [args])
  | None => s
  end.

Inductive Event : Type :=
  | Call (args : A)
  | Fire (h : nat).

Definition step (e : Event) (s : State) : State :=
  match e with
  | Call args => call args s
  | Fire h => fire h s
  end.

Definition run (es : list Event) (s : State) : State :=
  foldl (λ s e, step e s) s es.

(** The invariant of a debounced closure: at most one timer is
    scheduled, and it is the one [timeout] holds. *)
Definition ok (s : State) : Prop :=
  timers s = [] ∨ ∃ h args, timers s = [(h, args)] ∧ timeout s = Some h.

End Debounce.
End Debounce.

(** * The navigation bar (lines 78-157) *)

Module Nav.

(** [s.split('/').pop()]: what follows the last slash, all of [s] when
    it has none. *)
Fixpoint has_slash (s : string) : bool :=
  match s with
  | EmptyString => false
  | String ch r => if Ascii.eqb ch "/" then true else has_slash r
  end.

Fixpoint last_segment (s : string) : string :=
  match s with
  | EmptyString => EmptyString
  | String _ r => if has_slash s then last_segment r else s
  end.

(** Line 97: [window.location.pathname.split('/').pop() || 'index.html']. *)
Definition currentPath (pathname : string) : string :=
  let p := last_segment pathname in
  if String.eqb p "" then "index.html" else p.

Record Link : Type := mkLink {
  href : option string;               (* link.getAttribute('href') *)
  link_classes : gset string;
  aria_current : option string
}.

(** The condition of line 100 for one link. *)
Definition matches (path : string) (l : Link) : bool :=
  match last_segment <$> href l with
  | Some h =>
      String.eqb h path || (String.eqb path "" && String.eqb h "index.html")
  | None => false
  end.

(** Lines 96-105 for the links [.nav__link, .nav__mobile-link]. *)
Definition setActiveLink (pathname : string) (links : list Link)
    : list Link :=
  (λ l, if matches (currentPath pathname) l
        then mkLink (href l) ({[ "is-active" ]} ∪ link_classes l)
               (Some "page")
        else l) <$> links.

Record Toggle : Type := mkToggle {
  toggle_classes : gset string;
  aria_expanded : option string
}.

(** The elements the mobile menu works on: [this.mobileMenu] (its
    class list), [this.toggle] and [document.body.style.overflow]. *)
Record Menu : Type := mkMenu {
  nav : bool;                         (* $('.nav') was found *)
  mobileMenu : option (gset string);
  toggle : option Toggle;
  overflow : string
}.

(** How a method ended: normally, or with a [TypeError] after the
    writes made so far. *)
Inductive Outcome : Type :=
  | Done (m : Menu)
  | Threw (m : Menu).

Definition is_open (m : Menu) : Prop :=
  match mobileMenu m with
  | Some cl => "is-open" ∈ cl
  | None => False
  end.

#[global] Instance is_open_dec (m : Menu) : Decision (is_open m).
Proof. unfold is_open. destruct (mobileMenu m); apply _. Defined.

(** Lines 144-149. *)
Definition toggleMobileMenu (m : Menu) : Outcome :=
  match mobileMenu m with
  | None => Threw m
  | Some cl =>
      let isOpen := negb (bool_decide ("is-open" ∈ cl)) in
      let cl' := if isOpen then {[ "is-open" ]} ∪ cl
                 else cl ∖ {[ "is-open" ]} in
      let m1 := mkMenu (nav m) (Some cl') (toggle m) (overflow m) in
      match toggle m with
      | None => Threw m1
      | Some t =>
          Done (mkMenu (nav m) (Some cl')
                  (Some (mkToggle
                           (if isOpen then {[ "is-open" ]} ∪ toggle_classes t
                            else toggle_classes t ∖ {[ "is-open" ]})
                           (Some (JS.boolToString isOpen))))
                  (if isOpen then "hidden" else ""))
      end
  end.

(** Lines 151-156. *)
Definition closeMobileMenu (m : Menu) : Menu :=
  mkMenu (nav m)
    ((λ cl, cl ∖ {[ "is-open" ]}) <$> mobileMenu m)
    ((λ t, mkToggle (toggle_classes t ∖ {[ "is-open" ]}) (Some "false"))
       <$> toggle m)
    "".

Definition state_of (o : Outcome) : Menu :=
  match o with
  | Done m => m
  | Threw m => m
  end.

Inductive Event : Type :=
  | Click_toggle
  | Click_mobile_link
  | Click_backdrop              (* a click whose target is the menu itself *)
  | Click_in_menu               (* a click on something else inside it *)
  | Keydown (key : string).

(** The listeners of [setupMobileMenu] and [setupKeyboard] (lines
    122-142), which [init] registers when [.nav] exists; those of the
    menu only when the toggle and the menu both exist. *)
Definition step (e : Event) (m : Menu) : Menu :=
  if nav m then
    match e with
    | Keydown key =>
        if String.eqb key "Escape" then closeMobileMenu m else m
    | Click_in_menu => m
    | _ =>
        match toggle m, mobileMenu m with
        | Some _, Some _ =>
            match e with
            | Click_toggle => state_of (toggleMobileMenu m)
            | _ => closeMobileMenu m
            end
        | _, _ => m
        end
    end
  else m.

(** The four indicators of the menu say the same. *)
Definition consistent (m : Menu) : Prop :=
  match mobileMenu m, toggle m with
  | Some cl, Some t =>
      let o := bool_decide ("is-open" ∈ cl) in
      bool_decide ("is-open" ∈ toggle_classes t) = o
      ∧ aria_expanded t = Some (JS.boolToString o)
      ∧ overflow m = (if o then "hidden" else "")
  | _, _ => False
  end.

Definition closed_menu : Menu :=
  mkMenu true (Some {[ "nav__mobile-menu" ]})
    (Some (mkToggle {[ "nav__toggle" ]} None)) "".

End Nav.

(** * Accordion, tabs and service filter (lines 195-218, 469-496, 541-560) *)

Module Accordion.

Record Trigger : Type := mkTrigger {
  aria_expanded : option string
}.

(** An [.accordion-item] with the [.accordion-trigger] elements inside
    it, in document order.  Items are not nested in one another. *)
Record Item : Type := mkItem {
  item_classes : gset string;
  triggers : list Trigger
}.

Definition is_open (it : Item) : Prop := "is-open" ∈ item_classes it.

#[global] Instance is_open_dec (it : Item) : Decision (is_open it).
Proof. unfold is_open. apply _. Defined.

(** Lines 209-212 for a sibling: closed, and its first trigger says so. *)
Definition close_sibling (it : Item) : Item :=
  mkItem (item_classes it ∖ {[ "is-open" ]})
    (match triggers it with
     | t :: ts => mkTrigger (Some "false") :: ts
     | [] => []
     end).

(** Lines 215-216 for the item of the clicked trigger, its [j]-th. *)
Definition flip_item (j : nat) (it : Item) : Item :=
  let isOpen := bool_decide (is_open it) in
  mkItem (if negb isOpen then {[ "is-open" ]} ∪ item_classes it
          else item_classes it ∖ {[ "is-open" ]})
    (alter (λ _, mkTrigger (Some (JS.boolToString (negb isOpen)))) j
       (triggers it)).

(** [Accordion.toggle(trigger)] for the [j]-th trigger of the [i]-th
    item of an accordion with the items [items]; [None] when there is
    no such trigger to click. *)
Definition toggle (items : list Item) (i j : nat) : option (list Item) :=
  match items !! i with
  | Some it =>
      match triggers it !! j with
      | Some _ =>
          Some (imap (λ k sib, if bool_decide (k = i) then flip_item j sib
                               else close_sibling sib) items)
      | None => None
      end
  | None => None
  end.

Definition faq : list Item :=
  [mkItem ∅ [mkTrigger None];
   mkItem {[ "is-open" ]} [mkTrigger None];
   mkItem {[ "is-open" ]} [mkTrigger (Some "true")]].

End Accordion.

Module Tabs.

Record Trigger : Type := mkTrigger {
  trigger_classes : gset string;
  aria_selected : option string;
  data_tab : string                    (* trigger.dataset.tab *)
}.

Record Panel : Type := mkPanel {
  panel_classes : gset string;
  hidden : bool;
  data_tab_panel : string              (* panel.dataset.tabPanel *)
}.

Record Group : Type := mkGroup {
  triggers : list Trigger;             (* $$('[data-tab]', tabGroup) *)
  panels : list Panel                  (* $$('[data-tab-panel]', tabGroup) *)
}.

Definition set_class (token : string) (force : bool) (cl : gset string)
    : gset string :=
  if force then {[ token ]} ∪ cl else cl ∖ {[ token ]}.

(** The click listener of lines 476-489 for the [k]-th trigger. *)
Definition click (k : nat) (g : Group) : Group :=
  match triggers g !! k with
  | Some trigger =>
      let target := data_tab trigger in
      mkGroup
        (imap (λ i t,
                 mkTrigger
                   (set_class "is-active" (bool_decide (i = k))
                      (trigger_classes t))
                   (Some (JS.boolToString (bool_decide (i = k))))
                   (data_tab t))
              (triggers g))
        ((λ p,
            let isActive := String.eqb (data_tab_panel p) target in
            mkPanel (set_class "is-active" isActive (panel_classes p))
                    (negb isActive) (data_tab_panel p))
           <$> panels g)
  | None => g
  end.

(** Lines 471-494 for one [.tabs] group: [triggers[0]?.click()]. *)
Definition init (g : Group) : Group := click 0 g.

Definition shown (p : Panel) : Prop :=
  "is-active" ∈ panel_classes p ∧ hidden p = false.

Definition sample : Group :=
  mkGroup
    [mkTrigger ∅ None "wash"; mkTrigger {[ "is-active" ]} None "detail";
     mkTrigger ∅ None "fleet"]
    [mkPanel ∅ false "wash"; mkPanel ∅ false "detail";
     mkPanel ∅ false "detail"].

End Tabs.

Module ServiceFilter.

Record Btn : Type := mkBtn {
  btn_classes : gset string;
  data_filter : string                 (* btn.dataset.filter *)
}.

Record Card : Type := mkCard {
  display : string;                    (* card.style.display *)
  opacity : string;                    (* card.style.opacity *)
  data_category : string               (* card.dataset.category *)
}.

Record Page : Type := mkPage {
  filterGroup : bool;                  (* $('.service-filters') exists *)
  btns : list Btn;                     (* $$('[data-filter]', filterGroup) *)
  cards : list Card                    (* $$('[data-category]') *)
}.

(** The click listener of lines 547-557 for the [k]-th button; there is
    none when [init] returned at line 544. *)
Definition click (k : nat) (p : Page) : Page :=
  if filterGroup p then
    match btns p !! k with
    | Some btn =>
        let filter := data_filter btn in
        mkPage true
          (imap (λ i b,
                   mkBtn (if bool_decide (i = k)
                          then {[ "is-active" ]}
                               ∪ (btn_classes b ∖ {[ "is-active" ]})
                          else btn_classes b ∖ {[ "is-active" ]})
                         (data_filter b))
                (btns p))
          ((λ c,
              let match_ := String.eqb filter "all"
                            || String.eqb (data_category c) filter in
              mkCard (if match_ then "" else "none")
                     (if match_ then "1" else "0") (data_category c))
             <$> cards p)
    | None => p
    end
  else p.

Definition visible (c : Card) : Prop := display c = "" ∧ opacity c = "1".

Definition services : Page :=
  mkPage true
    [mkBtn {[ "is-active" ]} "all"; mkBtn ∅ "wash"; mkBtn ∅ "detail"]
    [mkCard "" "" "wash"; mkCard "" "" "detail"; mkCard "" "" "wash"].

End ServiceFilter.

(** * WhatsApp links and phone formatting (lines 430-434, 853-855)

    In this part a string is what JavaScript has: the sequence of its
    UTF-16 code units, integers of [0, 65535].  [encodeURIComponent]
    tells a surrogate pair from a surrogate on its own, and the regular
    expressions work on code units. *)

Module WhatsApp.

(** The code units of a literal of ASCII characters. *)
Definition units (s : string) : list Z :=
  (λ ch, Z.of_nat (nat_of_ascii ch)) <$> list_ascii_of_string s.

(** The literal of a string of ASCII characters. *)
Definition text (s : list Z) : string :=
  string_of_list_ascii ((λ u, ascii_of_nat (Z.to_nat u)) <$> s).

Definition code_unit (u : Z) : Prop := 0 ≤ u < 65536.

Definition WHATSAPP_NUMBER : list Z := units "+254700000000".

Definition is_digit (u : Z) : bool := (48 <=? u) && (u <=? 57).

Definition is_alpha (u : Z) : bool :=
  ((65 <=? u) && (u <=? 90)) || ((97 <=? u) && (u <=? 122)).

(** The characters [encodeURIComponent] leaves as they are:
    [A-Z a-z 0-9 - _ . ! ~ * ' ( )]. *)
Definition unreserved (u : Z) : bool :=
  is_alpha u || is_digit u
  || bool_decide (u ∈ [45; 95; 46; 33; 126; 42; 39; 40; 41]).

(** The hexadecimal digit of [n], in upper case. *)
Definition hex_digit (n : Z) : Z := if n <? 10 then 48 + n else 55 + n.

(** [%XX] for one octet. *)
Definition escape (octet : Z) : list Z :=
  [37; hex_digit (octet / 16); hex_digit (octet mod 16)].

(** The octets of the UTF-8 encoding of a code point. *)
Definition utf8 (cp : Z) : list Z :=
  if cp <? 128 then [cp]
  else if cp <? 2048 then [192 + cp / 64; 128 + cp mod 64]
  else if cp <? 65536 then
    [224 + cp / 4096; 128 + (cp / 64) mod 64; 128 + cp mod 64]
  else [240 + cp / 262144; 128 + (cp / 4096) mod 64;
        128 + (cp / 64) mod 64; 128 + cp mod 64].

Definition escapes (cp : Z) : list Z := utf8 cp ≫= escape.

(** Leading surrogates are D800 to DBFF, trailing ones DC00 to DFFF. *)
Definition leading (u : Z) : bool := (55296 <=? u) && (u <=? 56319).
Definition trailing (u : Z) : bool := (56320 <=? u) && (u <=? 57343).

(** The code point of a surrogate pair. *)
Definition pair_point (u v : Z) : Z :=
  (u - 55296) * 1024 + (v - 56320) + 65536.

(** [encodeURIComponent(s)]; [None] is the [URIError] that a surrogate
    without its partner raises. *)
Fixpoint encodeURIComponent (s : list Z) : option (list Z) :=
  match s with
  | [] => Some []
  | u :: r =>
      if unreserved u then cons u <$> encodeURIComponent r
      else if leading u then
        match r with
        | v :: r' =>
            if trailing v
            then app (escapes (pair_point u v)) <$> encodeURIComponent r'
            else None
        | [] => None
        end
      else if trailing u then None
      else app (escapes u) <$> encodeURIComponent r
  end.

(** [s.isWellFormed()]: no surrogate without its partner. *)
Fixpoint well_formed (s : list Z) : bool :=
  match s with
  | [] => true
  | u :: r =>
      if leading u then
        match r with
        | v :: r' => trailing v && well_formed r'
        | [] => false
        end
      else negb (trailing u) && well_formed r
  end.

(** [s.replace(/\D/g, '')]. *)
Definition digits_only (s : list Z) : list Z :=
  filter (λ u, is_digit u = true) s.

(** Lines 431-434; [None] when line 432 throws. *)
Definition buildLink (message number : list Z) : option (list Z) :=
  encoded ← encodeURIComponent message;
  Some (units "https://wa.me/" ++ digits_only number
        ++ (if decide (encoded = []) then []
            else units "?text=" ++ encoded)).

(** A character that needs no escaping in a URL, or the percent sign. *)
Definition url_safe (u : Z) : bool := unreserved u || (u =? 37).

End WhatsApp.

Module Format.


(** What follows the literal [p] at the start of [s]. *)
Definition after (p s : list Z) : option (list Z) :=
  if decide (take (length p) s = p) then Some (drop (length p) s) else None.





End Format.

(** * The cookie banner (lines 573-615) *)

Module CookieBanner.

Definition key : string := "wg_cookie_consent".

Record Page : Type := mkPage {
  storage : gmap string string;     (* localStorage *)
  banner : bool                     (* #cookie-banner is in the document *)
}.

(** [localStorage.getItem(k)] as a condition: a stored non-empty string. *)
Definition truthy (v : option string) : bool :=
  match v with
  | Some s => negb (String.eqb s "")
  | None => false
  end.

(** Lines 577-580, with [render] appending the banner. *)
Definition init (p : Page) : Page :=
  if truthy (storage p !! key) then p else mkPage (storage p) true.

(** A page load: the document starts without banner, the storage is the
    one the browser kept. *)
Definition load (st : gmap string string) : Page := init (mkPage st false).

Inductive Event : Type :=
  | Click_accept
  | Click_decline.

Definition choice (e : Event) : string :=
  match e with
  | Click_accept => "accepted"
  | Click_decline => "declined"
  end.

(** The listeners of lines 605-613; the buttons exist while the banner
    does. *)
Definition step (e : Event) (p : Page) : Page :=
  if banner p then mkPage (<[key := choice e]> (storage p)) false else p.

End CookieBanner.

Arguments wire : simpl never.
Arguments JS.skipSpace : simpl never.
Arguments JS.lt : simpl never.
Arguments JS.sub : simpl never.
Arguments JS.abs : simpl never.
Arguments JS.number : simpl never.
Arguments JS.dyadic : simpl never.
Arguments paint : simpl never.

(** ** Arithmetic of the wrap-around *)

Section Wrap.
Variable t : Z.
Hypothesis t_pos : 0 < t.

(** The expression of the code, for an index not below [-t]. *)
Lemma rem_shift (i : Z) : - t ≤ i → Z.rem (i + t) t = i `mod` t.
Proof.
  intros Hi. rewrite Z.rem_mod_nonneg by lia.
  replace (i + t) with (i + 1 * t) by lia. apply Z.mod_add. lia.
Qed.


Lemma rem_shift_multiple (i : Z) : Z.rem i t = 0 → Z.rem (i + t) t = 0.
Proof.
  intros H0. pose proof (Z.quot_rem' i t) as Hq.
  replace (i + t) with ((i ÷ t + 1) * t) by lia.
  apply Z.rem_mul. lia.
Qed.

Lemma rem_shift_range (i : Z) : - t ≤ i → 0 ≤ Z.rem (i + t) t < t.
Proof.
  intros Hi. rewrite rem_shift by done. apply Z.mod_pos_bound. lia.
Qed.

Lemma rem_shift_id (k : Z) : 0 ≤ k < t → Z.rem (k + t) t = k.
Proof.
  intros Hk. rewrite rem_shift by lia. apply Z.mod_small. lia.
Qed.
End Wrap.

(** ** The comparisons of the swipe *)

Lemma number_50 :
  JS.number 50 = S754_finite false 7036874417766400 (-47)
  ∧ JS.number (-50) = S754_finite true 7036874417766400 (-47)
  ∧ JS.number 0 = S754_zero false.
Proof. repeat split. Qed.

(** [Math.abs(dx) > 50] and [dx < 0] of line 735 in terms of [dx] itself:
    both hold when [dx < -50], only the first when [dx > 50], and the
    first fails otherwise, [NaN] included. *)
Lemma swipe_cases (dx : JS.Number) :
  (JS.lt dx (JS.number (-50)) = true →
     JS.lt (JS.number 50) (JS.abs dx) = true ∧ JS.lt dx (JS.number 0) = true)
  ∧ (JS.lt (JS.number 50) dx = true →
     JS.lt (JS.number 50) (JS.abs dx) = true ∧ JS.lt dx (JS.number 0) = false)
  ∧ (JS.lt dx (JS.number (-50)) = false → JS.lt (JS.number 50) dx = false →
     JS.lt (JS.number 50) (JS.abs dx) = false).
Proof.
  destruct number_50 as (-> & -> & ->).
  unfold JS.lt, JS.abs, SFltb.
  destruct dx as [s|s| |s m e]; try (by destruct s); try done.
  destruct s; cbn [SFabs SFcompare].
  - rewrite (Z.compare_antisym e (-47)), (Pos.compare_cont_antisym m).
    destruct (e ?= -47); simpl; done.
  - destruct (-47 ?= e); done.
Qed.

(** ** What [goTo] writes *)


Lemma goTo_current (i : Z) (c : Carousel) :
  current (goTo i c) = Z.rem (i + total c) (total c).
Proof. reflexivity. Qed.

Lemma goTo_total (i : Z) (c : Carousel) : total (goTo i c) = total c.
Proof. reflexivity. Qed.

Lemma goTo_el (i : Z) (c : Carousel) :
  el (goTo i c) = paint (Z.rem (i + total c) (total c)) (el c).
Proof. reflexivity. Qed.

Lemma goTo_unfold (i : Z) (c : Carousel) :
  goTo i c =
  with_el (paint (Z.rem (i + total c) (total c)) (el c))
          (with_current (Z.rem (i + total c) (total c)) c).
Proof. reflexivity. Qed.

Lemma toggle_toggle (a : string) (b1 b2 : bool) (d : Dot) :
  toggle a b2 (toggle a b1 d) = toggle a b2 d.
Proof.
  destruct d as [cl al ls]. unfold toggle; simpl. f_equal.
  destruct b1, b2; apply set_eq; intros x;
    rewrite ?elem_of_union, ?elem_of_difference, ?elem_of_union,
      ?elem_of_singleton;
    destruct (decide (x = a)); tauto.
Qed.

(** The track write of [goTo] leaves everything but the track alone. *)
Lemma paint_track_frame (k : Z) (e : SliderEl) :
  slides (paint_track k e) = slides e ∧ dots (paint_track k e) = dots e
  ∧ prevBtn (paint_track k e) = prevBtn e
  ∧ nextBtn (paint_track k e) = nextBtn e
  ∧ dotsContainer (paint_track k e) = dotsContainer e
  ∧ data_interval (paint_track k e) = data_interval e
  ∧ tabindex (paint_track k e) = tabindex e
  ∧ listeners (paint_track k e) = listeners e.
Proof. unfold paint_track. by destruct (0 <=? k). Qed.

Lemma paint_eta (k : Z) (e : SliderEl) :
  paint k e =
  mkSliderEl (track (paint_track k e))
    (imap (λ i (_ : Slide),
             mkSlide (Some (JS.boolToString (negb (Z.of_nat i =? k))))
                     (negb (Z.of_nat i =? k))) (slides e))
    (prevBtn e) (nextBtn e) (dotsContainer e)
    (imap (λ i d, toggle "is-active" (Z.of_nat i =? k) d) (dots e))
    (data_interval e) (tabindex e) (listeners e).
Proof.
  destruct (paint_track_frame k e) as (Hs & Hd & Hp & Hn & Hc & Hi & Ht & Hl).
  unfold paint, paint_slides, paint_dots, with_slides, with_dots; simpl.
  by rewrite Hs, Hd, Hp, Hn, Hc, Hi, Ht, Hl.
Qed.

Lemma track_paint_track (k : Z) (e : SliderEl) :
  track (paint_track k e) =
  if 0 <=? k
  then (λ t, mkTrack ("translateX(-" +:+ JS.toString (k * 100) +:+ "%)")
                     (track_listeners t)) <$> track e
  else track e.
Proof. unfold paint_track. by destruct (0 <=? k). Qed.

Lemma track_paint (k : Z) (e : SliderEl) :
  track (paint k e) = track (paint_track k e).
Proof. by rewrite paint_eta. Qed.

Lemma imap_slides_twice (j k : Z) (sl : list Slide) :
  imap (λ i (_ : Slide),
          mkSlide (Some (JS.boolToString (negb (Z.of_nat i =? k))))
                  (negb (Z.of_nat i =? k)))
    (imap (λ i (_ : Slide),
             mkSlide (Some (JS.boolToString (negb (Z.of_nat i =? j))))
                     (negb (Z.of_nat i =? j))) sl)
  = imap (λ i (_ : Slide),
            mkSlide (Some (JS.boolToString (negb (Z.of_nat i =? k))))
                    (negb (Z.of_nat i =? k))) sl.
Proof.
  apply list_eq; intros n. rewrite !list_lookup_imap.
  by destruct (sl !! n).
Qed.

Lemma imap_dots_twice (j k : Z) (ds : list Dot) :
  imap (λ i d, toggle "is-active" (Z.of_nat i =? k) d)
    (imap (λ i d, toggle "is-active" (Z.of_nat i =? j) d) ds)
  = imap (λ i d, toggle "is-active" (Z.of_nat i =? k) d) ds.
Proof.
  apply list_eq; intros n. rewrite !list_lookup_imap.
  destruct (ds !! n); simpl; [|done]. by rewrite toggle_toggle.
Qed.

(** What a second painting keeps of the first: the track, when the
    second is for a negative [current]; nothing otherwise. *)
Lemma paint_paint_any (j k : Z) (e : SliderEl) :
  paint k (paint j e) =
  with_track (track (paint_track k (paint_track j e))) (paint k e).
Proof.
  rewrite (paint_eta k (paint j e)), !track_paint_track, track_paint.
  rewrite (paint_eta j e), (paint_eta k e).
  unfold with_track.
  cbn [track slides dots prevBtn nextBtn dotsContainer data_interval
       tabindex listeners].
  f_equal; [by rewrite ?track_paint_track | apply imap_slides_twice
            | apply imap_dots_twice].
Qed.

Lemma paint_paint (j k : Z) (e : SliderEl) :
  0 ≤ k → paint k (paint j e) = paint k e.
Proof.
  intros Hk. rewrite paint_paint_any, (paint_eta k e).
  unfold with_track.
  cbn [track slides dots prevBtn nextBtn dotsContainer data_interval
       tabindex listeners].
  f_equal. rewrite !track_paint_track.
  destruct (Z.leb_spec 0 k); [|lia].
  destruct (0 <=? j); by destruct (track e).
Qed.


Lemma goTo_goTo_el (j k : Z) (c : Carousel) :
  - total c ≤ k → 0 < total c →
  el (goTo k (goTo j c)) = el (goTo k c).
Proof.
  intros Hk Ht. rewrite !goTo_el, !goTo_total. apply paint_paint.
  apply rem_shift_range; lia.
Qed.

(** ** The invariant is established and preserved *)

Lemma wire_total (slider : SliderEl) :
  total (wire slider) = Z.of_nat (length (slides slider)).
Proof.
  unfold wire, wire_keyboard, wire_touch, wire_autoplay.
  by destruct (JS.positive _).
Qed.

Lemma initSlider_Ready (slider : SliderEl) (c : Carousel) :
  initSlider slider = Ready c →
  is_Some (track slider) ∧ slides slider ≠ [] ∧ c = goTo 0 (wire slider).
Proof.
  unfold initSlider.
  destruct (track slider) as [t|], (slides slider) as [|s l];
    intros H; inversion H; eauto.
Qed.

Lemma initSlider_guard (slider : SliderEl) :
  is_Some (track slider) → slides slider ≠ [] →
  initSlider slider = Ready (goTo 0 (wire slider)).
Proof.
  unfold initSlider. intros [t ->].
  by destruct (slides slider).
Qed.

Lemma Inv_init (slider : SliderEl) (c : Carousel) :
  initSlider slider = Ready c → Inv slider c.
Proof.
  intros (Ht & Hs & ->)%initSlider_Ready.
  assert (Hlen : 1 ≤ Z.of_nat (length (slides slider))).
  { destruct (slides slider); [done | simpl; lia]. }
  assert (Hcur : current (goTo 0 (wire slider)) = 0).
  { rewrite goTo_current, wire_total. apply rem_shift_id; lia. }
  split.
  - done.
  - by rewrite goTo_total, wire_total.
  - by rewrite goTo_total, wire_total.
  - rewrite Hcur, goTo_total, wire_total. lia.
  - by rewrite Hcur, goTo_el, wire_total, rem_shift_id by lia.
Qed.

Lemma Inv_goTo (slider : SliderEl) (c : Carousel) (i : Z) :
  Inv slider c → - total c ≤ i → Inv slider (goTo i c).
Proof.
  intros [Ht Htot Hne Hcur Hel] Hi.
  split.
  - done.
  - by rewrite goTo_total.
  - by rewrite goTo_total.
  - rewrite goTo_current, goTo_total. apply rem_shift_range; lia.
  - rewrite goTo_el, Hel, paint_paint; [done|].
    apply rem_shift_range; lia.
Qed.

(** Updates of [startX], [autoplay] and the timers leave the rest alone. *)
Lemma Inv_frame (slider : SliderEl) (c c' : Carousel) :
  el c' = el c → total c' = total c → current c' = current c →
  Inv slider c → Inv slider c'.
Proof.
  intros He Ht Hc [? ? ? ? ?]. split; try done; congruence.
Qed.

Lemma Inv_run_listener (slider : SliderEl) l e (c : Carousel) :
  Inv slider c → Inv slider (fst (run_listener l e c)).
Proof.
  intros HI. pose proof (inv_current _ _ HI) as Hc.
  destruct l; simpl.
  - apply Inv_goTo; [done | lia].
  - apply Inv_goTo; [done | lia].
  - apply Inv_goTo; [done | lia].
  - destruct (autoplay c); by apply (Inv_frame slider c).
  - by apply (Inv_frame slider c).
  - destruct e; by apply (Inv_frame slider c).
  - destruct e; try done.
    destruct (JS.lt _ (JS.abs _)); [|done]. simpl.
    destruct (JS.lt _ _); apply Inv_goTo; (done || lia).
  - destruct e; try done. unfold and_then.
    destruct (String.eqb key "ArrowRight"), (String.eqb key "ArrowLeft");
      simpl; try done.
    + pose proof (rem_shift_range (total c) ltac:(lia) (current c + 1)
                    ltac:(lia)).
      apply Inv_goTo; [apply Inv_goTo; [done | lia] |].
      rewrite goTo_total. lia.
    + apply Inv_goTo; [done | lia].
    + apply Inv_goTo; [done | lia].
Qed.

Lemma Inv_run_all (slider : SliderEl) ls e (c : Carousel) :
  Inv slider c → Inv slider (fst (run_all ls e c)).
Proof.
  revert c. induction ls as [|l ls IH]; intros c HI; simpl; [done|].
  unfold and_then.
  pose proof (Inv_run_listener slider l e c HI) as H1.
  destruct (run_listener l e c) as [c1 t1]. simpl in H1.
  specialize (IH c1 H1). by destruct (run_all ls e c1).
Qed.

Lemma Inv_step (slider : SliderEl) e (c : Carousel) :
  Inv slider c → Inv slider (step e c).
Proof.
  intros HI. pose proof (inv_current _ _ HI) as Hc.
  unfold step.
  destruct e; simpl; try by apply Inv_run_all.
  destruct (decide _); simpl; [|done].
  apply Inv_goTo; [done | lia].
Qed.

Lemma reachable_Inv (slider : SliderEl) (c : Carousel) :
  reachable slider c → Inv slider c.
Proof.
  induction 1 as [c Hinit | c e _ IH].
  - by apply Inv_init.
  - by apply Inv_step.
Qed.

Lemma demo_reachable : reachable demo demo0.
Proof. by apply reach_init. Qed.

(** ** The elements the closures captured *)

Lemma wire_slides (slider : SliderEl) :
  slides (el (wire slider)) = slides slider.
Proof.
  unfold wire, wire_keyboard, wire_touch, wire_autoplay.
  destruct (JS.positive _); simpl;
    unfold create_dots; by destruct (dotsContainer slider).
Qed.

Lemma wire_dots (slider : SliderEl) :
  dots (el (wire slider)) = dots (create_dots slider).
Proof.
  unfold wire, wire_keyboard, wire_touch, wire_autoplay.
  by destruct (JS.positive _).
Qed.

Lemma wire_track (slider : SliderEl) :
  track (el (wire slider)) =
  track_listen ("touchend", OnTouchend) <$>
    (track_listen ("touchstart", OnTouchstart) <$> track slider).
Proof.
  unfold wire, wire_keyboard, wire_touch, wire_autoplay.
  destruct (JS.positive _); simpl;
    unfold create_dots; by destruct (dotsContainer slider).
Qed.

Lemma paint_slides_lookup (k : Z) (e : SliderEl) (i : nat) :
  slides (paint k e) !! i =
  (λ _, mkSlide (Some (JS.boolToString (negb (Z.of_nat i =? k))))
                (negb (Z.of_nat i =? k))) <$> slides e !! i.
Proof. rewrite paint_eta; simpl. by rewrite list_lookup_imap. Qed.

Lemma paint_dots_lookup (k : Z) (e : SliderEl) (j : nat) :
  dots (paint k e) !! j =
  toggle "is-active" (Z.of_nat j =? k) <$> dots e !! j.
Proof. rewrite paint_eta; simpl. by rewrite list_lookup_imap. Qed.

Lemma paint_slides_length (k : Z) (e : SliderEl) :
  length (slides (paint k e)) = length (slides e).
Proof. rewrite paint_eta; simpl. apply length_imap. Qed.

Lemma paint_dots_length (k : Z) (e : SliderEl) :
  length (dots (paint k e)) = length (dots e).
Proof. rewrite paint_eta; simpl. apply length_imap. Qed.

Lemma paint_track_eq (k : Z) (e : SliderEl) :
  0 ≤ k →
  track (paint k e) =
  (λ t, mkTrack ("translateX(-" +:+ JS.toString (k * 100) +:+ "%)")
                (track_listeners t)) <$> track e.
Proof.
  intros Hk. rewrite track_paint, track_paint_track.
  by destruct (Z.leb_spec 0 k); [|lia].
Qed.

Lemma paint_track_listeners (k : Z) (e : SliderEl) :
  from_option track_listeners [] (track (paint k e))
  = from_option track_listeners [] (track e).
Proof.
  rewrite track_paint, track_paint_track.
  destruct (0 <=? k); [|done]. by destruct (track e).
Qed.

Lemma create_dots_length (slider : SliderEl) :
  is_Some (dotsContainer slider) →
  length (dots (create_dots slider)) =
  (length (dots slider) + length (slides slider))%nat.
Proof.
  intros [p Hp]. unfold create_dots. rewrite Hp. simpl.
  rewrite !length_app, length_imap, length_take, length_drop. lia.
Qed.

(** The slides and dots of a reachable state, in terms of the markup. *)
Lemma reachable_slides (slider : SliderEl) (c : Carousel) (i : nat) :
  reachable slider c →
  slides (el c) !! i =
  (λ _, mkSlide (Some (JS.boolToString (negb (Z.of_nat i =? current c))))
                (negb (Z.of_nat i =? current c))) <$> slides slider !! i.
Proof.
  intros HI%reachable_Inv.
  by rewrite (inv_el _ _ HI), paint_slides_lookup, wire_slides.
Qed.

Lemma reachable_dots (slider : SliderEl) (c : Carousel) (j : nat) :
  reachable slider c →
  dots (el c) !! j =
  toggle "is-active" (Z.of_nat j =? current c) <$>
    dots (create_dots slider) !! j.
Proof.
  intros HI%reachable_Inv.
  by rewrite (inv_el _ _ HI), paint_dots_lookup, wire_dots.
Qed.

(** A state that differs from a reachable one by a [goTo] satisfies the
    same equations. *)
Lemma goTo_slides (slider : SliderEl) (c : Carousel) (k : Z) (i : nat) :
  reachable slider c →
  slides (el (goTo k c)) !! i =
  (λ _, let off := negb (Z.of_nat i =? current (goTo k c)) in
        mkSlide (Some (JS.boolToString off)) off) <$> slides slider !! i.
Proof.
  intros HI%reachable_Inv.
  rewrite goTo_el, (inv_el _ _ HI), paint_paint_any.
  change (slides (with_track ?t ?x)) with (slides x).
  by rewrite paint_slides_lookup, wire_slides.
Qed.

Lemma goTo_dots (slider : SliderEl) (c : Carousel) (k : Z) (j : nat) :
  reachable slider c →
  dots (el (goTo k c)) !! j =
  toggle "is-active" (Z.of_nat j =? current (goTo k c)) <$>
    dots (create_dots slider) !! j.
Proof.
  intros HI%reachable_Inv.
  rewrite goTo_el, (inv_el _ _ HI), paint_paint_any.
  change (dots (with_track ?t ?x)) with (dots x).
  by rewrite paint_dots_lookup, wire_dots.
Qed.

Lemma is_active_toggle (b : bool) (d : Dot) :
  is_active (toggle "is-active" b d) ↔ b = true.
Proof.
  unfold is_active, toggle. destruct b; simpl.
  - rewrite elem_of_union, elem_of_singleton. intuition.
  - rewrite elem_of_difference, elem_of_singleton. intuition congruence.
Qed.

(** ** The model on small pages *)

Example parseInt_examples :
  JS.parseInt "3000" = Some 3000 ∧ JS.parseInt " -12px" = Some (-12)
  ∧ JS.parseInt "fast" = None ∧ JS.parseInt "0" = Some 0.
Proof. repeat split. Qed.

(** White space beyond ASCII is skipped as well: U+00A0 and U+FEFF
    before the numeral; U+200B is no white space. *)
Example parseInt_white_space :
  let bytes (l : list Z) :=
    string_of_list_ascii ((λ b, ascii_of_nat (Z.to_nat b)) <$> l) in
  JS.parseInt (bytes [194; 160] +:+ "3000") = Some 3000
  ∧ JS.parseInt (bytes [239; 187; 191; 32; 226; 128; 168] +:+ "-5")
    = Some (-5)
  ∧ JS.parseInt (bytes [226; 128; 139] +:+ "3000") = None.
Proof. repeat split. Qed.

Example demo_initialised : initSlider demo = Ready demo0.
Proof. reflexivity. Qed.

Example demo_dots :
  (λ d, elements (classList d)) <$> dots (el demo0)
  = [["slider__dot"; "is-active"]; ["slider__dot"]; ["slider__dot"]]
  ∧ aria_label <$> dots (el demo0)
    = [Some "Go to slide 1"; Some "Go to slide 2"; Some "Go to slide 3"].
Proof. split; vm_compute; reflexivity. Qed.

Example demo_click_next :
  current (step Click_next demo0) = 1
  ∧ transform <$> track (el (step Click_next demo0))
    = Some "translateX(-100%)"
  ∧ (λ s, bool_decide (visible s)) <$> slides (el (step Click_next demo0))
    = [false; true; false].
Proof. repeat split. Qed.

Example demo_click_dot :
  navigations (Click_dot 2) demo0 = [2]
  ∧ current (step (Click_dot 2) demo0) = 2
  ∧ navigations (Click_dot 3) demo0 = [].
Proof. repeat split. Qed.

Example demo_other_key :
  dispatch (Keydown "Enter") demo0 = (demo0, []).
Proof. reflexivity. Qed.

Example demo_no_timer :
  timers demo0 = [] ∧ dispatch (Timer 0) demo0 = (demo0, [])
  ∧ dispatch Mouseleave demo0 = (demo0, []).
Proof. repeat split. Qed.

(** Auto-advance: one timer is scheduled at set-up; leaving the root
    twice without entering it schedules two more, of which entering
    clears only the last. *)
Example timed_timers :
  initSlider timed = Ready timed0
  ∧ interval timed0 = Some 3000
  ∧ (timers timed0, autoplay timed0) = ([0%nat], Some 0%nat)
  ∧ current (step (Timer 0) timed0) = 1
  ∧ current (step (Timer 0) (step Mouseenter timed0)) = 0
  ∧ timers (step Mouseleave (step Mouseleave timed0)) = [2%nat; 1%nat; 0%nat]
  ∧ timers (step Mouseenter (step Mouseleave (step Mouseleave timed0)))
    = [1%nat; 0%nat].
Proof. repeat split. Qed.

(** Without a dot container no dot exists, whatever [goTo] is called with. *)
Example timed_no_dots : dots (el (goTo 1 timed0)) = [].
Proof. reflexivity. Qed.

(** ** Claims *)

Lemma reachable_range (slider : SliderEl) (c : Carousel) :
  reachable slider c →
  total c = Z.of_nat (length (slides slider))
  ∧ 1 ≤ total c
  ∧ 0 ≤ current c < total c
  ∧ (initSlider slider = Ready c → current c = 0).
Proof.
  intros HI%reachable_Inv.
  pose proof (inv_total _ _ HI) as Htot.
  pose proof (inv_nonempty _ _ HI) as Hne.
  split; [done|]. split; [done|]. split; [apply (inv_current _ _ HI)|].
  intros (_ & _ & ->)%initSlider_Ready.
  rewrite goTo_current, wire_total.
  rewrite Htot in Hne. apply rem_shift_id; lia.
Qed.

(** C2: [current] is [0] when [initSlider] returns, and
    [0 <= current < total] with [total = slides.length >= 1] holds in
    every state that clicks on the buttons and dots, touches, keys and
    timer ticks lead to. *)
Theorem current_in_range (slider : SliderEl) (c : Carousel) :
  reachable slider c →
  total c = Z.of_nat (length (slides slider))
  ∧ 1 ≤ total c
  ∧ 0 ≤ current c < total c
  ∧ (initSlider slider = Ready c → current c = 0).
Proof.
  intros HI%reachable_Inv.
  destruct HI as [Ht Htot Hne Hcur Hel].
  split; [done|]. split; [done|]. split; [done|].
  intros (_ & _ & ->)%initSlider_Ready.
  rewrite Htot in Hne.
  rewrite goTo_current, wire_total. apply rem_shift_id; lia.
Qed.

Lemma current_in_range_witness :
  current demo0 = 0
  ∧ 0 ≤ current (step (Timer 0) (step Click_prev (step (Keydown "ArrowLeft")
                   (step (Click_dot 1) demo0)))) < 3.
Proof.
  split.
  - apply (current_in_range demo demo0).
    + apply reach_init. reflexivity.
    + reflexivity.
  - destruct (current_in_range demo
        (step (Timer 0) (step Click_prev (step (Keydown "ArrowLeft")
           (step (Click_dot 1) demo0))))
        ltac:(do 4 apply reach_step; apply reach_init; reflexivity))
      as (Ht & _ & Hc & _).
    rewrite Ht in Hc. exact Hc.
Defined.

(** C3 (as stated): right after a fresh [initSlider] the transform of the
    track is the string [translateX(0%)].  The template literal of line
    709 keeps its minus sign in front of the zero. *)
Lemma fresh_transform_keeps_minus :
  initSlider demo = Ready demo0 ∧
  current demo0 = 0 ∧
  transform <$> track (el demo0) = Some "translateX(-0%)" ∧
  transform <$> track (el demo0) ≠ Some "translateX(0%)".
Proof. repeat split. discriminate. Qed.

(** C3 (amended): right after a fresh [initSlider], [current] is [0], the
    string assigned to the transform of the track is [translateX(-0%)]
    (a zero offset), slide 0 is the visible slide and the others are
    hidden and inert; in every reachable state the transform is
    [translateX(-N%)] with [N] the decimal numeral of [100 * current]. *)
Theorem fresh_render (slider : SliderEl) (c : Carousel) :
  initSlider slider = Ready c →
  current c = 0
  ∧ transform <$> track (el c) = Some "translateX(-0%)"
  ∧ (∃ s, slides (el c) !! 0%nat = Some s ∧ visible s)
  ∧ (∀ i s, slides (el c) !! i = Some s → i ≠ 0%nat →
            hidden_inert s ∧ ¬ visible s)
  ∧ (∀ c', reachable slider c' →
           transform <$> track (el c') =
           Some ("translateX(-" +:+ JS.toString (current c' * 100) +:+ "%)")).
Proof.
  intros Hinit.
  assert (Htr : ∀ c', reachable slider c' →
            transform <$> track (el c') =
            Some ("translateX(-" +:+ JS.toString (current c' * 100) +:+ "%)")).
  { intros c' HI%reachable_Inv.
    rewrite (inv_el _ _ HI), paint_track_eq, wire_track
      by apply (inv_current _ _ HI).
    by destruct (inv_track _ _ HI) as [t ->]. }
  pose proof (reach_init _ _ Hinit) as Hr.
  destruct (reachable_range _ _ Hr) as (Htot & Hne & _ & Hcur).
  specialize (Hcur Hinit).
  split; [done|]. split; [|split; [|split; [|done]]].
  - by rewrite (Htr _ Hr), Hcur.
  - rewrite (reachable_slides slider c 0 Hr), Hcur.
    destruct (slides slider) as [|s0 l] eqn:Hs; [simpl in *; lia|].
    simpl. eexists. split; [done|]. by split.
  - intros i s Hs Hi.
    rewrite (reachable_slides slider c i Hr), Hcur in Hs.
    destruct (slides slider !! i); [|done].
    injection Hs as <-.
    assert ((Z.of_nat i =? 0) = false) as -> by (apply Z.eqb_neq; lia).
    split; [by split|]. intros [_ ?]. done.
Qed.

Lemma fresh_render_witness :
  current demo0 = 0
  ∧ transform <$> track (el demo0) = Some "translateX(-0%)"
  ∧ (∃ s, slides (el demo0) !! 0%nat = Some s ∧ visible s)
  ∧ (∀ i s, slides (el demo0) !! i = Some s → i ≠ 0%nat →
            hidden_inert s ∧ ¬ visible s)
  ∧ (∀ c', reachable demo c' →
           transform <$> track (el c') =
           Some ("translateX(-" +:+ JS.toString (current c' * 100) +:+ "%)")).
Proof. apply (fresh_render demo demo0). reflexivity. Defined.

(** ** Circular navigation *)

Lemma carousel_eta (c : Carousel) :
  with_el (el c) (with_current (current c) c) = c.
Proof. by destruct c. Qed.

Lemma iter_next (slider : SliderEl) (c : Carousel) (n : nat) :
  Inv slider c →
  Nat.iter n next c =
  let cur := (current c + Z.of_nat n) `mod` total c in
  with_el (paint cur (el (wire slider))) (with_current cur c).
Proof.
  intros [Ht Htot Hne Hcur Hel]. induction n as [|n IH].
  - cbn [Nat.iter]. cbv zeta. rewrite Z.add_0_r, Z.mod_small by lia.
    by rewrite <- Hel, carousel_eta.
  - rewrite Nat.iter_succ, IH. cbv zeta.
    set (m := (current c + Z.of_nat n) `mod` total c).
    assert (Hm : 0 ≤ m < total c) by (apply Z.mod_pos_bound; lia).
    unfold next. rewrite goTo_unfold.
    change (current (with_el _ (with_current m c))) with m.
    change (total (with_el _ (with_current m c))) with (total c).
    change (el (with_el (paint m (el (wire slider))) (with_current m c)))
      with (paint m (el (wire slider))).
    rewrite paint_paint by (apply rem_shift_range; lia).
    rewrite rem_shift by lia.
    unfold m. rewrite Z.add_mod_idemp_l by lia.
    by replace (current c + Z.of_nat n + 1)
      with (current c + Z.of_nat (S n)) by lia.
Qed.

(** C4: from every reachable state, [total] calls of [next()] lead back to
    the same state, so [current] has its original value; with three
    slides, three calls do. *)
Theorem next_total_times (slider : SliderEl) (c : Carousel) :
  reachable slider c →
  Nat.iter (Z.to_nat (total c)) next c = c
  ∧ current (Nat.iter (Z.to_nat (total c)) next c) = current c
  ∧ (total c = 3 → current (next (next (next c))) = current c).
Proof.
  intros HI%reachable_Inv.
  assert (Hback : Nat.iter (Z.to_nat (total c)) next c = c).
  { rewrite (iter_next slider c _ HI). cbv zeta.
    destruct HI as [Ht Htot Hne Hcur Hel].
    rewrite Z2Nat.id by lia.
    replace (current c + total c) with (current c + 1 * total c) by lia.
    rewrite Z.mod_add, Z.mod_small by lia.
    by rewrite <- Hel, carousel_eta. }
  split; [done|]. split; [by rewrite Hback|].
  intros H3. rewrite H3 in Hback. by rewrite <- Hback at 2.
Qed.

Lemma next_total_times_witness :
  Nat.iter 3 next demo0 = demo0 ∧ current (next (next (next demo0))) = 0.
Proof.
  destruct (next_total_times demo demo0
              ltac:(apply reach_init; reflexivity)) as (Hback & _ & H3).
  split.
  - exact Hback.
  - exact (H3 eq_refl).
Defined.

(** ** What assistive technology sees *)

(** C6: after [goTo(k)] with [k] a slide position, the slide at position
    [k] is the visible one and every other slide is hidden and inert. *)
Theorem goTo_exposes_one_slide (slider : SliderEl) (c : Carousel) (k : Z) :
  reachable slider c → 0 ≤ k < total c →
  length (slides (el (goTo k c))) = Z.to_nat (total c)
  ∧ (∃ s, slides (el (goTo k c)) !! Z.to_nat k = Some s ∧ visible s)
  ∧ (∀ i s, slides (el (goTo k c)) !! i = Some s → Z.of_nat i ≠ k →
            hidden_inert s ∧ ¬ visible s).
Proof.
  intros Hr Hk.
  destruct (reachable_range _ _ Hr) as (Htot & Hne & _ & _).
  assert (Hcur : current (goTo k c) = k).
  { rewrite goTo_current. apply rem_shift_id; lia. }
  split; [|split].
  - apply (reachable_Inv slider) in Hr.
    rewrite goTo_el, (inv_el _ _ Hr), paint_paint
      by (apply rem_shift_range; lia).
    rewrite paint_slides_length, wire_slides. lia.
  - rewrite (goTo_slides slider c k _ Hr), Hcur.
    destruct (lookup_lt_is_Some_2 (slides slider) (Z.to_nat k)) as [s0 ->];
      [lia|].
    simpl. rewrite Z2Nat.id, Z.eqb_refl by lia.
    eexists. split; [done|]. by split.
  - intros i s Hs Hi.
    rewrite (goTo_slides slider c k _ Hr), Hcur in Hs.
    destruct (slides slider !! i); [|done].
    injection Hs as <-.
    assert ((Z.of_nat i =? k) = false) as -> by (by apply Z.eqb_neq).
    split; [by split|]. intros [_ ?]. done.
Qed.

Lemma goTo_exposes_one_slide_witness :
  length (slides (el (goTo 2 demo0))) = Z.to_nat (total demo0)
  ∧ (∃ s, slides (el (goTo 2 demo0)) !! Z.to_nat 2 = Some s ∧ visible s)
  ∧ (∀ i s, slides (el (goTo 2 demo0)) !! i = Some s → Z.of_nat i ≠ 2 →
            hidden_inert s ∧ ¬ visible s).
Proof.
  apply (goTo_exposes_one_slide demo demo0 2).
  - apply reach_init. reflexivity.
  - vm_compute. split; [discriminate | reflexivity].
Defined.

(** C7: when the root has an indicator container, there is a dot for
    every slide position, and after [goTo(k)] the dot at position [k]
    is the only one with the class [is-active]; if the markup brought no
    [.slider__dot] of its own, that dot is the one built for slide [k]. *)
Theorem goTo_activates_one_dot (slider : SliderEl) (c : Carousel) (k : Z) :
  reachable slider c → is_Some (dotsContainer slider) → 0 ≤ k < total c →
  length (dots (el (goTo k c)))
    = (length (dots slider) + Z.to_nat (total c))%nat
  ∧ (∃ d, dots (el (goTo k c)) !! Z.to_nat k = Some d ∧ is_active d)
  ∧ (∀ j d, dots (el (goTo k c)) !! j = Some d → Z.of_nat j ≠ k →
            ¬ is_active d)
  ∧ (dots slider = [] →
     dots (el (goTo k c)) !! Z.to_nat k
     = Some (toggle "is-active" true (new_dot (Z.to_nat k)))).
Proof.
  intros Hr Hdc Hk.
  destruct (reachable_range _ _ Hr) as (Htot & Hne & _ & _).
  assert (Hcur : current (goTo k c) = k).
  { rewrite goTo_current. apply rem_shift_id; lia. }
  pose proof (create_dots_length slider Hdc) as Hlen.
  split; [|split; [|split]].
  - apply (reachable_Inv slider) in Hr.
    rewrite goTo_el, (inv_el _ _ Hr), paint_paint
      by (apply rem_shift_range; lia).
    rewrite paint_dots_length, wire_dots. lia.
  - rewrite (goTo_dots slider c k _ Hr), Hcur.
    destruct (lookup_lt_is_Some_2 (dots (create_dots slider)) (Z.to_nat k))
      as [d0 ->]; [lia|].
    simpl. rewrite Z2Nat.id, Z.eqb_refl by lia.
    eexists. split; [done|]. by apply is_active_toggle.
  - intros j d Hd Hj.
    rewrite (goTo_dots slider c k _ Hr), Hcur in Hd.
    destruct (dots (create_dots slider) !! j); [|done].
    injection Hd as <-.
    rewrite is_active_toggle. intros Heq. by apply Z.eqb_eq in Heq.
  - intros Hnil.
    rewrite (goTo_dots slider c k _ Hr), Hcur.
    rewrite Z2Nat.id, Z.eqb_refl by lia.
    destruct Hdc as [p Hp]. unfold create_dots. rewrite Hp, Hnil. simpl.
    rewrite take_nil, drop_nil, app_nil_l, app_nil_r, list_lookup_imap.
    destruct (lookup_lt_is_Some_2 (slides slider) (Z.to_nat k)) as [s0 ->];
      [lia|].
    done.
Qed.

Lemma goTo_activates_one_dot_witness :
  length (dots (el (goTo 1 demo0))) = 3%nat
  ∧ (∃ d, dots (el (goTo 1 demo0)) !! 1%nat = Some d ∧ is_active d)
  ∧ (∀ j d, dots (el (goTo 1 demo0)) !! j = Some d → Z.of_nat j ≠ 1 →
            ¬ is_active d)
  ∧ dots (el (goTo 1 demo0)) !! 1%nat
    = Some (toggle "is-active" true (new_dot 1)).
Proof.
  destruct (goTo_activates_one_dot demo demo0 1
              ltac:(apply reach_init; reflexivity)
              ltac:(eexists; reflexivity)
              ltac:(vm_compute; split; [discriminate | reflexivity]))
    as (Hlen & Hk & Hothers & Hbuilt).
  split; [exact Hlen|]. split; [exact Hk|]. split; [exact Hothers|].
  exact (Hbuilt eq_refl).
Defined.

(** ** [goTo] does not read [current] *)


Lemma goTo_known (slider : SliderEl) (c : Carousel) (i : Z) :
  Inv slider c → - total c ≤ i →
  goTo i c =
  with_el (paint (i `mod` total c) (el (wire slider)))
          (with_current (i `mod` total c) c).
Proof.
  intros HI Hi. pose proof (inv_nonempty _ _ HI) as Hne.
  rewrite goTo_unfold, (inv_el _ _ HI), rem_shift by lia.
  rewrite paint_paint; [done|]. apply Z.mod_pos_bound. lia.
Qed.



(** ** The listeners of an initialised slider *)

Lemma registrations_paint (e : Event) (k : Z) (s : SliderEl) :
  registrations e (paint k s) = registrations e s.
Proof.
  destruct e; unfold registrations;
    rewrite ?paint_track_listeners, ?paint_dots_lookup;
    try done; try (by rewrite paint_eta).
  by destruct (dots s !! j).
Qed.

Lemma reachable_listeners_for (slider : SliderEl) (c : Carousel) (e : Event) :
  reachable slider c →
  listeners_for e (el c) = listeners_for e (el (wire slider)).
Proof.
  intros HI%reachable_Inv. unfold listeners_for.
  by rewrite (inv_el _ _ HI), registrations_paint.
Qed.

Section Pristine.
Variable slider : SliderEl.
Hypothesis fresh : pristine slider.

Lemma wire_listeners_keydown (key : string) :
  listeners_for (Keydown key) (el (wire slider)) = [OnKeydown].
Proof.
  destruct fresh as (Hl & _).
  unfold listeners_for, wire, wire_keyboard, wire_touch, wire_autoplay.
  destruct (JS.positive _); simpl; unfold create_dots;
    destruct (dotsContainer slider); simpl; rewrite Hl; reflexivity.
Qed.

Lemma wire_track_registrations :
  is_Some (track slider) →
  from_option track_listeners [] (track (el (wire slider))) =
  [("touchstart", OnTouchstart); ("touchend", OnTouchend)].
Proof.
  intros [t Ht]. destruct fresh as (_ & Htl & _).
  rewrite Ht in Htl. simpl in Htl.
  rewrite wire_track, Ht. simpl. by rewrite Htl.
Qed.

Lemma wire_listeners_touchstart (x : JS.Number) :
  is_Some (track slider) →
  listeners_for (Touchstart x) (el (wire slider)) = [OnTouchstart].
Proof.
  intros Ht. unfold listeners_for, registrations.
  by rewrite (wire_track_registrations Ht).
Qed.

Lemma wire_listeners_touchend (x : JS.Number) :
  is_Some (track slider) →
  listeners_for (Touchend x) (el (wire slider)) = [OnTouchend].
Proof.
  intros Ht. unfold listeners_for, registrations.
  by rewrite (wire_track_registrations Ht).
Qed.

Lemma wire_listeners_next :
  is_Some (nextBtn slider) →
  listeners_for Click_next (el (wire slider)) = [OnNext].
Proof.
  intros [b Hb]. destruct fresh as (_ & _ & _ & Hn & _).
  rewrite Hb in Hn. simpl in Hn.
  unfold listeners_for, wire, wire_keyboard, wire_touch, wire_autoplay.
  destruct (JS.positive _); simpl; unfold create_dots;
    destruct (dotsContainer slider); simpl; rewrite Hb; simpl;
    rewrite Hn; reflexivity.
Qed.

Lemma wire_listeners_prev :
  is_Some (prevBtn slider) →
  listeners_for Click_prev (el (wire slider)) = [OnPrev].
Proof.
  intros [b Hb]. destruct fresh as (_ & _ & Hp & _).
  rewrite Hb in Hp. simpl in Hp.
  unfold listeners_for, wire, wire_keyboard, wire_touch, wire_autoplay.
  destruct (JS.positive _); simpl; unfold create_dots;
    destruct (dotsContainer slider); simpl; rewrite Hb; simpl;
    rewrite Hp; reflexivity.
Qed.
End Pristine.

(** ** Navigation by buttons, keys and touch *)

(** C5: in a reachable state of a slider set up on a fresh root, [next()]
    is [goTo(current + 1)] and [previous()] is [goTo(current - 1)]; a
    click on the next (previous) button and the right (left) arrow key
    each make exactly that one call; from [current = 0] with three
    slides [previous()] leads to [current = 2]. *)
Theorem next_previous_channels (slider : SliderEl) (c : Carousel) :
  pristine slider → reachable slider c →
  next c = goTo (current c + 1) c
  ∧ previous c = goTo (current c - 1) c
  ∧ (is_Some (nextBtn slider) →
     dispatch Click_next c = (next c, [current c + 1]))
  ∧ (is_Some (prevBtn slider) →
     dispatch Click_prev c = (previous c, [current c - 1]))
  ∧ dispatch (Keydown "ArrowRight") c = (next c, [current c + 1])
  ∧ dispatch (Keydown "ArrowLeft") c = (previous c, [current c - 1])
  ∧ (total c = 3 → current c = 0 → current (previous c) = 2).
Proof.
  intros Hp Hr.
  split; [done|]. split; [done|].
  split; [|split; [|split; [|split]]].
  - intros Hn. unfold dispatch.
    by rewrite (reachable_listeners_for slider c _ Hr),
      (wire_listeners_next slider Hp Hn).
  - intros Hb. unfold dispatch.
    by rewrite (reachable_listeners_for slider c _ Hr),
      (wire_listeners_prev slider Hp Hb).
  - unfold dispatch.
    by rewrite (reachable_listeners_for slider c _ Hr),
      (wire_listeners_keydown slider Hp).
  - unfold dispatch.
    by rewrite (reachable_listeners_for slider c _ Hr),
      (wire_listeners_keydown slider Hp).
  - intros Ht Hc. unfold previous. by rewrite goTo_current, Ht, Hc.
Qed.


Lemma next_previous_channels_witness :
  dispatch Click_next demo0 = (goTo 1 demo0, [1])
  ∧ dispatch Click_prev demo0 = (goTo (-1) demo0, [-1])
  ∧ dispatch (Keydown "ArrowRight") demo0 = dispatch Click_next demo0
  ∧ dispatch (Keydown "ArrowLeft") demo0 = dispatch Click_prev demo0
  ∧ current (previous demo0) = 2.
Proof.
  destruct (next_previous_channels demo demo0
              ltac:(repeat split; constructor)
              ltac:(apply reach_init; reflexivity))
    as (_ & _ & Hn & Hp & Hr & Hl & H3).
  specialize (Hn ltac:(eexists; reflexivity)).
  specialize (Hp ltac:(eexists; reflexivity)).
  split; [exact Hn|]. split; [exact Hp|].
  split; [by rewrite Hr, Hn|]. split; [by rewrite Hl, Hp|].
  exact (H3 eq_refl eq_refl).
Defined.

(** C8: a touch that starts at [x0] and ends at [x1] on the track of a
    slider set up on a fresh root.  The displacement is the double
    [dx = x1 - x0] of line 734.  When it exceeds 50 units the touch
    makes exactly one [goTo] call: [next()] when it is leftward
    ([dx < -50]), [previous()] when it is rightward ([dx > 50]); in
    every other case, [NaN] included, it makes none.  51 and 50.5
    units leftward give one [next()], 50 and 49 give nothing. *)
Theorem swipe_threshold (slider : SliderEl) (c : Carousel)
    (x0 x1 : JS.Number) :
  pristine slider → reachable slider c →
  let c1 := step (Touchstart x0) c in
  let dx := JS.sub x1 x0 in
  navigations (Touchstart x0) c = []
  ∧ current c1 = current c
  ∧ (JS.lt dx (JS.number (-50)) = true →
     dispatch (Touchend x1) c1 = (next c1, [current c + 1]))
  ∧ (JS.lt (JS.number 50) dx = true →
     dispatch (Touchend x1) c1 = (previous c1, [current c - 1]))
  ∧ (JS.lt dx (JS.number (-50)) = false → JS.lt (JS.number 50) dx = false →
     dispatch (Touchend x1) c1 = (c1, []))
  ∧ (dx = JS.number (-51) → navigations (Touchend x1) c1 = [current c + 1])
  ∧ (dx = JS.dyadic (-101) (-1) →
     navigations (Touchend x1) c1 = [current c + 1])
  ∧ (dx = JS.number (-50) → navigations (Touchend x1) c1 = [])
  ∧ (dx = JS.number (-49) → navigations (Touchend x1) c1 = []).
Proof.
  intros Hp Hr c1 dx.
  pose proof (inv_track _ _ (reachable_Inv _ _ Hr)) as Ht.
  destruct (swipe_cases dx) as (Hl & Hg & Hs).
  assert (Hc1 : c1 = with_startX x0 c).
  { unfold c1, step, dispatch.
    by rewrite (reachable_listeners_for slider c _ Hr),
      (wire_listeners_touchstart slider Hp x0 Ht). }
  assert (Hend : dispatch (Touchend x1) c1 =
            if JS.lt (JS.number 50) (JS.abs dx)
            then call_goTo (if JS.lt dx (JS.number 0) then current c + 1
                            else current c - 1) c1
            else (c1, [])).
  { unfold dispatch.
    rewrite (reachable_listeners_for slider c1 _ (reach_step _ _ _ Hr)),
      (wire_listeners_touchend slider Hp x1 Ht).
    simpl. unfold and_then. rewrite Hc1. simpl. fold dx.
    by destruct (JS.lt (JS.number 50) (JS.abs dx)). }
  assert (Hleft : JS.lt dx (JS.number (-50)) = true →
            dispatch (Touchend x1) c1 = (next c1, [current c + 1])).
  { intros [H1 H2]%Hl. rewrite Hend, H1, H2.
    unfold call_goTo, next. by rewrite Hc1. }
  assert (Hnone : JS.lt dx (JS.number (-50)) = false →
            JS.lt (JS.number 50) dx = false →
            dispatch (Touchend x1) c1 = (c1, [])).
  { intros H1 H2. by rewrite Hend, (Hs H1 H2). }
  split; [|split; [|split; [|split; [|split; [|split; [|split; [|split]]]]]]].
  - unfold navigations, dispatch.
    by rewrite (reachable_listeners_for slider c _ Hr),
      (wire_listeners_touchstart slider Hp x0 Ht).
  - by rewrite Hc1.
  - done.
  - intros [H1 H2]%Hg. rewrite Hend, H1, H2.
    unfold call_goTo, previous. by rewrite Hc1.
  - done.
  - intros Hdx. unfold navigations. rewrite Hleft; [done|]. by rewrite Hdx.
  - intros Hdx. unfold navigations. rewrite Hleft; [done|]. by rewrite Hdx.
  - intros Hdx. unfold navigations. rewrite Hnone; [done| |]; by rewrite Hdx.
  - intros Hdx. unfold navigations. rewrite Hnone; [done| |]; by rewrite Hdx.
Qed.

Lemma swipe_threshold_witness :
  let at_ (x : Z) := JS.number x in
  let c1 := step (Touchstart (at_ 200)) demo0 in
  navigations (Touchend (at_ 149)) c1 = [1]
  ∧ current (step (Touchend (at_ 149)) c1) = 1
  ∧ navigations (Touchend (JS.dyadic 299 (-1))) c1 = [1]
  ∧ navigations (Touchend (at_ 150)) c1 = []
  ∧ navigations (Touchend (at_ 151)) c1 = []
  ∧ navigations (Touchend (JS.dyadic 501 (-1))) c1 = [-1]
  ∧ navigations (Touchend (at_ 260)) c1 = [-1].
Proof.
  cbv zeta.
  assert (Hp : pristine demo) by (repeat split; constructor).
  assert (Hr : reachable demo demo0) by (apply reach_init; reflexivity).
  destruct (swipe_threshold demo demo0 (JS.number 200)
              (JS.number 149) Hp Hr)
    as (_ & _ & Hleft & _ & _ & H51 & _).
  destruct (swipe_threshold demo demo0 (JS.number 200)
              (JS.dyadic 299 (-1)) Hp Hr)
    as (_ & _ & _ & _ & _ & _ & Hhalf & _).
  destruct (swipe_threshold demo demo0 (JS.number 200)
              (JS.number 150) Hp Hr)
    as (_ & _ & _ & _ & _ & _ & _ & H50 & _).
  destruct (swipe_threshold demo demo0 (JS.number 200)
              (JS.number 151) Hp Hr)
    as (_ & _ & _ & _ & _ & _ & _ & _ & H49).
  destruct (swipe_threshold demo demo0 (JS.number 200)
              (JS.dyadic 501 (-1)) Hp Hr)
    as (_ & _ & _ & Hrhalf & _).
  destruct (swipe_threshold demo demo0 (JS.number 200)
              (JS.number 260) Hp Hr)
    as (_ & _ & _ & Hright & _).
  split; [exact (H51 eq_refl)|].
  split; [unfold step at 1; by rewrite (Hleft ltac:(reflexivity))|].
  split; [exact (Hhalf eq_refl)|].
  split; [exact (H50 eq_refl)|].
  split; [exact (H49 eq_refl)|].
  split; [unfold navigations; by rewrite (Hrhalf ltac:(reflexivity))|].
  unfold navigations. by rewrite (Hright ltac:(reflexivity)).
Defined.

(** ** Roots without the required structure *)


(** C9: for a root without a track or without slides [initSlider]
    returns at the guard: the root is left as it was (no listener, no
    dot, no attribute written), no closure state exists for it, and the
    other roots of the page are initialised as they are without it. *)
Theorem initSlider_skips (slider : SliderEl) (before after : list SliderEl) :
  track slider = None ∨ slides slider = [] →
  initSlider slider = Skipped slider
  ∧ root (initSlider slider) = slider
  ∧ init (before ++ slider :: after)
    = init before ++ Skipped slider :: init after.
Proof.
  intros Hbad.
  assert (Hskip : initSlider slider = Skipped slider).
  { unfold initSlider. destruct Hbad as [-> | ->]; [done|].
    by destruct (track slider). }
  split; [done|]. split; [by rewrite Hskip|].
  unfold init. by rewrite fmap_app, fmap_cons, Hskip.
Qed.


Lemma initSlider_skips_witness :
  initSlider no_track = Skipped no_track
  ∧ root (initSlider no_track) = no_track
  ∧ init ([demo] ++ no_track :: [demo])
    = init [demo] ++ Skipped no_track :: init [demo].
Proof. apply (initSlider_skips no_track [demo] [demo]). left. reflexivity. Defined.

(** ** Which closure runs for which event *)

Lemma create_dots_lookup (slider : SliderEl) (p j : nat) :
  dotsContainer slider = Some p →
  let q := (p `min` length (dots slider))%nat in
  let n := length (slides slider) in
  dots (create_dots slider) !! j =
  if decide (j < q)%nat then dots slider !! j
  else if decide (j < q + n)%nat then Some (new_dot (j - q))
  else dots slider !! (j - n)%nat.
Proof.
  intros Hp q n. unfold create_dots. rewrite Hp. simpl.
  assert (Hq : length (take p (dots slider)) = q) by apply length_take.
  assert (Hn : length (imap (λ i (_ : Slide), new_dot i) (slides slider)) = n)
    by apply length_imap.
  destruct (decide (j < q)%nat) as [Hj|Hj].
  - rewrite lookup_app_l by lia. apply lookup_take_lt. lia.
  - rewrite lookup_app_r by lia. rewrite Hq.
    destruct (decide (j < q + n)%nat) as [Hj'|Hj'].
    + rewrite lookup_app_l by lia. rewrite list_lookup_imap.
      destruct (lookup_lt_is_Some_2 (slides slider) (j - q)) as [s ->];
        [fold n; lia | done].
    + rewrite lookup_app_r by lia. rewrite Hn, lookup_drop.
      destruct (decide (p ≤ length (dots slider))%nat).
      * f_equal. lia.
      * rewrite !lookup_ge_None_2 by lia. done.
Qed.

Section Wired.
Variable slider : SliderEl.
Hypothesis fresh : pristine slider.

Lemma wire_listeners_hover (e : Event) :
  e = Mouseenter ∨ e = Mouseleave →
  listeners_for e (el (wire slider)) =
  if JS.positive (read_interval slider)
  then [match e with Mouseenter => OnMouseenter | _ => OnMouseleave end]
  else [].
Proof.
  destruct fresh as (Hl & _).
  unfold listeners_for, wire, wire_keyboard, wire_touch, wire_autoplay.
  change (interval (declare slider)) with (read_interval slider).
  intros [-> | ->]; destruct (JS.positive _); simpl; unfold create_dots;
    destruct (dotsContainer slider); simpl; rewrite Hl; reflexivity.
Qed.

Lemma wire_listeners_dot (j : nat) :
  listeners_for (Click_dot j) (el (wire slider)) =
  match dotsContainer slider with
  | Some p =>
      let q := (p `min` length (dots slider))%nat in
      if decide (q ≤ j < q + length (slides slider))%nat
      then [OnDot (j - q)] else []
  | None => []
  end.
Proof.
  destruct fresh as (_ & _ & _ & _ & Hd).
  assert (Hmark : ∀ i,
            snd <$> filter (λ r : Registration, fst r = "click")
                      (from_option dot_listeners [] (dots slider !! i)) = []).
  { intros i. destruct (dots slider !! i) as [d|] eqn:Hi; [|done]. simpl.
    rewrite Forall_lookup in Hd. by rewrite (Hd _ _ Hi). }
  unfold listeners_for, registrations. rewrite wire_dots.
  change (event_type (Click_dot j)) with "click".
  destruct (dotsContainer slider) as [p|] eqn:Hp.
  - rewrite (create_dots_lookup slider p j Hp). cbv zeta.
    repeat case_decide; try lia; try apply Hmark. done.
  - unfold create_dots. rewrite Hp. apply Hmark.
Qed.
End Wired.

(** The closures one event runs in a reachable state of a slider that
    was set up once. *)
Lemma reachable_hover_listeners (slider : SliderEl) (c : Carousel) e :
  pristine slider → reachable slider c →
  e = Mouseenter ∨ e = Mouseleave →
  listeners_for e (el c) =
  if JS.positive (read_interval slider)
  then [match e with Mouseenter => OnMouseenter | _ => OnMouseleave end]
  else [].
Proof.
  intros Hp Hr He.
  by rewrite (reachable_listeners_for slider c e Hr), wire_listeners_hover.
Qed.

Lemma reachable_button_listeners (slider : SliderEl) (c : Carousel) :
  pristine slider → reachable slider c →
  listeners_for Click_next (el c)
  = match nextBtn slider with Some _ => [OnNext] | None => [] end
  ∧ listeners_for Click_prev (el c)
    = match prevBtn slider with Some _ => [OnPrev] | None => [] end.
Proof.
  intros Hp Hr. rewrite !(reachable_listeners_for slider c _ Hr). split.
  - destruct (nextBtn slider) as [b|] eqn:Hb.
    + apply wire_listeners_next; [done | by rewrite Hb].
    + unfold listeners_for, wire, wire_keyboard, wire_touch, wire_autoplay.
      destruct (JS.positive _); simpl; unfold create_dots;
        destruct (dotsContainer slider); simpl; by rewrite Hb.
  - destruct (prevBtn slider) as [b|] eqn:Hb.
    + apply wire_listeners_prev; [done | by rewrite Hb].
    + unfold listeners_for, wire, wire_keyboard, wire_touch, wire_autoplay.
      destruct (JS.positive _); simpl; unfold create_dots;
        destruct (dotsContainer slider); simpl; by rewrite Hb.
Qed.

(** ** The indices [goTo] is called with *)







(** * Further properties of the slider *)

Lemma goTo_keeps_timers (i : Z) (c : Carousel) :
  timers (goTo i c) = timers c ∧ autoplay (goTo i c) = autoplay c
  ∧ next_timer (goTo i c) = next_timer c ∧ startX (goTo i c) = startX c
  ∧ interval (goTo i c) = interval c.
Proof. done. Qed.

Lemma run_listener_keeps_timers l e (c : Carousel) :
  hover_listener l = false →
  let c' := fst (run_listener l e c) in
  timers c' = timers c ∧ autoplay c' = autoplay c
  ∧ next_timer c' = next_timer c.
Proof.
  intros Hl. destruct l; try done; simpl.
  - by destruct e.
  - destruct e; try done. by destruct (JS.lt _ (JS.abs _)).
  - destruct e; try done. unfold and_then.
    by destruct (String.eqb key "ArrowRight"), (String.eqb key "ArrowLeft").
Qed.

Lemma run_all_keeps_timers ls e (c : Carousel) :
  forallb (λ l, negb (hover_listener l)) ls = true →
  let c' := fst (run_all ls e c) in
  timers c' = timers c ∧ autoplay c' = autoplay c
  ∧ next_timer c' = next_timer c.
Proof.
  revert c. induction ls as [|l ls IH]; intros c Hls; [done|].
  simpl in Hls. apply andb_prop in Hls as [Hl Hls].
  apply negb_true_iff in Hl.
  pose proof (run_listener_keeps_timers l e c Hl) as (H1 & H2 & H3).
  simpl. unfold and_then.
  destruct (run_listener l e c) as [c1 t1]. simpl in *.
  specialize (IH c1 Hls).
  destruct (run_all ls e c1) as [c2 t2]. simpl in *.
  destruct IH as (? & ? & ?). repeat split; congruence.
Qed.

Lemma reachable_listeners_calm (slider : SliderEl) (c : Carousel) e :
  pristine slider → reachable slider c →
  e ≠ Mouseenter → e ≠ Mouseleave →
  forallb (λ l, negb (hover_listener l)) (listeners_for e (el c)) = true.
Proof.
  intros Hp Hr He1 He2.
  pose proof (inv_track _ _ (reachable_Inv _ _ Hr)) as Ht.
  destruct e; try done.
  - rewrite (proj2 (reachable_button_listeners slider c Hp Hr)).
    by destruct (prevBtn slider).
  - rewrite (proj1 (reachable_button_listeners slider c Hp Hr)).
    by destruct (nextBtn slider).
  - rewrite (reachable_listeners_for slider c _ Hr), wire_listeners_dot by done.
    destruct (dotsContainer slider); [|done]. cbv zeta. by case_decide.
  - by rewrite (reachable_listeners_for slider c _ Hr),
      (wire_listeners_touchstart slider Hp _ Ht).
  - by rewrite (reachable_listeners_for slider c _ Hr),
      (wire_listeners_touchend slider Hp _ Ht).
  - by rewrite (reachable_listeners_for slider c _ Hr),
      (wire_listeners_keydown slider Hp).
Qed.

Lemma step_keeps_timers (slider : SliderEl) (c : Carousel) e :
  pristine slider → reachable slider c →
  e ≠ Mouseenter → e ≠ Mouseleave →
  timers (step e c) = timers c ∧ autoplay (step e c) = autoplay c.
Proof.
  intros Hp Hr He1 He2.
  pose proof (reachable_listeners_calm slider c e Hp Hr He1 He2) as Hcalm.
  assert (Hrun : timers (fst (run_all (listeners_for e (el c)) e c)) = timers c
                 ∧ autoplay (fst (run_all (listeners_for e (el c)) e c))
                   = autoplay c).
  { destruct (run_all_keeps_timers _ e c Hcalm) as (? & ? & _). done. }
  unfold step. destruct e; try exact Hrun; try done.
  simpl. by destruct (decide _).
Qed.

(** X1: Manual navigation leaves the auto-advance timers as they are: no
    click, key, touch or timer tick schedules or clears one. *)
Theorem navigation_keeps_timers (slider : SliderEl) (c : Carousel) e :
  pristine slider → reachable slider c →
  e ≠ Mouseenter → e ≠ Mouseleave →
  timers (step e c) = timers c ∧ autoplay (step e c) = autoplay c.
Proof. apply step_keeps_timers. Qed.

Lemma navigation_keeps_timers_witness :
  timers (step (Keydown "ArrowRight") timed0) = timers timed0
  ∧ autoplay (step (Keydown "ArrowRight") timed0) = autoplay timed0.
Proof.
  apply (navigation_keeps_timers timed timed0).
  - repeat split. constructor.
  - apply reach_init. reflexivity.
  - discriminate.
  - discriminate.
Defined.

(** ** Dots, keys and composition *)

(** X2: A click on the dot built for slide [i] calls [goTo(i)], once; the
    dot whose class is then [is-active] is the one at position [i] of
    the dot list, which is the clicked one exactly when no dot of the
    markup precedes the built ones.  A click on any other dot does
    nothing. *)
Theorem dot_click_navigates (slider : SliderEl) (c : Carousel) (p i : nat) :
  pristine slider → reachable slider c →
  dotsContainer slider = Some p → (i < length (slides slider))%nat →
  let q := (p `min` length (dots slider))%nat in
  dispatch (Click_dot (q + i)) c = (goTo (Z.of_nat i) c, [Z.of_nat i])
  ∧ current (step (Click_dot (q + i)) c) = Z.of_nat i
  ∧ (∀ j d, dots (el (step (Click_dot (q + i)) c)) !! j = Some d →
            is_active d ↔ j = i)
  ∧ (∀ j, ¬ (q ≤ j < q + length (slides slider))%nat →
          dispatch (Click_dot j) c = (c, [])).
Proof.
  intros Hp Hr Hdc Hi q.
  pose proof (inv_total _ _ (reachable_Inv _ _ Hr)) as Htot.
  pose proof (inv_nonempty _ _ (reachable_Inv _ _ Hr)) as Hne.
  assert (Hd : dispatch (Click_dot (q + i)) c
               = (goTo (Z.of_nat i) c, [Z.of_nat i])).
  { unfold dispatch.
    rewrite (reachable_listeners_for slider c _ Hr), wire_listeners_dot,
      Hdc by done.
    cbv zeta. fold q. case_decide; [|lia].
    by replace (q + i - q)%nat with i by lia. }
  assert (Hcur : current (goTo (Z.of_nat i) c) = Z.of_nat i).
  { rewrite goTo_current. apply rem_shift_id; lia. }
  split; [done|]. unfold step. rewrite Hd. cbn [fst].
  split; [done|]. split.
  - intros j d Hj. rewrite (goTo_dots slider c _ _ Hr), Hcur in Hj.
    destruct (dots (create_dots slider) !! j); [|done].
    injection Hj as <-. rewrite is_active_toggle, Z.eqb_eq. lia.
  - intros j Hj. unfold dispatch.
    rewrite (reachable_listeners_for slider c _ Hr), wire_listeners_dot,
      Hdc by done.
    cbv zeta. fold q. by case_decide.
Qed.

Lemma dot_click_navigates_witness :
  dispatch (Click_dot 2) demo0 = (goTo 2 demo0, [2])
  ∧ current (step (Click_dot 2) demo0) = 2
  ∧ dispatch (Click_dot 3) demo0 = (demo0, []).
Proof.
  destruct (dot_click_navigates demo demo0 0 2
              ltac:(repeat split; constructor)
              ltac:(apply reach_init; reflexivity)
              ltac:(reflexivity)
              ltac:(vm_compute; lia))
    as (Hd & Hc & _ & Hout).
  split; [exact Hd|]. split; [exact Hc|].
  apply Hout. vm_compute. lia.
Defined.

(** X3: A key other than the two arrows changes nothing and calls nothing. *)
Theorem other_keys_ignored (slider : SliderEl) (c : Carousel) (key : string) :
  pristine slider → reachable slider c →
  key ≠ "ArrowRight" → key ≠ "ArrowLeft" →
  dispatch (Keydown key) c = (c, []).
Proof.
  intros Hp Hr H1 H2. unfold dispatch.
  rewrite (reachable_listeners_for slider c _ Hr),
    (wire_listeners_keydown slider Hp).
  simpl. unfold and_then.
  apply String.eqb_neq in H1, H2. by rewrite H1, H2.
Qed.

Lemma other_keys_ignored_witness :
  dispatch (Keydown "Escape") demo0 = (demo0, []).
Proof.
  apply (other_keys_ignored demo demo0 "Escape").
  - repeat split. constructor.
  - apply reach_init. reflexivity.
  - discriminate.
  - discriminate.
Defined.

(** X4: [next()] and [previous()] undo each other in every reachable state. *)
Theorem next_previous_inverse (slider : SliderEl) (c : Carousel) :
  reachable slider c →
  previous (next c) = c ∧ next (previous c) = c.
Proof.
  intros HI%reachable_Inv.
  pose proof (inv_current _ _ HI) as Hc.
  assert (Hback : ∀ d, d = 1 ∨ d = -1 →
            goTo (current (goTo (current c + d) c) - d)
                 (goTo (current c + d) c) = c).
  { intros d Hd.
    assert (HI' : Inv slider (goTo (current c + d) c))
      by (apply Inv_goTo; [done | lia]).
    pose proof (inv_current _ _ HI') as Hc'. rewrite goTo_total in Hc'.
    rewrite (goTo_known slider _ _ HI') by (rewrite goTo_total; lia).
    rewrite goTo_total.
    assert (Hr : (current (goTo (current c + d) c) - d) `mod` total c
                 = current c).
    { rewrite goTo_current.
      rewrite (rem_shift (total c) ltac:(lia) (current c + d)) by lia.
      rewrite Zminus_mod_idemp_l.
      replace (current c + d - d) with (current c) by lia.
      apply Z.mod_small. lia. }
    rewrite Hr, <- (inv_el _ _ HI).
    by destruct c. }
  split.
  - unfold previous, next. apply (Hback 1). by left.
  - unfold previous, next.
    pose proof (Hback (-1) ltac:(by right)) as H.
    replace (current c + -1) with (current c - 1) in H by lia.
    by replace (current (goTo (current c - 1) c) - -1)
      with (current (goTo (current c - 1) c) + 1) in H by lia.
Qed.

Lemma next_previous_inverse_witness :
  previous (next demo0) = demo0 ∧ next (previous demo0) = demo0.
Proof. apply (next_previous_inverse demo). apply reach_init. reflexivity. Defined.

(** X5: The last of two [goTo] calls decides the state: when its index is
    not below [-total], as every caller's is, whatever the call before
    it wrote is overwritten. *)
Theorem goTo_last_wins (j k : Z) (c : Carousel) :
  0 < total c → - total c ≤ j → exact_call j c → exact_call k c →
  goTo j (goTo k c) = goTo j c
  ∧ current (goTo j (goTo k c)) = j `mod` total c.
Proof.
  intros Ht Hj _ _.
  assert (Hr : 0 ≤ Z.rem (j + total c) (total c))
    by (apply rem_shift_range; lia).
  split.
  - rewrite (goTo_unfold j (goTo k c)), goTo_total, goTo_el, paint_paint
      by done.
    reflexivity.
  - rewrite goTo_current, goTo_total. by apply rem_shift.
Qed.

Lemma goTo_last_wins_witness :
  goTo (-1) (goTo 1 demo0) = goTo (-1) demo0
  ∧ current (goTo (-1) (goTo 1 demo0)) = 2
  ∧ current (goTo 1 demo0) = 1.
Proof.
  destruct (goTo_last_wins (-1) 1 demo0 ltac:(reflexivity)
              ltac:(vm_compute; discriminate)
              ltac:(unfold exact_call, JS.exact; vm_compute;
                    repeat split; discriminate)
              ltac:(unfold exact_call, JS.exact; vm_compute;
                    repeat split; discriminate))
    as [Hw Hc].
  split; [exact Hw|]. split; [exact Hc | reflexivity].
Defined.

(** ** Auto-advance and hover *)

Lemma fresh_handles_listener l e (c : Carousel) :
  fresh_handles c → fresh_handles (fst (run_listener l e c)).
Proof.
  intros (Hnd & Hlt & Ha).
  destruct (decide (hover_listener l = false)) as [Hl|Hl].
  { destruct (run_listener_keeps_timers l e c Hl) as (H1 & H2 & H3).
    unfold fresh_handles. by rewrite H1, H2, H3. }
  destruct l; try done; simpl.
  - destruct (autoplay c) as [h|] eqn:Hh;
      [|unfold fresh_handles; rewrite Hh; by split_and!].
    unfold fresh_handles; simpl. rewrite Hh. split; [|split].
    + by apply NoDup_filter.
    + rewrite Forall_forall in Hlt |- *.
      intros x [_ Hx]%list_elem_of_filter. by apply Hlt.
    + done.
  - unfold fresh_handles; simpl. split; [|split].
    + apply NoDup_cons. split; [|done].
      intros Hin. rewrite Forall_forall in Hlt. specialize (Hlt _ Hin). lia.
    + apply Forall_cons. split; [lia|].
      eapply Forall_impl; [done|]. simpl. lia.
    + intros h [= <-]. lia.
Qed.

Lemma fresh_handles_run_all ls e (c : Carousel) :
  fresh_handles c → fresh_handles (fst (run_all ls e c)).
Proof.
  revert c. induction ls as [|l ls IH]; intros c Hc; [done|].
  simpl. unfold and_then.
  pose proof (fresh_handles_listener l e c Hc) as H1.
  destruct (run_listener l e c) as [c1 t1]. simpl in H1.
  specialize (IH c1 H1). by destruct (run_all ls e c1).
Qed.

Lemma fresh_handles_wire (slider : SliderEl) :
  fresh_handles (goTo 0 (wire slider)).
Proof.
  unfold fresh_handles.
  destruct (goTo_keeps_timers 0 (wire slider)) as (-> & -> & -> & _).
  unfold wire, wire_keyboard, wire_touch, wire_autoplay.
  destruct (JS.positive _); simpl.
  - split; [|split].
    + apply NoDup_singleton.
    + apply Forall_singleton. lia.
    + intros h [= <-]. lia.
  - split; [|split]; [apply NoDup_nil_2 | done | done].
Qed.

Lemma reachable_fresh_handles (slider : SliderEl) (c : Carousel) :
  reachable slider c → fresh_handles c.
Proof.
  induction 1 as [c Hinit | c e _ IH].
  - apply initSlider_Ready in Hinit as (_ & _ & ->).
    apply fresh_handles_wire.
  - unfold step. destruct e; simpl; try by apply fresh_handles_run_all.
    by destruct (decide _).
Qed.

(** X6: Without a positive [data-interval] (absent, empty, zero, negative or
    not a number) nothing is ever scheduled: in every reachable state
    there is no timer, hover does nothing and no tick navigates. *)
Theorem no_interval_no_autoplay (slider : SliderEl) (c : Carousel) :
  pristine slider → JS.positive (read_interval slider) = false →
  reachable slider c →
  timers c = [] ∧ autoplay c = None
  ∧ dispatch Mouseenter c = (c, [])
  ∧ dispatch Mouseleave c = (c, [])
  ∧ ∀ h, dispatch (Timer h) c = (c, []).
Proof.
  intros Hp Hint Hr.
  assert (Hidle : timers c = [] ∧ autoplay c = None).
  { induction Hr as [c Hinit | c e Hr IH].
    - apply initSlider_Ready in Hinit as (_ & _ & ->).
      destruct (goTo_keeps_timers 0 (wire slider)) as (-> & -> & _).
      unfold wire, wire_keyboard, wire_touch, wire_autoplay.
      change (interval (declare slider)) with (read_interval slider).
      by rewrite Hint.
    - destruct (decide (e = Mouseenter ∨ e = Mouseleave)) as [He|He].
      + destruct He as [-> | ->]; unfold step, dispatch;
          by rewrite (reachable_hover_listeners slider c _ Hp Hr), Hint
            by tauto.
      + destruct (step_keeps_timers slider c e Hp Hr) as [-> ->];
          [tauto | tauto | done]. }
  destruct Hidle as [Ht Ha]. split; [done|]. split; [done|].
  split; [|split].
  - unfold dispatch.
    by rewrite (reachable_hover_listeners slider c _ Hp Hr), Hint by tauto.
  - unfold dispatch.
    by rewrite (reachable_hover_listeners slider c _ Hp Hr), Hint by tauto.
  - intros h. unfold dispatch. rewrite Ht.
    destruct (decide (h ∈ [])) as [Hin|]; [|done]. by apply elem_of_nil in Hin.
Qed.

Lemma no_interval_no_autoplay_witness :
  let c := step Mouseleave (step Click_next demo0) in
  timers c = [] ∧ autoplay c = None
  ∧ dispatch Mouseenter c = (c, [])
  ∧ dispatch Mouseleave c = (c, [])
  ∧ ∀ h, dispatch (Timer h) c = (c, []).
Proof.
  apply (no_interval_no_autoplay demo).
  - repeat split. constructor.
  - reflexivity.
  - do 2 apply reach_step. apply reach_init. reflexivity.
Defined.

(** X7: With a positive interval one timer is scheduled at set-up.  While
    exactly the timer held in [autoplay] is scheduled, entering the
    root clears it, and leaving the root when none is scheduled
    schedules one again; a tick of a scheduled timer is [next()]. *)
Theorem hover_pauses_and_resumes (slider : SliderEl) (c : Carousel) :
  pristine slider → JS.positive (read_interval slider) = true →
  reachable slider c →
  (initSlider slider = Ready c →
   timers c = [0%nat] ∧ autoplay c = Some 0%nat)
  ∧ (∀ h, timers c = [h] → autoplay c = Some h →
          timers (step Mouseenter c) = []
          ∧ navigations Mouseenter c = []
          ∧ current (step Mouseenter c) = current c)
  ∧ (timers c = [] →
     timers (step Mouseleave c) = [next_timer c]
     ∧ autoplay (step Mouseleave c) = Some (next_timer c)
     ∧ navigations Mouseleave c = []
     ∧ current (step Mouseleave c) = current c)
  ∧ (∀ h, h ∈ timers c →
          dispatch (Timer h) c = (next c, [current c + 1])).
Proof.
  intros Hp Hint Hr.
  assert (Hin : dispatch Mouseenter c = run_all [OnMouseenter] Mouseenter c).
  { unfold dispatch.
    by rewrite (reachable_hover_listeners slider c _ Hp Hr), Hint by tauto. }
  assert (Hout : dispatch Mouseleave c = run_all [OnMouseleave] Mouseleave c).
  { unfold dispatch.
    by rewrite (reachable_hover_listeners slider c _ Hp Hr), Hint by tauto. }
  split; [|split; [|split]].
  - intros (_ & _ & ->)%initSlider_Ready.
    destruct (goTo_keeps_timers 0 (wire slider)) as (-> & -> & _).
    unfold wire, wire_keyboard, wire_touch, wire_autoplay.
    change (interval (declare slider)) with (read_interval slider).
    by rewrite Hint.
  - intros h Ht Ha. unfold step, navigations. rewrite Hin. simpl.
    unfold and_then, quiet. simpl. rewrite Ha. simpl. rewrite Ht. simpl.
    by rewrite filter_cons_False by tauto.
  - intros Ht. unfold step, navigations. rewrite Hout. simpl.
    by rewrite Ht.
  - intros h Hh. unfold dispatch. by rewrite decide_True.
Qed.

Lemma hover_pauses_and_resumes_witness :
  timers timed0 = [0%nat]
  ∧ timers (step Mouseenter timed0) = []
  ∧ timers (step Mouseleave (step Mouseenter timed0)) = [1%nat]
  ∧ dispatch (Timer 0) timed0 = (next timed0, [1]).
Proof.
  assert (Hp : pristine timed) by (repeat split; constructor).
  assert (Hr : reachable timed timed0) by (apply reach_init; reflexivity).
  destruct (hover_pauses_and_resumes timed timed0 Hp eq_refl Hr)
    as (Hinit & Henter & _ & Htick).
  destruct (hover_pauses_and_resumes timed (step Mouseenter timed0) Hp eq_refl
              (reach_step _ _ _ Hr)) as (_ & _ & Hleave & _).
  destruct (Hinit eq_refl) as [Ht Ha].
  destruct (Henter 0%nat Ht Ha) as (Hpause & _).
  split; [exact Ht|]. split; [exact Hpause|].
  split; [exact (proj1 (Hleave Hpause))|].
  apply Htick. rewrite Ht. apply list_elem_of_singleton. reflexivity.
Defined.

(** X8: Leaving the root never clears a timer: every [mouseleave] schedules
    one more, so [n] of them in a row leave [n] more timers running,
    and entering the root afterwards clears only the last of them. *)
Theorem mouseleave_stacks_timers (slider : SliderEl) (c : Carousel) (n : nat) :
  pristine slider → JS.positive (read_interval slider) = true →
  reachable slider c →
  timers (step Mouseleave c) = next_timer c :: timers c
  ∧ timers (step Mouseenter (step Mouseleave c)) = timers c
  ∧ length (timers (Nat.iter n (step Mouseleave) c))
    = (n + length (timers c))%nat.
Proof.
  intros Hp Hint Hr.
  assert (Hout : ∀ c', reachable slider c' →
            step Mouseleave c' =
            with_autoplay (Some (next_timer c')) (snd (setInterval c'))).
  { intros c' Hr'. unfold step, dispatch.
    by rewrite (reachable_hover_listeners slider c' _ Hp Hr'), Hint by tauto. }
  split; [by rewrite Hout|]. split.
  - unfold step at 1. unfold dispatch.
    rewrite (reachable_hover_listeners slider _ Mouseenter Hp
               (reach_step _ _ Mouseleave Hr)), Hint by tauto.
    rewrite Hout by done. simpl.
    destruct (reachable_fresh_handles _ _ Hr) as (_ & Hlt & _).
    rewrite filter_cons_False by tauto.
    clear -Hlt. induction (timers c) as [|h l IH]; [done|].
    apply Forall_cons in Hlt as [Hh Hl].
    rewrite filter_cons_True by lia. by rewrite IH.
  - induction n as [|n IH]; [done|].
    assert (Hrn : reachable slider (Nat.iter n (step Mouseleave) c)).
    { clear IH. induction n; [done|]. simpl. by apply reach_step. }
    rewrite Nat.iter_succ, Hout by done. simpl. by rewrite IH.
Qed.

Lemma mouseleave_stacks_timers_witness :
  timers (step Mouseleave timed0) = [1%nat; 0%nat]
  ∧ timers (step Mouseenter (step Mouseleave timed0)) = [0%nat]
  ∧ length (timers (Nat.iter 3 (step Mouseleave) timed0)) = 4%nat.
Proof.
  apply (mouseleave_stacks_timers timed timed0 3).
  - repeat split. constructor.
  - reflexivity.
  - apply reach_init. reflexivity.
Defined.

(** ** Reading [data-interval] *)

Section Numerals.
Variable rest : string.
Hypothesis rest_stops : ∀ ch r, rest = String ch r → JS.digit ch = None.

Lemma digits_rest (acc : Z) : JS.digits rest true acc = Some acc.
Proof.
  destruct rest as [|ch r] eqn:Hrest; [done|].
  simpl. by rewrite (rest_stops ch r).
Qed.

Lemma digits_uint_acc (u : Decimal.uint) (z : Z) (acc : positive) :
  z = Z.pos acc →
  JS.digits (NilEmpty.string_of_uint u +:+ rest) true z
  = Some (Z.pos (Pos.of_uint_acc u acc)).
Proof.
  revert z acc. induction u; intros z acc ->; simpl;
    [apply digits_rest | apply IHu; vm_compute (Z.of_nat _); lia ..].
Qed.

Lemma digits_uint (u : Decimal.uint) :
  JS.digits (NilEmpty.string_of_uint u +:+ rest) true 0
  = Some (Z.of_N (Pos.of_uint u)).
Proof.
  induction u; simpl;
    [apply digits_rest | exact IHu | by apply digits_uint_acc ..].
Qed.

Lemma digits_pos (p : positive) (seen : bool) :
  JS.digits (NilEmpty.string_of_uint (Pos.to_uint p) +:+ rest) seen 0
  = Some (Z.pos p).
Proof.
  assert (Hs : JS.digits (NilEmpty.string_of_uint (Pos.to_uint p) +:+ rest)
                 seen 0
               = JS.digits (NilEmpty.string_of_uint (Pos.to_uint p) +:+ rest)
                   true 0).
  { pose proof (DecimalPos.Unsigned.to_uint_nonnil p) as Hnil.
    by destruct (Pos.to_uint p). }
  by rewrite Hs, digits_uint, DecimalPos.Unsigned.of_to.
Qed.

(** No white space starts with a digit or a minus sign. *)
Lemma skipSpace_stop (ch : ascii) (r : string) :
  JS.digit ch ≠ None ∨ ch = "-"%char →
  JS.skipSpace (String ch r) = String ch r.
Proof.
  intros H.
  assert (JS.isSpace ch = false ∧ (∀ b, JS.isSpace2 ch b = false)
          ∧ ∀ b c, JS.isSpace3 ch b c = false) as (H1 & H2 & H3).
  { destruct ch as [[] [] [] [] [] [] [] []];
      first [ by repeat split
            | by destruct H as [H|H]; [vm_compute in H|] ]. }
  unfold JS.skipSpace; fold JS.skipSpace. rewrite H1.
  destruct r as [|b r2]; [done|]. rewrite H2.
  destruct r2 as [|c r3]; [done|]. by rewrite H3.
Qed.

(** [parseInt] reads back what [String(n)] wrote, whatever follows the
    numeral as long as it does not start with a digit. *)
Lemma parseInt_toString (n : Z) :
  JS.parseInt (JS.toString n +:+ rest) = Some n.
Proof.
  assert (Hstop : ∀ ch r, JS.digit ch ≠ None →
            JS.parseInt (String ch r) = JS.digits (String ch r) false 0).
  { intros ch r Hd. unfold JS.parseInt. rewrite skipSpace_stop by (by left).
    destruct ch as [[] [] [] [] [] [] [] []]; try done; by vm_compute in Hd. }
  assert (Hminus : ∀ r, JS.parseInt (String "-" r)
                        = Z.opp <$> JS.digits r false 0).
  { intros r. unfold JS.parseInt. by rewrite skipSpace_stop by (by right). }
  assert (Hcons : ∀ ch s, String ch s +:+ rest = String ch (s +:+ rest))
    by done.
  unfold JS.toString. destruct n as [|p|p]; simpl.
  - rewrite Hcons, Hstop by done. apply digits_rest.
  - pose proof (DecimalPos.Unsigned.to_uint_nonnil p) as Hnil.
    pose proof (digits_pos p false) as Hd.
    destruct (Pos.to_uint p); try done; simpl in Hd |- *;
      rewrite Hcons, Hstop by done; exact Hd.
  - pose proof (DecimalPos.Unsigned.to_uint_nonnil p) as Hnil.
    pose proof (digits_pos p false) as Hd.
    rewrite Hcons, Hminus.
    destruct (Pos.to_uint p); try done; simpl in Hd |- *; by rewrite Hd.
Qed.
End Numerals.

Lemma toString_nonempty (n : Z) (rest : string) :
  String.eqb (JS.toString n +:+ rest) "" = false.
Proof.
  unfold JS.toString. destruct n as [|p|p]; simpl; try done.
  pose proof (DecimalPos.Unsigned.to_uint_nonnil p) as Hnil.
  by destruct (Pos.to_uint p).
Qed.

(** X9: The interval is the integer that the attribute starts with: an
    absent or empty [data-interval] reads as 0, and the numeral of an
    integer [n] (of at most 2^53 in absolute value), followed by
    anything that does not start with a digit, reads as [n];
    auto-advance is switched on exactly when [n] is positive. *)
Theorem interval_numeral (slider : SliderEl) :
  (data_interval slider = None ∨ data_interval slider = Some "" →
   read_interval slider = Some 0)
  ∧ (∀ (n : Z) (rest : string),
       Z.abs n ≤ 2 ^ 53 →
       (∀ ch r, rest = String ch r → JS.digit ch = None) →
       data_interval slider = Some (JS.toString n +:+ rest) →
       read_interval slider = Some n
       ∧ (JS.positive (read_interval slider) = true ↔ 0 < n)).
Proof.
  split.
  - unfold read_interval. by intros [-> | ->].
  - intros n rest _ Hrest Hattr.
    assert (Hread : read_interval slider = Some n).
    { unfold read_interval. rewrite Hattr, toString_nonempty.
      by apply parseInt_toString. }
    split; [done|]. rewrite Hread. simpl. apply Z.ltb_lt.
Qed.

Lemma interval_numeral_witness :
  read_interval demo = Some 0
  ∧ read_interval timed = Some 3000
  ∧ JS.positive (read_interval timed) = true.
Proof.
  destruct (interval_numeral demo) as [Habsent _].
  destruct (interval_numeral timed) as [_ Hnum].
  destruct (Hnum 3000 "" ltac:(vm_compute; discriminate)
              ltac:(discriminate) eq_refl) as [Hread Hpos].
  split; [apply Habsent; by left|]. split; [exact Hread|].
  apply Hpos. reflexivity.
Defined.

(** * Properties of the vehicle selector *)

Lemma vehicle_indexOf_cases (type : option string) :
  (Vehicle.indexOf type = 0 ∧ type = Some "sedan")
  ∨ (Vehicle.indexOf type = 1 ∧ type = Some "suv")
  ∨ (Vehicle.indexOf type = 2 ∧ type = Some "pickup")
  ∨ (Vehicle.indexOf type = 3 ∧ type = Some "van")
  ∨ (Vehicle.indexOf type = -1
     ∧ ∀ k, type = Some k → k ∉ Vehicle.vehicleKeys).
Proof.
  destruct type as [k|]; [|do 4 right; by split].
  unfold Vehicle.indexOf, Vehicle.vehicleKeys. cbn [Vehicle.indexOf_from].
  destruct (String.eqb_spec "sedan" k) as [<-|H0]; [by left|].
  destruct (String.eqb_spec "suv" k) as [<-|H1]; [right; by left|].
  destruct (String.eqb_spec "pickup" k) as [<-|H2]; [do 2 right; by left|].
  destruct (String.eqb_spec "van" k) as [<-|H3]; [do 3 right; by left|].
  do 4 right. split; [done|]. intros k' [= <-].
  rewrite !elem_of_cons, elem_of_nil. intuition congruence.
Qed.

Lemma vehicle_key_at (i : Z) :
  0 ≤ i < 4 → Vehicle.indexOf (Vehicle.key_at i) = i.
Proof.
  intros Hi.
  assert (i = 0 ∨ i = 1 ∨ i = 2 ∨ i = 3) as [-> | [-> | [-> | ->]]] by lia;
    reflexivity.
Qed.

Lemma vehicle_nextCar_index (s : Vehicle.State) :
  -1 ≤ Vehicle.currentIndex s < 4 →
  Vehicle.currentIndex (Vehicle.nextCar s)
  = (Vehicle.currentIndex s + 1) `mod` 4.
Proof.
  intros Hi.
  change (Vehicle.currentIndex (Vehicle.nextCar s))
    with (Vehicle.indexOf
            (Vehicle.key_at (Z.rem (Vehicle.currentIndex s + 1) 4))).
  rewrite Z.rem_mod_nonneg by lia.
  apply vehicle_key_at. apply Z.mod_pos_bound. lia.
Qed.

Lemma vehicle_prevCar_index (s : Vehicle.State) :
  -1 ≤ Vehicle.currentIndex s < 4 →
  Vehicle.currentIndex (Vehicle.prevCar s)
  = (Vehicle.currentIndex s - 1) `mod` 4.
Proof.
  intros Hi.
  change (Vehicle.currentIndex (Vehicle.prevCar s))
    with (Vehicle.indexOf
            (Vehicle.key_at (Z.rem (Vehicle.currentIndex s - 1 + 4) 4))).
  rewrite Z.rem_mod_nonneg by lia.
  replace (Vehicle.currentIndex s - 1 + 4)
    with (Vehicle.currentIndex s - 1 + 1 * 4) by lia.
  rewrite Z.mod_add by lia.
  apply vehicle_key_at. apply Z.mod_pos_bound. lia.
Qed.

Lemma vehicle_reachable_index (p : Vehicle.Page) (s : Vehicle.State) :
  Vehicle.reachable p s → -1 ≤ Vehicle.currentIndex s < 4.
Proof.
  induction 1 as [s Hinit | s Hinit | s e _ IH].
  - unfold Vehicle.initVehicleScripts in Hinit.
    destruct (Vehicle.carImage p); [|done].
    destruct (_ && _); [|done]. destruct (_ && _); [done|].
    injection Hinit as <-.
    change (-1 ≤ Vehicle.indexOf (Vehicle.key_at 0) < 4).
    rewrite vehicle_key_at; lia.
  - unfold Vehicle.initVehicleScripts in Hinit.
    destruct (Vehicle.carImage p); [|done].
    destruct (_ && _); [|done]. destruct (_ && _); [|done].
    injection Hinit as <-. simpl. lia.
  - destruct e; simpl.
    + destruct (Vehicle.buttons s !! j) as [b|]; [|done].
      change (Vehicle.currentIndex (Vehicle.selectVehicle _ _ s))
        with (Vehicle.indexOf (Vehicle.data_vehicle b)).
      destruct (vehicle_indexOf_cases (Vehicle.data_vehicle b))
        as [[-> _] | [[-> _] | [[-> _] | [[-> _] | [-> _]]]]]; lia.
    + destruct (Vehicle.nextBtn s); [|done].
      rewrite vehicle_nextCar_index by done.
      pose proof (Z.mod_pos_bound (Vehicle.currentIndex s + 1) 4). lia.
    + destruct (Vehicle.prevBtn s); [|done].
      rewrite vehicle_prevCar_index by done.
      pose proof (Z.mod_pos_bound (Vehicle.currentIndex s - 1) 4). lia.
    + unfold Vehicle.timeout. destruct (Vehicle.pending s); [done|].
      by destruct (Vehicle.vehicles _).
Qed.

(** X10: [currentIndex] is a position of [vehicleKeys] or [-1]; the arrows
    always lead to a position, and a type button leads to [-1] exactly
    when its [data-vehicle] is none of the four keys. *)
Theorem vehicle_index_range (p : Vehicle.Page) (s : Vehicle.State) :
  Vehicle.reachable p s →
  -1 ≤ Vehicle.currentIndex s < 4
  ∧ 0 ≤ Vehicle.currentIndex (Vehicle.nextCar s) < 4
  ∧ 0 ≤ Vehicle.currentIndex (Vehicle.prevCar s) < 4
  ∧ ∀ j b, Vehicle.buttons s !! j = Some b →
      let s' := Vehicle.step (Vehicle.Click_button j) s in
      Vehicle.currentIndex s' = Vehicle.indexOf (Vehicle.data_vehicle b)
      ∧ (Vehicle.currentIndex s' = -1 ↔
         ∀ k, Vehicle.data_vehicle b = Some k → k ∉ Vehicle.vehicleKeys).
Proof.
  intros Hi%vehicle_reachable_index.
  split; [done|]. split; [|split].
  - rewrite vehicle_nextCar_index by done.
    apply Z.mod_pos_bound. lia.
  - rewrite vehicle_prevCar_index by done.
    apply Z.mod_pos_bound. lia.
  - intros j b Hb. simpl. rewrite Hb.
    change (Vehicle.currentIndex (Vehicle.selectVehicle _ _ s))
      with (Vehicle.indexOf (Vehicle.data_vehicle b)).
    split; [done|].
    destruct (vehicle_indexOf_cases (Vehicle.data_vehicle b))
      as [[-> E] | [[-> E] | [[-> E] | [[-> E] | [-> E]]]]].
    5: by split.
    all: split; [done|]; intros H; exfalso; apply (H _ E);
      unfold Vehicle.vehicleKeys; rewrite !elem_of_cons; tauto.
Qed.

Lemma vehicle_index_range_witness :
  Vehicle.currentIndex (Vehicle.step (Vehicle.Click_button 4)
                          Vehicle.showroom0) = -1
  ∧ 0 ≤ Vehicle.currentIndex
          (Vehicle.nextCar (Vehicle.step (Vehicle.Click_button 4)
                              Vehicle.showroom0)) < 4.
Proof.
  assert (Hr : Vehicle.reachable Vehicle.showroom Vehicle.showroom0)
    by (apply Vehicle.reach_ready; reflexivity).
  destruct (vehicle_index_range Vehicle.showroom Vehicle.showroom0 Hr)
    as (_ & _ & _ & Hclick).
  destruct (vehicle_index_range Vehicle.showroom _
              (Vehicle.reach_step _ _ (Vehicle.Click_button 4) Hr))
    as (_ & Hnext & _).
  split; [|exact Hnext].
  destruct (Hclick 4%nat _ eq_refl) as [Hi _]. exact Hi.
Defined.

(** X11: From a position of [vehicleKeys] the two arrows undo each other and
    four steps forward come back to it; from [-1] the forward arrow
    leads to the first vehicle and the backward arrow to the third. *)
Theorem vehicle_arrows_cycle (p : Vehicle.Page) (s : Vehicle.State) :
  Vehicle.reachable p s →
  (0 ≤ Vehicle.currentIndex s →
   Vehicle.currentIndex (Vehicle.prevCar (Vehicle.nextCar s))
   = Vehicle.currentIndex s
   ∧ Vehicle.currentIndex (Vehicle.nextCar (Vehicle.prevCar s))
     = Vehicle.currentIndex s
   ∧ Vehicle.currentIndex (Nat.iter 4 Vehicle.nextCar s)
     = Vehicle.currentIndex s)
  ∧ (Vehicle.currentIndex s = -1 →
     Vehicle.currentIndex (Vehicle.nextCar s) = 0
     ∧ Vehicle.currentIndex (Vehicle.prevCar s) = 2).
Proof.
  intros Hi%vehicle_reachable_index.
  assert (Hn : ∀ s', -1 ≤ Vehicle.currentIndex s' < 4 →
            -1 ≤ Vehicle.currentIndex (Vehicle.nextCar s') < 4).
  { intros s' H'. rewrite vehicle_nextCar_index by done.
    pose proof (Z.mod_pos_bound (Vehicle.currentIndex s' + 1) 4). lia. }
  assert (Hp : -1 ≤ Vehicle.currentIndex (Vehicle.prevCar s) < 4).
  { rewrite vehicle_prevCar_index by done.
    pose proof (Z.mod_pos_bound (Vehicle.currentIndex s - 1) 4). lia. }
  split.
  - intros H0. split; [|split].
    + rewrite vehicle_prevCar_index, vehicle_nextCar_index by auto.
      rewrite Zminus_mod_idemp_l.
      replace (Vehicle.currentIndex s + 1 - 1) with (Vehicle.currentIndex s)
        by lia.
      apply Z.mod_small. lia.
    + rewrite vehicle_nextCar_index, vehicle_prevCar_index by auto.
      rewrite Zplus_mod_idemp_l.
      replace (Vehicle.currentIndex s - 1 + 1) with (Vehicle.currentIndex s)
        by lia.
      apply Z.mod_small. lia.
    + change (Nat.iter 4 Vehicle.nextCar s)
        with (Vehicle.nextCar (Vehicle.nextCar
                (Vehicle.nextCar (Vehicle.nextCar s)))).
      rewrite !vehicle_nextCar_index by auto.
      assert (Vehicle.currentIndex s = 0 ∨ Vehicle.currentIndex s = 1
              ∨ Vehicle.currentIndex s = 2 ∨ Vehicle.currentIndex s = 3)
        as [-> | [-> | [-> | ->]]] by lia; reflexivity.
  - intros H1.
    rewrite vehicle_nextCar_index, vehicle_prevCar_index, H1 by done.
    done.
Qed.

Lemma vehicle_arrows_cycle_witness :
  Vehicle.currentIndex (Vehicle.prevCar (Vehicle.nextCar Vehicle.showroom0))
  = 0
  ∧ Vehicle.currentIndex (Nat.iter 4 Vehicle.nextCar Vehicle.showroom0) = 0
  ∧ Vehicle.currentIndex
      (Vehicle.prevCar (Vehicle.step (Vehicle.Click_button 4)
                          Vehicle.showroom0)) = 2.
Proof.
  assert (Hr : Vehicle.reachable Vehicle.showroom Vehicle.showroom0)
    by (apply Vehicle.reach_ready; reflexivity).
  destruct (vehicle_arrows_cycle Vehicle.showroom Vehicle.showroom0 Hr)
    as [Hcycle _].
  destruct (vehicle_arrows_cycle Vehicle.showroom _
              (Vehicle.reach_step _ _ (Vehicle.Click_button 4) Hr))
    as [_ Hlost].
  destruct (Hcycle ltac:(vm_compute; discriminate)) as (H1 & _ & H4).
  split; [exact H1|]. split; [exact H4|].
  exact (proj2 (Hlost eq_refl)).
Defined.

Lemma vehicle_mark_lookup (be : option nat) (s : Vehicle.State) (k : nat)
    (b : Vehicle.Button) :
  Vehicle.buttons (Vehicle.mark_buttons be s) !! k = Some b →
  Vehicle.is_active b ↔ be = Some k.
Proof.
  unfold Vehicle.mark_buttons; simpl. rewrite list_lookup_imap.
  destruct (Vehicle.buttons s !! k) as [b0|]; [|done].
  intros [= <-]. unfold Vehicle.is_active; simpl.
  case_bool_decide.
  - rewrite elem_of_union, elem_of_singleton. tauto.
  - rewrite elem_of_difference, elem_of_singleton. tauto.
Qed.

(** X12: A click on a type button leaves that button, and no other, with the
    class [active], whatever its type; the arrows leave no button with
    it, also not the one of the vehicle they lead to. *)
Theorem vehicle_highlight (s : Vehicle.State) (j : nat) (b : Vehicle.Button) :
  Vehicle.buttons s !! j = Some b →
  (∀ k b', Vehicle.buttons (Vehicle.step (Vehicle.Click_button j) s) !! k
           = Some b' →
           Vehicle.is_active b' ↔ k = j)
  ∧ (∀ k b', Vehicle.buttons (Vehicle.nextCar s) !! k = Some b' →
             ¬ Vehicle.is_active b')
  ∧ (∀ k b', Vehicle.buttons (Vehicle.prevCar s) !! k = Some b' →
             ¬ Vehicle.is_active b').
Proof.
  intros Hb. split; [|split].
  - intros k b' Hk. simpl in Hk. rewrite Hb in Hk.
    apply vehicle_mark_lookup in Hk. rewrite Hk. split; congruence.
  - intros k b' Hk. apply vehicle_mark_lookup in Hk. by rewrite Hk.
  - intros k b' Hk. apply vehicle_mark_lookup in Hk. by rewrite Hk.
Qed.

Lemma vehicle_highlight_witness :
  (λ b, bool_decide (Vehicle.is_active b)) <$>
    Vehicle.buttons (Vehicle.step (Vehicle.Click_button 1) Vehicle.showroom0)
  = [false; true; false; false; false]
  ∧ ∀ k b', Vehicle.buttons
              (Vehicle.nextCar
                 (Vehicle.step (Vehicle.Click_button 1) Vehicle.showroom0))
            !! k = Some b' → ¬ Vehicle.is_active b'.
Proof.
  split; [vm_compute; reflexivity|].
  refine (proj1 (proj2 (vehicle_highlight
            (Vehicle.step (Vehicle.Click_button 1) Vehicle.showroom0)
            0 _ eq_refl))).
Defined.

Lemma vehicle_settle_cons (s : Vehicle.State) type rest :
  Vehicle.pending s = type :: rest →
  Vehicle.settle s = Vehicle.settle (Vehicle.timeout s)
  ∧ Vehicle.pending (Vehicle.timeout s) = rest.
Proof.
  intros Hp.
  assert (Hrest : Vehicle.pending (Vehicle.timeout s) = rest).
  { unfold Vehicle.timeout. rewrite Hp. by destruct (Vehicle.vehicles type). }
  split; [|done].
  unfold Vehicle.settle. rewrite Hrest, Hp. simpl length.
  by rewrite Nat.iter_succ_r.
Qed.

Lemma vehicle_settle_last (s : Vehicle.State) l type v :
  Vehicle.pending s = l ++ [type] →
  Vehicle.vehicles type = Vehicle.Own v →
  Vehicle.src (Vehicle.img (Vehicle.settle s)) = Some (Vehicle.image v)
  ∧ ("fade" ∉ Vehicle.img_classes (Vehicle.img (Vehicle.settle s)))
  ∧ Vehicle.pending (Vehicle.settle s) = []
  ∧ Vehicle.currentIndex (Vehicle.settle s) = Vehicle.currentIndex s
  ∧ Vehicle.buttons (Vehicle.settle s) = Vehicle.buttons s.
Proof.
  revert s. induction l as [|x l IH]; intros s Hp Hv.
  - simpl in Hp.
    assert (Hs : Vehicle.settle s = Vehicle.timeout s).
    { unfold Vehicle.settle. by rewrite Hp. }
    rewrite Hs. unfold Vehicle.timeout. rewrite Hp, Hv. simpl.
    split; [done|]. split; [|done].
    rewrite elem_of_difference, elem_of_singleton. tauto.
  - destruct (vehicle_settle_cons s x (l ++ [type]) Hp) as [-> Hrest].
    destruct (IH _ Hrest Hv) as (H1 & H2 & H3 & H4 & H5).
    split; [done|]. split; [done|]. split; [done|].
    rewrite H4, H5. unfold Vehicle.timeout. rewrite Hp. simpl.
    by destruct (Vehicle.vehicles x).
Qed.

(** X13: However many selections were made in quick succession, once every
    scheduled callback has run the image is the one of the last
    selection, provided that one names a vehicle, and it is no longer
    faded. *)
Theorem vehicle_last_selection_shown (s : Vehicle.State)
    (type : option string) (be : option nat) (v : Vehicle.Entry) :
  Vehicle.vehicles type = Vehicle.Own v →
  let s' := Vehicle.settle (Vehicle.selectVehicle type be s) in
  Vehicle.src (Vehicle.img s') = Some (Vehicle.image v)
  ∧ ("fade" ∉ Vehicle.img_classes (Vehicle.img s'))
  ∧ Vehicle.pending s' = []
  ∧ Vehicle.currentIndex s' = Vehicle.indexOf type.
Proof.
  intros Hv s'.
  destruct (vehicle_settle_last (Vehicle.selectVehicle type be s)
              (Vehicle.pending s) type v eq_refl Hv)
    as (H1 & H2 & H3 & H4 & _).
  done.
Qed.

Lemma vehicle_last_selection_shown_witness :
  let s' := Vehicle.settle
              (Vehicle.selectVehicle (Some "van") (Some 3%nat)
                 (Vehicle.nextCar Vehicle.showroom0)) in
  Vehicle.src (Vehicle.img s') = Some "public/Assets/van.png"
  ∧ ("fade" ∉ Vehicle.img_classes (Vehicle.img s'))
  ∧ Vehicle.pending s' = []
  ∧ Vehicle.currentIndex s' = 3.
Proof.
  exact (vehicle_last_selection_shown (Vehicle.nextCar Vehicle.showroom0)
           (Some "van") (Some 3%nat) _ eq_refl).
Defined.

(** X14: A type button whose [data-vehicle] is missing or names no property
    of [vehicles], clicked when no callback is scheduled: [currentIndex]
    becomes [-1], and the callback throws before it writes, so the image
    keeps its source and stays faded. *)
Theorem vehicle_unknown_type (s : Vehicle.State) (j : nat)
    (b : Vehicle.Button) :
  Vehicle.buttons s !! j = Some b →
  Vehicle.vehicles (Vehicle.data_vehicle b) = Vehicle.Undefined →
  Vehicle.pending s = [] →
  let s' := Vehicle.step Vehicle.Timeout
              (Vehicle.step (Vehicle.Click_button j) s) in
  Vehicle.currentIndex s' = -1
  ∧ Vehicle.src (Vehicle.img s') = Vehicle.src (Vehicle.img s)
  ∧ ("fade" ∈ Vehicle.img_classes (Vehicle.img s'))
  ∧ Vehicle.uncaught s' = S (Vehicle.uncaught s)
  ∧ Vehicle.pending s' = [].
Proof.
  intros Hb Hv Hp s'. unfold s'. simpl. rewrite Hb.
  unfold Vehicle.timeout, Vehicle.selectVehicle. simpl.
  rewrite Hp. simpl. rewrite Hv. simpl.
  split; [|split; [done|]; split; [|done]].
  - destruct (vehicle_indexOf_cases (Vehicle.data_vehicle b))
      as [[_ E] | [[_ E] | [[_ E] | [[_ E] | [E _]]]]];
      try (rewrite E in Hv; discriminate Hv). exact E.
  - rewrite elem_of_union, elem_of_singleton. by left.
Qed.

Lemma vehicle_unknown_type_witness :
  let s0 := Vehicle.settle Vehicle.showroom0 in
  let s' := Vehicle.step Vehicle.Timeout
              (Vehicle.step (Vehicle.Click_button 4) s0) in
  Vehicle.currentIndex s' = -1
  ∧ Vehicle.src (Vehicle.img s') = Vehicle.src (Vehicle.img s0)
  ∧ ("fade" ∈ Vehicle.img_classes (Vehicle.img s'))
  ∧ Vehicle.uncaught s' = S (Vehicle.uncaught s0)
  ∧ Vehicle.pending s' = [].
Proof.
  exact (vehicle_unknown_type (Vehicle.settle Vehicle.showroom0) 4 _
           eq_refl eq_refl eq_refl).
Defined.

(** * Properties of throttle and debounce *)

Section ThrottleFacts.
Context {A : Type}.
Variable throws : A → bool.

Lemma throttle_completed_snoc (s : @Throttle.State A) (a : A) (b : bool) (n : nat) :
  Throttle.completed throws
    (Throttle.mkState b n (Throttle.calls s ++ [a]))
  = Throttle.completed throws s ++ (if throws a then [] else [a]).
Proof.
  unfold Throttle.completed; simpl. rewrite filter_app. f_equal.
  destruct (throws a) eqn:Ha.
  - by rewrite filter_cons_False by (rewrite Ha; discriminate).
  - by rewrite filter_cons_True by done.
Qed.

Lemma throttle_call_unfold (a : A) (s : @Throttle.State A) :
  Throttle.call throws a s =
  if Throttle.inThrottle s then s
  else if throws a
       then Throttle.mkState false (Throttle.timers s)
              (Throttle.calls s ++ [a])
       else Throttle.mkState true (S (Throttle.timers s))
              (Throttle.calls s ++ [a]).
Proof.
  unfold Throttle.call. simpl.
  by destruct (Throttle.inThrottle s), (throws a).
Qed.

Lemma throttle_ok_run (es : list (@Throttle.Event A)) (s : @Throttle.State A)
    (n : nat) :
  Forall Throttle.flat es →
  Throttle.ok throws n s →
  Throttle.ok throws (n + Throttle.timeouts es) (Throttle.run throws es s).
Proof.
  intros Hflat. revert s n.
  induction Hflat as [|e es He _ IH]; intros s n Hs.
  - unfold Throttle.timeouts. simpl. by rewrite Nat.add_0_r.
  - change (Throttle.run throws (e :: es) s)
      with (Throttle.run throws es (Throttle.step throws e s)).
    destruct Hs as [Ht Hc]. destruct e as [[a inner]|].
    + simpl in He. subst inner.
      replace (Throttle.timeouts (Throttle.Enter (Throttle.mkRun a []) :: es))
        with (Throttle.timeouts es)
        by (unfold Throttle.timeouts; by rewrite filter_cons_False).
      apply IH.
      change (Throttle.step throws (Throttle.Enter (Throttle.mkRun a [])) s)
        with (Throttle.call throws a s).
      rewrite throttle_call_unfold.
      destruct (Throttle.inThrottle s) eqn:Hin; [by split; rewrite ?Hin|].
      destruct (throws a) eqn:Ha; split; simpl; try lia.
      * rewrite throttle_completed_snoc, Ha, app_nil_r. lia.
      * rewrite throttle_completed_snoc, Ha, length_app. simpl. lia.
    + replace (n + Throttle.timeouts (Throttle.Timeout :: es))%nat
        with (S n + Throttle.timeouts es)%nat
        by (unfold Throttle.timeouts; rewrite filter_cons_True by done;
            simpl; lia).
      apply IH. simpl. unfold Throttle.timeout.
      destruct (Throttle.inThrottle s) eqn:Hin; rewrite Ht.
      * split; simpl; [done|]. unfold Throttle.completed in *; simpl. lia.
      * split; [by rewrite Hin|]. rewrite Hin. lia.
Qed.
End ThrottleFacts.

(** X15: As long as [fn] does not itself call the throttled closure, however
    the calls and the timeouts interleave, a reset is scheduled exactly
    while the closure is throttled (so it cannot stay throttled for
    ever), and the calls of [fn] that returned are at most one more
    than the timeouts that fired.  A [fn] that calls the closure breaks
    both: [inThrottle] is set only after [fn] has returned, so the
    inner call runs [fn] as well, and two resets are scheduled. *)
Theorem throttle_rate {A : Type} (throws : A → bool)
    (es : list (@Throttle.Event A)) :
  Forall Throttle.flat es →
  let s := Throttle.run throws es Throttle.fresh in
  Throttle.timers s = (if Throttle.inThrottle s then 1 else 0)%nat
  ∧ (length (Throttle.completed throws s) ≤ 1 + Throttle.timeouts es)%nat
  ∧ (∀ a b, throws a = false → throws b = false →
       let s2 := Throttle.enter throws
                   (Throttle.mkRun a [Throttle.mkRun b []])
                   Throttle.fresh in
       Throttle.calls s2 = [a; b] ∧ Throttle.timers s2 = 2%nat
       ∧ Throttle.completed throws s2 = [a; b]).
Proof.
  intros Hflat s.
  destruct (throttle_ok_run throws es Throttle.fresh 0 Hflat) as [Ht Hc].
  { split; simpl; [done | lia]. }
  split; [done|]. fold s in Hc. simpl in Hc.
  split; [destruct (Throttle.inThrottle s); lia|].
  intros a b Ha Hb. unfold Throttle.completed. simpl. rewrite Ha, Hb. simpl.
  split; [done|]. split; [done|].
  rewrite filter_cons_True by done. by rewrite filter_cons_True by done.
Qed.

Lemma throttle_rate_witness :
  let es := [Throttle.Call 1%nat; Throttle.Call 2%nat; Throttle.Timeout;
             Throttle.Call 3%nat; Throttle.Call 4%nat] in
  let s := Throttle.run (λ _ : nat, false) es Throttle.fresh in
  Throttle.calls s = [1; 3]%nat
  ∧ Throttle.timers s = 1%nat
  ∧ (length (Throttle.completed (λ _ : nat, false) s)
     ≤ 1 + Throttle.timeouts es)%nat.
Proof.
  intros es s.
  destruct (throttle_rate (λ _ : nat, false) es
              ltac:(repeat constructor)) as (Ht & Hc & _).
  split; [reflexivity|]. split; [exact Ht | exact Hc].
Defined.

Lemma throttle_burst_dropped {A : Type} (throws : A → bool) (l : list A)
    (s : @Throttle.State A) :
  Throttle.inThrottle s = true →
  Throttle.run throws (Throttle.Call <$> l) s = s.
Proof.
  intros Hs. induction l as [|a l IH]; [done|].
  rewrite fmap_cons.
  change (Throttle.run throws (Throttle.Call a :: (Throttle.Call <$> l)) s)
    with (Throttle.run throws (Throttle.Call <$> l)
            (Throttle.call throws a s)).
  by rewrite throttle_call_unfold, Hs.
Qed.

(** X16: Of a burst of calls only the first reaches [fn] (when it returns):
    the others are dropped, not postponed; the timeout that ends the
    burst calls nothing, and the next call after it reaches [fn]
    again. *)
Theorem throttle_leading_edge {A : Type} (throws : A → bool) (a b : A)
    (l : list A) :
  throws a = false →
  let burst := Throttle.run throws (Throttle.Call <$> (a :: l))
                 Throttle.fresh in
  Throttle.calls burst = [a]
  ∧ Throttle.calls (Throttle.timeout burst) = [a]
  ∧ Throttle.inThrottle (Throttle.timeout burst) = false
  ∧ Throttle.calls (Throttle.call throws b (Throttle.timeout burst))
    = [a; b].
Proof.
  intros Ha burst.
  assert (Hb : burst = Throttle.mkState true 1 [a]).
  { unfold burst. rewrite fmap_cons.
    change (Throttle.run throws (Throttle.Call a :: (Throttle.Call <$> l))
              Throttle.fresh)
      with (Throttle.run throws (Throttle.Call <$> l)
              (Throttle.call throws a Throttle.fresh)).
    rewrite throttle_call_unfold. simpl. rewrite Ha.
    by apply throttle_burst_dropped. }
  rewrite Hb. repeat split. rewrite throttle_call_unfold. simpl.
  by destruct (throws b).
Qed.

Lemma throttle_leading_edge_witness :
  let burst := Throttle.run (λ _ : nat, false)
                 (Throttle.Call <$> [10; 20; 30]%nat) Throttle.fresh in
  Throttle.calls burst = [10%nat]
  ∧ Throttle.calls (Throttle.timeout burst) = [10%nat]
  ∧ Throttle.inThrottle (Throttle.timeout burst) = false
  ∧ Throttle.calls
      (Throttle.call (λ _ : nat, false) 40%nat (Throttle.timeout burst))
    = [10; 40]%nat.
Proof.
  exact (throttle_leading_edge (λ _ : nat, false) 10%nat 40%nat
           [20; 30]%nat eq_refl).
Defined.

Section DebounceFacts.
Context {A : Type}.

Lemma debounce_call_timers (a : A) (s : @Debounce.State A) :
  Debounce.ok s →
  Debounce.timers (Debounce.call a s) = [(Debounce.next_handle s, a)].
Proof.
  unfold Debounce.call; simpl. intros [Ht | (h & b & Ht & Hh)]; rewrite Ht.
  - by destruct (Debounce.timeout s).
  - rewrite Hh. simpl. by rewrite filter_cons_False by (simpl; tauto).
Qed.

Lemma debounce_ok_step (e : @Debounce.Event A) (s : @Debounce.State A) :
  Debounce.ok s → Debounce.ok (Debounce.step e s).
Proof.
  intros Hs. destruct e as [a|h']; simpl.
  - right. exists (Debounce.next_handle s), a.
    split; [by apply debounce_call_timers | done].
  - unfold Debounce.fire.
    destruct Hs as [Ht | (h & b & Ht & Hh)]; rewrite Ht; simpl.
    + by left.
    + destruct (decide (h = h')) as [Heq|Hne]; simpl.
      * left. by rewrite filter_cons_False by (simpl; tauto).
      * right. eauto.
Qed.

Lemma debounce_ok_run (es : list (@Debounce.Event A)) (s : @Debounce.State A) :
  Debounce.ok s → Debounce.ok (Debounce.run es s).
Proof.
  revert s. induction es as [|e es IH]; intros s Hs; [done|].
  apply IH. by apply debounce_ok_step.
Qed.

Lemma debounce_run_calls (l : list A) (s : @Debounce.State A) :
  Debounce.calls (Debounce.run (Debounce.Call <$> l) s) = Debounce.calls s
  ∧ Debounce.next_handle (Debounce.run (Debounce.Call <$> l) s)
    = (Debounce.next_handle s + length l)%nat.
Proof.
  revert s. induction l as [|a l IH]; intros s; [simpl; split; [done|lia]|].
  rewrite fmap_cons.
  change (Debounce.run (Debounce.Call a :: (Debounce.Call <$> l)) s)
    with (Debounce.run (Debounce.Call <$> l) (Debounce.call a s)).
  destruct (IH (Debounce.call a s)) as [-> ->]. simpl. split; [done|lia].
Qed.
End DebounceFacts.

(** X17: However the calls and the timers interleave, a debounced closure
    has at most one timer scheduled: every call clears the one before
    it. *)
Theorem debounce_single_timer {A : Type} (es : list (@Debounce.Event A)) :
  let s := Debounce.run es Debounce.fresh in
  (length (Debounce.timers s) ≤ 1)%nat
  ∧ ∀ h args, (h, args) ∈ Debounce.timers s → Debounce.timeout s = Some h.
Proof.
  intros s.
  assert (Hs : Debounce.ok s) by (apply debounce_ok_run; by left).
  destruct Hs as [Ht | (h & b & Ht & Hh)]; rewrite Ht.
  - split; [simpl; lia|]. intros h args Hin. by apply elem_of_nil in Hin.
  - split; [simpl; lia|]. intros h' args Hin.
    apply list_elem_of_singleton in Hin. by injection Hin as -> ->.
Qed.

(** X18: After a burst of calls, whatever happened before, exactly one timer
    is scheduled and it carries the arguments of the last call; when it
    fires, [fn] is called once, with these arguments: the earlier
    arguments of the burst never reach [fn]. *)
Theorem debounce_trailing_edge {A : Type} (es : list (@Debounce.Event A))
    (l : list A) (a : A) :
  let s := Debounce.run es Debounce.fresh in
  let s' := Debounce.run (Debounce.Call <$> (l ++ [a])) s in
  let h := (Debounce.next_handle s + length l)%nat in
  Debounce.timers s' = [(h, a)]
  ∧ Debounce.calls s' = Debounce.calls s
  ∧ Debounce.calls (Debounce.fire h s') = Debounce.calls s ++ [a]
  ∧ Debounce.timers (Debounce.fire h s') = [].
Proof.
  intros s s' h.
  assert (Hs : Debounce.ok s) by (apply debounce_ok_run; by left).
  assert (Hs' : s' = Debounce.call a (Debounce.run (Debounce.Call <$> l) s)).
  { unfold s', Debounce.run. by rewrite fmap_app, foldl_app. }
  destruct (debounce_run_calls l s) as [Hc Hn].
  assert (Ht : Debounce.timers s' = [(h, a)]).
  { rewrite Hs', debounce_call_timers by by apply debounce_ok_run.
    by rewrite Hn. }
  assert (Hc' : Debounce.calls s' = Debounce.calls s) by by rewrite Hs'.
  split; [done|]. split; [done|].
  unfold Debounce.fire. rewrite Ht. simpl.
  destruct (decide (h = h)) as [_|Hne]; [|done]. simpl. rewrite Hc'.
  split; [done|]. by rewrite filter_cons_False by (simpl; tauto).
Qed.

(** * Properties of the navigation bar *)

Lemma gset_add_remove (x : string) (s : gset string) :
  x ∉ s → ({[ x ]} ∪ s) ∖ {[ x ]} = s.
Proof.
  intros Hx. apply set_eq. intros y.
  rewrite elem_of_difference, elem_of_union, elem_of_singleton.
  split; [tauto|]. intros Hy. split; [tauto|]. by intros ->.
Qed.

Lemma gset_remove_add (x : string) (s : gset string) :
  x ∈ s → {[ x ]} ∪ (s ∖ {[ x ]}) = s.
Proof.
  intros Hx. apply set_eq. intros y.
  rewrite elem_of_union, elem_of_difference, elem_of_singleton.
  destruct (decide (y = x)) as [->|]; tauto.
Qed.

Lemma gset_not_in_remove (x : string) (s : gset string) : x ∉ s ∖ {[ x ]}.
Proof. rewrite elem_of_difference, elem_of_singleton. tauto. Qed.

Lemma gset_in_add (x : string) (s : gset string) : x ∈ {[ x ]} ∪ s.
Proof. rewrite elem_of_union, elem_of_singleton. tauto. Qed.

Lemma nav_toggle_done (m : Nav.Menu) cl t :
  Nav.mobileMenu m = Some cl → Nav.toggle m = Some t →
  ∃ m', Nav.toggleMobileMenu m = Nav.Done m'
        ∧ Nav.nav m' = Nav.nav m
        ∧ (Nav.is_open m' ↔ ¬ Nav.is_open m)
        ∧ Nav.consistent m'
        ∧ is_Some (Nav.mobileMenu m') ∧ is_Some (Nav.toggle m').
Proof.
  intros Hc Ht. unfold Nav.toggleMobileMenu, Nav.is_open, Nav.consistent.
  rewrite Hc, Ht. eexists. split; [done|]. simpl. split; [done|].
  case_bool_decide as Hin; simpl.
  - pose proof (gset_not_in_remove "is-open" cl).
    pose proof (gset_not_in_remove "is-open" (Nav.toggle_classes t)).
    rewrite !bool_decide_eq_false_2 by done. naive_solver.
  - pose proof (gset_in_add "is-open" cl).
    pose proof (gset_in_add "is-open" (Nav.toggle_classes t)).
    rewrite !bool_decide_eq_true_2 by done. naive_solver.
Qed.

(** X19: [toggleMobileMenu] flips the menu and leaves its four indicators in
    agreement; two calls in a row give back the class list of the menu,
    and the whole state when the indicators agreed before. *)
Theorem nav_toggle_flips (m : Nav.Menu) :
  is_Some (Nav.mobileMenu m) → is_Some (Nav.toggle m) →
  let m1 := Nav.state_of (Nav.toggleMobileMenu m) in
  let m2 := Nav.state_of (Nav.toggleMobileMenu m1) in
  (Nav.is_open m1 ↔ ¬ Nav.is_open m)
  ∧ Nav.consistent m1
  ∧ Nav.mobileMenu m2 = Nav.mobileMenu m
  ∧ (Nav.consistent m → m2 = m).
Proof.
  intros [cl Hc] [t Ht] m1 m2.
  destruct (nav_toggle_done m cl t Hc Ht) as (m' & Hm' & _ & Hflip & Hcons & _).
  assert (H1 : m1 = m') by (unfold m1; by rewrite Hm').
  rewrite H1. split; [done|]. split; [done|].
  unfold m2. rewrite H1. clear H1 m1 m2 Hflip Hcons.
  unfold Nav.toggleMobileMenu in Hm'. rewrite Hc, Ht in Hm'.
  injection Hm' as <-. unfold Nav.toggleMobileMenu.
  destruct m as [n mm tg ov]. simpl in Hc, Ht. subst mm tg.
  cbn [Nav.mobileMenu Nav.toggle Nav.nav Nav.overflow].
  destruct (decide ("is-open" ∈ cl)) as [Hin|Hin].
  - rewrite (bool_decide_eq_true_2 _ Hin). cbn [negb].
    rewrite (bool_decide_eq_false_2 _ (gset_not_in_remove "is-open" cl)).
    cbn [negb Nav.state_of Nav.mobileMenu Nav.toggle_classes].
    rewrite gset_remove_add by done. split; [done|].
    unfold Nav.consistent; simpl. rewrite (bool_decide_eq_true_2 _ Hin).
    intros (Htc & Ha & Ho). apply bool_decide_eq_true in Htc.
    rewrite gset_remove_add by done. destruct t; simpl in *. by subst.
  - rewrite (bool_decide_eq_false_2 _ Hin). cbn [negb].
    rewrite (bool_decide_eq_true_2 _ (gset_in_add "is-open" cl)).
    cbn [negb Nav.state_of Nav.mobileMenu Nav.toggle_classes].
    rewrite gset_add_remove by done. split; [done|].
    unfold Nav.consistent; simpl. rewrite (bool_decide_eq_false_2 _ Hin).
    intros (Htc & Ha & Ho). apply bool_decide_eq_false in Htc.
    rewrite gset_add_remove by done. destruct t; simpl in *. by subst.
Qed.

Lemma nav_toggle_flips_witness :
  let m1 := Nav.state_of (Nav.toggleMobileMenu Nav.closed_menu) in
  let m2 := Nav.state_of (Nav.toggleMobileMenu m1) in
  (Nav.is_open m1 ↔ ¬ Nav.is_open Nav.closed_menu)
  ∧ Nav.consistent m1
  ∧ Nav.mobileMenu m2 = Nav.mobileMenu Nav.closed_menu
  ∧ (Nav.consistent Nav.closed_menu → m2 = Nav.closed_menu).
Proof.
  apply (nav_toggle_flips Nav.closed_menu); eexists; reflexivity.
Defined.

Lemma nav_close_consistent (m : Nav.Menu) :
  is_Some (Nav.mobileMenu m) → is_Some (Nav.toggle m) →
  Nav.consistent (Nav.closeMobileMenu m).
Proof.
  intros [cl Hc] [t Ht]. unfold Nav.consistent, Nav.closeMobileMenu.
  rewrite Hc, Ht. simpl.
  by rewrite !bool_decide_eq_false_2 by apply gset_not_in_remove.
Qed.

(** X20: [closeMobileMenu] leads to the closed state from anywhere: the menu
    is not open, the page scrolls again, a second call changes nothing
    and a [toggleMobileMenu] before it makes no difference.  On a page
    with a [.nav] element Escape runs it, whether or not the toggle and
    the menu exist; a click on a menu link or on the menu itself runs
    it when both exist, and does nothing otherwise; a click on anything
    else inside the menu does nothing.  On a page without [.nav],
    [init] returns before it registers a listener, and no event, Escape
    included, changes anything. *)
Theorem nav_close_absorbs (m : Nav.Menu) :
  let c := Nav.closeMobileMenu m in
  ¬ Nav.is_open c
  ∧ Nav.overflow c = ""
  ∧ Nav.closeMobileMenu c = c
  ∧ Nav.closeMobileMenu (Nav.state_of (Nav.toggleMobileMenu m)) = c
  ∧ (Nav.nav m = true →
     Nav.step (Nav.Keydown "Escape") m = c
     ∧ Nav.step Nav.Click_in_menu m = m
     ∧ (is_Some (Nav.mobileMenu m) → is_Some (Nav.toggle m) →
        Nav.step Nav.Click_mobile_link m = c
        ∧ Nav.step Nav.Click_backdrop m = c
        ∧ Nav.consistent c)
     ∧ (Nav.mobileMenu m = None ∨ Nav.toggle m = None →
        Nav.step Nav.Click_mobile_link m = m
        ∧ Nav.step Nav.Click_backdrop m = m
        ∧ Nav.step Nav.Click_toggle m = m))
  ∧ (Nav.nav m = false → ∀ e, Nav.step e m = m).
Proof.
  intros c. unfold c.
  assert (Hrr : ∀ s : gset string,
            s ∖ {[ "is-open" ]} ∖ {[ "is-open" ]} = s ∖ {[ "is-open" ]}).
  { intros s. apply set_eq. intros y.
    rewrite !elem_of_difference, elem_of_singleton. tauto. }
  assert (Har : ∀ s : gset string,
            ({[ "is-open" ]} ∪ s) ∖ {[ "is-open" ]} = s ∖ {[ "is-open" ]}).
  { intros s. apply set_eq. intros y.
    rewrite !elem_of_difference, elem_of_union, elem_of_singleton. tauto. }
  destruct m as [n mm tg ov]. unfold Nav.closeMobileMenu, Nav.is_open; simpl.
  split; [|split; [done|split; [|split; [|split]]]].
  - destruct mm as [cl|]; simpl; [apply gset_not_in_remove | tauto].
  - f_equal.
    + destruct mm; simpl; [|done]. by rewrite Hrr.
    + destruct tg; simpl; [|done]. by rewrite Hrr.
  - unfold Nav.toggleMobileMenu; simpl.
    destruct mm as [cl|]; simpl; [|done].
    destruct tg as [t|]; simpl.
    + case_bool_decide; simpl; by rewrite ?Hrr, ?Har.
    + case_bool_decide; simpl; by rewrite ?Hrr, ?Har.
  - intros ->. unfold Nav.step; simpl. split; [done|]. split; [done|].
    split.
    + intros [cl ->] [t ->]. simpl. split; [done|]. split; [done|].
      unfold Nav.consistent; simpl.
      by rewrite !bool_decide_eq_false_2 by apply gset_not_in_remove.
    + intros [-> | ->]; [by destruct tg | by destruct mm].
  - intros -> e. unfold Nav.step; simpl. done.
Qed.

Lemma nav_close_absorbs_witness :
  let m := Nav.state_of (Nav.toggleMobileMenu Nav.closed_menu) in
  Nav.is_open m
  ∧ ¬ Nav.is_open (Nav.step (Nav.Keydown "Escape") m)
  ∧ Nav.step Nav.Click_backdrop m = Nav.step (Nav.Keydown "Escape") m
  ∧ Nav.step Nav.Click_in_menu m = m.
Proof.
  intros m.
  destruct (nav_close_absorbs m) as (Hclosed & _ & _ & _ & Hev & _).
  destruct (Hev eq_refl) as (Hesc & Hin & Hboth & _).
  destruct (Hboth ltac:(eexists; reflexivity) ltac:(eexists; reflexivity))
    as (_ & Hback & _).
  split; [apply (bool_decide_unpack (Nav.is_open m)); vm_compute; exact I|].
  split; [by rewrite Hesc|]. split; [by rewrite Hback, Hesc | exact Hin].
Defined.

(** X21: Once the toggle and the menu exist, no event can make the four
    indicators disagree, and every event that opens or closes the menu
    makes them agree, whatever the markup said before. *)
Theorem nav_menu_consistent (m : Nav.Menu) (e : Nav.Event) :
  Nav.nav m = true →
  is_Some (Nav.mobileMenu m) → is_Some (Nav.toggle m) →
  (Nav.consistent m → Nav.consistent (Nav.step e m))
  ∧ (e ≠ Nav.Click_in_menu →
     (∀ key, e = Nav.Keydown key → key = "Escape") →
     Nav.consistent (Nav.step e m)).
Proof.
  intros Hn [cl Hc] [t Ht].
  assert (Hclose : Nav.consistent (Nav.closeMobileMenu m)).
  { apply nav_close_consistent; by eexists. }
  assert (Htog : Nav.consistent (Nav.state_of (Nav.toggleMobileMenu m))).
  { destruct (nav_toggle_done m cl t Hc Ht) as (m' & -> & _ & _ & H & _).
    done. }
  unfold Nav.step. rewrite Hn, Hc, Ht.
  split.
  - intros Hm. destruct e; try done.
    by destruct (String.eqb key "Escape").
  - intros H1 H2. destruct e; try done.
    rewrite (H2 key eq_refl). done.
Qed.

Lemma nav_menu_consistent_witness :
  Nav.consistent (Nav.step Nav.Click_toggle Nav.closed_menu)
  ∧ Nav.consistent
      (Nav.step (Nav.Keydown "Tab")
         (Nav.step Nav.Click_toggle Nav.closed_menu)).
Proof.
  destruct (nav_menu_consistent Nav.closed_menu Nav.Click_toggle eq_refl
              ltac:(eexists; reflexivity) ltac:(eexists; reflexivity))
    as [_ Hmake].
  destruct (nav_menu_consistent (Nav.step Nav.Click_toggle Nav.closed_menu)
              (Nav.Keydown "Tab") eq_refl
              ltac:(eexists; reflexivity) ltac:(eexists; reflexivity))
    as [Hkeep _].
  assert (H1 : Nav.consistent (Nav.step Nav.Click_toggle Nav.closed_menu)).
  { apply Hmake; [discriminate | intros key; discriminate]. }
  split; [exact H1 | exact (Hkeep H1)].
Defined.

(** ** The active link *)

Lemma nav_last_segment_plain (f : string) :
  Nav.has_slash f = false → Nav.last_segment f = f.
Proof.
  intros Hf. destruct f as [|ch r]; [done|].
  unfold Nav.last_segment. fold Nav.last_segment. by rewrite Hf.
Qed.

Lemma nav_has_slash_app (d r : string) :
  Nav.has_slash (d +:+ String "/" r) = true.
Proof.
  induction d as [|ch d IH]; simpl; [done|].
  by destruct (Ascii.eqb ch "/").
Qed.

Lemma nav_last_segment_app (d f : string) :
  Nav.has_slash f = false → Nav.last_segment (d +:+ String "/" f) = f.
Proof.
  intros Hf. induction d as [|ch d IH].
  - simpl. destruct f as [|c r]; [done|].
    simpl in *. by rewrite Hf.
  - change (String ch d +:+ String "/" f)
      with (String ch (d +:+ String "/" f)).
    unfold Nav.last_segment; fold Nav.last_segment.
    replace (Nav.has_slash (String ch (d +:+ String "/" f))) with true.
    + exact IH.
    + simpl. rewrite nav_has_slash_app. by destruct (Ascii.eqb ch "/").
Qed.

Lemma nav_currentPath_nonempty (pathname : string) :
  Nav.currentPath pathname ≠ "".
Proof.
  unfold Nav.currentPath.
  destruct (String.eqb_spec (Nav.last_segment pathname) ""); done.
Qed.

(** X22: A link is marked exactly when the part of its [href] after the last
    slash is the file name of the page ([index.html] for a path that
    ends in a slash); directories play no role, a link whose [href] is
    absent or ends in a slash is never marked, and no link is ever
    unmarked. *)
Theorem nav_active_link (pathname : string) (links : list Nav.Link)
    (i : nat) (l : Nav.Link) :
  links !! i = Some l →
  ∃ l', Nav.setActiveLink pathname links !! i = Some l'
    ∧ Nav.href l' = Nav.href l
    ∧ Nav.link_classes l ⊆ Nav.link_classes l'
    ∧ ((∃ h, Nav.href l = Some h
             ∧ Nav.last_segment h = Nav.currentPath pathname)
       → "is-active" ∈ Nav.link_classes l'
         ∧ Nav.aria_current l' = Some "page")
    ∧ (¬ (∃ h, Nav.href l = Some h
               ∧ Nav.last_segment h = Nav.currentPath pathname)
       → l' = l)
    ∧ (∀ d d' f, f ≠ "" → Nav.has_slash f = false →
         Nav.href l = Some (d +:+ String "/" f) →
         pathname = d' +:+ String "/" f →
         "is-active" ∈ Nav.link_classes l')
    ∧ (∀ h, Nav.href l = Some h → Nav.last_segment h = "" → l' = l).
Proof.
  intros Hl. unfold Nav.setActiveLink. rewrite list_lookup_fmap, Hl. simpl.
  eexists. split; [done|].
  assert (Hm : Nav.matches (Nav.currentPath pathname) l = true
               ↔ ∃ h, Nav.href l = Some h
                      ∧ Nav.last_segment h = Nav.currentPath pathname).
  { unfold Nav.matches. destruct (Nav.href l) as [h|]; simpl.
    - assert (String.eqb (Nav.currentPath pathname) "" = false) as ->
        by (apply String.eqb_neq, nav_currentPath_nonempty).
      rewrite orb_false_r, String.eqb_eq.
      split; [eauto | by intros (h0 & [= <-] & ?)].
    - split; [done | by intros (? & ? & _)]. }
  destruct (Nav.matches (Nav.currentPath pathname) l).
  - destruct (proj1 Hm eq_refl) as (h' & Hh' & He').
    simpl. split; [done|]. split; [apply union_subseteq_r|].
    split; [intros _; split; [apply gset_in_add | done]|].
    split; [intros Hn; exfalso; apply Hn; eauto|].
    split; [intros; apply gset_in_add|].
    intros h Hh He. exfalso.
    rewrite Hh in Hh'. injection Hh' as <-.
    rewrite He in He'. by apply (nav_currentPath_nonempty pathname).
  - split; [done|]. split; [done|].
    assert (Hno : ¬ ∃ h, Nav.href l = Some h
                   ∧ Nav.last_segment h = Nav.currentPath pathname).
    { intros H. apply Hm in H. discriminate. }
    split; [intros H; by destruct Hno|]. split; [done|].
    split; [|done].
    intros d d' f Hf Hs Hh ->. exfalso. apply Hno. exists (d +:+ String "/" f).
    split; [done|]. unfold Nav.currentPath.
    rewrite !nav_last_segment_app by done.
    by apply String.eqb_neq in Hf as ->.
Qed.

Lemma nav_active_link_witness :
  let links := [Nav.mkLink (Some "/") ∅ None;
                Nav.mkLink (Some "../pages/services.html") ∅ None;
                Nav.mkLink (Some "index.html") ∅ None] in
  Nav.aria_current <$>
    Nav.setActiveLink "/site/services.html" links
  = [None; Some "page"; None]
  ∧ Nav.aria_current <$> Nav.setActiveLink "/site/" links
    = [None; None; Some "page"]
  ∧ ∃ l', Nav.setActiveLink "/site/services.html" links !! 1%nat = Some l'
          ∧ "is-active" ∈ Nav.link_classes l'.
Proof.
  intros links. split; [reflexivity|]. split; [reflexivity|].
  destruct (nav_active_link "/site/services.html" links 1 _ eq_refl)
    as (l' & Hl' & _ & _ & _ & _ & Hdir & _).
  exists l'. split; [exact Hl'|].
  apply (Hdir "../pages" "/site" "services.html");
    [discriminate | reflexivity | reflexivity | reflexivity].
Defined.

(** * Properties of the accordion, the tabs and the service filter *)

Lemma accordion_flip_open (j : nat) (it : Accordion.Item) :
  Accordion.is_open (Accordion.flip_item j it) ↔ ¬ Accordion.is_open it.
Proof.
  unfold Accordion.flip_item, Accordion.is_open at 1. simpl.
  case_bool_decide as Ho; simpl.
  - split; [intros H; by apply gset_not_in_remove in H | done].
  - split; [done | intros _; apply gset_in_add].
Qed.

Lemma accordion_sibling_closed (it : Accordion.Item) :
  ¬ Accordion.is_open (Accordion.close_sibling it).
Proof. apply gset_not_in_remove. Qed.

(** X23: After a click on a trigger only its own item can be open, and it is
    open exactly if it was closed before; the clicked trigger announces
    the new state and the first trigger of every other item says
    [false]. *)
Theorem accordion_single_open (items items' : list Accordion.Item)
    (i j : nat) :
  Accordion.toggle items i j = Some items' →
  length items' = length items
  ∧ (∀ k it', items' !! k = Some it' → Accordion.is_open it' → k = i)
  ∧ (∃ it it', items !! i = Some it ∧ items' !! i = Some it'
       ∧ (Accordion.is_open it' ↔ ¬ Accordion.is_open it)
       ∧ Accordion.triggers it' !! j
         = Some (Accordion.mkTrigger
                   (Some (JS.boolToString
                            (bool_decide (Accordion.is_open it')))))
       ∧ ∀ j', j' ≠ j →
           Accordion.triggers it' !! j' = Accordion.triggers it !! j')
  ∧ (∀ k it' t, k ≠ i → items' !! k = Some it' →
       head (Accordion.triggers it') = Some t →
       t = Accordion.mkTrigger (Some "false")).
Proof.
  unfold Accordion.toggle.
  destruct (items !! i) as [it|] eqn:Hi; [|done].
  destruct (Accordion.triggers it !! j) as [t|] eqn:Hj; [|done].
  intros [= <-]. split; [apply length_imap|]. split; [|split].
  - intros k it' Hk Hopen. rewrite list_lookup_imap in Hk.
    destruct (items !! k) as [sib|]; [|done]. simpl in Hk.
    case_bool_decide; [done|]. injection Hk as <-.
    by apply accordion_sibling_closed in Hopen.
  - exists it, (Accordion.flip_item j it).
    split; [done|]. rewrite list_lookup_imap, Hi. simpl.
    rewrite bool_decide_eq_true_2 by done. split; [done|].
    split; [apply accordion_flip_open|]. split.
    + assert (Hb : bool_decide (Accordion.is_open (Accordion.flip_item j it))
                   = negb (bool_decide (Accordion.is_open it))).
      { pose proof (accordion_flip_open j it) as Hf.
        destruct (decide (Accordion.is_open it)) as [Ho|Ho].
        - rewrite (bool_decide_eq_true_2 _ Ho). apply bool_decide_eq_false_2.
          tauto.
        - rewrite (bool_decide_eq_false_2 _ Ho). apply bool_decide_eq_true_2.
          tauto. }
      rewrite Hb. unfold Accordion.flip_item. simpl.
      by rewrite list_lookup_alter_eq, Hj.
    + intros j' Hne. unfold Accordion.flip_item. simpl.
      by rewrite list_lookup_alter_ne.
  - intros k it' t' Hne Hk. rewrite list_lookup_imap in Hk.
    destruct (items !! k) as [sib|]; [|done]. simpl in Hk.
    rewrite bool_decide_eq_false_2 in Hk by done. injection Hk as <-.
    unfold Accordion.close_sibling. simpl.
    destruct (Accordion.triggers sib); [done|]. by intros [= <-].
Qed.

Lemma accordion_single_open_witness :
  ∃ items', Accordion.toggle Accordion.faq 0 0 = Some items'
    ∧ (λ it, bool_decide (Accordion.is_open it)) <$> items'
      = [true; false; false]
    ∧ ∀ k it', items' !! k = Some it' → Accordion.is_open it' → k = 0%nat.
Proof.
  eexists. split; [reflexivity|]. split; [vm_compute; reflexivity|].
  refine (proj1 (proj2 (accordion_single_open Accordion.faq _ 0 0 eq_refl))).
Defined.

Lemma accordion_close_sibling_twice (it : Accordion.Item) :
  Accordion.close_sibling (Accordion.close_sibling it)
  = Accordion.close_sibling it.
Proof.
  unfold Accordion.close_sibling. simpl. f_equal.
  - apply set_eq. intros y.
    rewrite !elem_of_difference, elem_of_singleton. tauto.
  - by destruct (Accordion.triggers it).
Qed.

Lemma accordion_flip_twice (j : nat) (it : Accordion.Item) :
  Accordion.flip_item j
    (Accordion.flip_item j (Accordion.flip_item j it))
  = Accordion.flip_item j it.
Proof.
  destruct it as [cl ts]. unfold Accordion.flip_item, Accordion.is_open.
  simpl. destruct (decide ("is-open" ∈ cl)) as [Ho|Ho].
  - rewrite (bool_decide_eq_true_2 _ Ho). simpl.
    rewrite (bool_decide_eq_false_2 _ (gset_not_in_remove "is-open" cl)).
    simpl.
    rewrite (bool_decide_eq_true_2 _
               (gset_in_add "is-open" (cl ∖ {[ "is-open" ]}))). simpl.
    f_equal.
    + apply set_eq. intros y.
      rewrite !elem_of_difference, elem_of_union, !elem_of_difference,
        elem_of_singleton. tauto.
    + rewrite !list_alter_alter_eq. by apply list_alter_ext.
  - rewrite (bool_decide_eq_false_2 _ Ho). simpl.
    rewrite (bool_decide_eq_true_2 _ (gset_in_add "is-open" cl)). simpl.
    rewrite (bool_decide_eq_false_2 _
               (gset_not_in_remove "is-open" ({[ "is-open" ]} ∪ cl))). simpl.
    f_equal.
    + apply set_eq. intros y.
      rewrite !elem_of_union, !elem_of_difference, elem_of_union,
        elem_of_singleton.
      destruct (decide (y = "is-open")); tauto.
    + rewrite !list_alter_alter_eq. by apply list_alter_ext.
Qed.

(** X24: Clicking the same trigger again closes its item and a third click
    reopens it: from the state one click leaves, two more clicks come
    back to exactly that state. *)
Theorem accordion_click_round_trip (items items1 : list Accordion.Item)
    (i j : nat) :
  Accordion.toggle items i j = Some items1 →
  ∃ items2, Accordion.toggle items1 i j = Some items2
    ∧ Accordion.toggle items2 i j = Some items1
    ∧ ((∀ k it, items2 !! k = Some it → ¬ Accordion.is_open it)
       ∨ (∀ k it, items1 !! k = Some it → ¬ Accordion.is_open it)).
Proof.
  intros H1.
  assert (Hshape : ∀ l, (∃ it t, l !! i = Some it
                                 ∧ Accordion.triggers it !! j = Some t) →
            Accordion.toggle l i j
            = Some (imap (λ k sib, if bool_decide (k = i)
                                   then Accordion.flip_item j sib
                                   else Accordion.close_sibling sib) l)).
  { intros l (it & t & Hi & Hj). unfold Accordion.toggle. by rewrite Hi, Hj. }
  assert (Hkeep : ∀ l, (∃ it t, l !! i = Some it
                                ∧ Accordion.triggers it !! j = Some t) →
            ∃ it t,
              imap (λ k sib, if bool_decide (k = i)
                             then Accordion.flip_item j sib
                             else Accordion.close_sibling sib) l !! i
              = Some it ∧ Accordion.triggers it !! j = Some t).
  { intros l (it & t & Hi & Hj).
    exists (Accordion.flip_item j it). eexists.
    rewrite list_lookup_imap, Hi. simpl.
    rewrite bool_decide_eq_true_2 by done. split; [done|].
    unfold Accordion.flip_item. simpl. by rewrite list_lookup_alter_eq, Hj. }
  assert (H0 : ∃ it t, items !! i = Some it
                       ∧ Accordion.triggers it !! j = Some t).
  { unfold Accordion.toggle in H1.
    destruct (items !! i) as [it|] eqn:Hi; [|done].
    destruct (Accordion.triggers it !! j) as [t|] eqn:Hj; [|done]. eauto. }
  rewrite (Hshape _ H0) in H1. injection H1 as <-.
  pose proof (Hkeep _ H0) as Hk1. pose proof (Hkeep _ Hk1) as Hk2.
  eexists. split; [apply (Hshape _ Hk1)|]. split.
  - rewrite (Hshape _ Hk2). f_equal.
    apply list_eq. intros k. rewrite !list_lookup_imap.
    destruct (items !! k) as [it|]; [|done]. simpl. f_equal.
    case_bool_decide.
    + apply accordion_flip_twice.
    + by rewrite !accordion_close_sibling_twice.
  - destruct H0 as (it & t & Hi & Hj).
    destruct (decide (Accordion.is_open it)) as [Ho|Ho].
    + right. intros k it' Hk. rewrite list_lookup_imap in Hk.
      destruct (items !! k) as [sib|] eqn:Hsib; [|done]. simpl in Hk.
      injection Hk as <-. case_bool_decide as Hki.
      * subst k. rewrite Hi in Hsib. injection Hsib as <-.
        rewrite accordion_flip_open. tauto.
      * apply accordion_sibling_closed.
    + left. intros k it' Hk. rewrite !list_lookup_imap in Hk.
      destruct (items !! k) as [sib|] eqn:Hsib; [|done]. simpl in Hk.
      injection Hk as <-. case_bool_decide as Hki.
      * subst k. rewrite Hi in Hsib. injection Hsib as <-.
        rewrite !accordion_flip_open. tauto.
      * apply accordion_sibling_closed.
Qed.

Lemma accordion_click_round_trip_witness :
  ∃ items1 items2,
    Accordion.toggle Accordion.faq 1 0 = Some items1
    ∧ Accordion.toggle items1 1 0 = Some items2
    ∧ Accordion.toggle items2 1 0 = Some items1.
Proof.
  destruct (accordion_click_round_trip Accordion.faq _ 1 0 eq_refl)
    as (items2 & H2 & H3 & _).
  eexists. exists items2. split; [reflexivity|]. split; [exact H2 | exact H3].
Defined.

Lemma tabs_set_class_in (token : string) (b : bool) (cl : gset string) :
  token ∈ Tabs.set_class token b cl ↔ b = true.
Proof.
  unfold Tabs.set_class. destruct b.
  - split; [done | intros _; apply gset_in_add].
  - split; [intros H; by apply gset_not_in_remove in H | done].
Qed.

Lemma tabs_set_class_twice (token : string) (b1 b2 : bool) (cl : gset string) :
  Tabs.set_class token b2 (Tabs.set_class token b1 cl)
  = Tabs.set_class token b2 cl.
Proof.
  unfold Tabs.set_class. destruct b1, b2; apply set_eq; intros y;
    rewrite ?elem_of_union, ?elem_of_difference, ?elem_of_union,
      ?elem_of_singleton;
    destruct (decide (y = token)); tauto.
Qed.

(** X25: A click on a tab leaves that tab, and no other, active and
    selected; it shows exactly the panels named like the tab (all of
    them when several share the name, none when none does) and hides
    the others.  What was clicked before makes no difference. *)
Theorem tabs_click_selects (g : Tabs.Group) (k : nat) (trigger : Tabs.Trigger) :
  Tabs.triggers g !! k = Some trigger →
  let g' := Tabs.click k g in
  (∀ i t', Tabs.triggers g' !! i = Some t' →
     ("is-active" ∈ Tabs.trigger_classes t' ↔ i = k)
     ∧ Tabs.aria_selected t'
       = Some (JS.boolToString (bool_decide (i = k))))
  ∧ (∀ i p p', Tabs.panels g !! i = Some p → Tabs.panels g' !! i = Some p' →
       (Tabs.shown p' ↔ Tabs.data_tab_panel p = Tabs.data_tab trigger)
       ∧ (Tabs.hidden p' = true
          ↔ Tabs.data_tab_panel p ≠ Tabs.data_tab trigger)
       ∧ ("is-active" ∈ Tabs.panel_classes p' ↔ Tabs.hidden p' = false))
  ∧ length (Tabs.panels g') = length (Tabs.panels g)
  ∧ ∀ j, (j < length (Tabs.triggers g))%nat →
      Tabs.click k (Tabs.click j g) = g'.
Proof.
  intros Hk g'. unfold g', Tabs.click. rewrite Hk.
  split; [|split; [|split]].
  - intros i t' Hi. simpl in Hi. rewrite list_lookup_imap in Hi.
    destruct (Tabs.triggers g !! i) as [t|]; [|done].
    injection Hi as <-. simpl. rewrite tabs_set_class_in.
    split; [|done]. by rewrite bool_decide_eq_true.
  - intros i p p' Hp Hp'. simpl in Hp'. rewrite list_lookup_fmap, Hp in Hp'.
    injection Hp' as <-. unfold Tabs.shown. simpl.
    rewrite tabs_set_class_in.
    destruct (String.eqb_spec (Tabs.data_tab_panel p) (Tabs.data_tab trigger));
      simpl; intuition congruence.
  - simpl. apply length_fmap.
  - intros j Hj.
    destruct (lookup_lt_is_Some_2 (Tabs.triggers g) j Hj) as [tj Htj].
    rewrite Htj. simpl. rewrite list_lookup_imap, Hk. simpl. f_equal.
    + apply list_eq. intros i. rewrite !list_lookup_imap.
      destruct (Tabs.triggers g !! i) as [t|]; [|done]. simpl.
      by rewrite tabs_set_class_twice.
    + rewrite <- list_fmap_compose. apply list_fmap_ext.
      intros i p _. simpl. by rewrite tabs_set_class_twice.
Qed.

Lemma tabs_click_selects_witness :
  let g' := Tabs.click 1 Tabs.sample in
  (λ t, bool_decide ("is-active" ∈ Tabs.trigger_classes t))
    <$> Tabs.triggers g' = [false; true; false]
  ∧ Tabs.hidden <$> Tabs.panels g' = [true; false; false]
  ∧ Tabs.click 1 (Tabs.click 2 Tabs.sample) = g'
  ∧ Tabs.hidden <$> Tabs.panels (Tabs.click 2 Tabs.sample)
    = [true; true; true].
Proof.
  intros g'.
  destruct (tabs_click_selects Tabs.sample 1 _ eq_refl)
    as (_ & _ & _ & Hlast).
  split; [vm_compute; reflexivity|]. split; [reflexivity|].
  split; [|reflexivity]. apply Hlast. vm_compute. lia.
Defined.

(** X26: A click on a filter button leaves that button, and no other,
    active; with the filter [all] every card is shown, with any other
    filter exactly the cards of that category, and the rest are hidden.
    What was clicked before makes no difference. *)
Theorem filter_click_shows (p : ServiceFilter.Page) (k : nat)
    (btn : ServiceFilter.Btn) :
  ServiceFilter.filterGroup p = true →
  ServiceFilter.btns p !! k = Some btn →
  let p' := ServiceFilter.click k p in
  (∀ i b', ServiceFilter.btns p' !! i = Some b' →
     "is-active" ∈ ServiceFilter.btn_classes b' ↔ i = k)
  ∧ (∀ i c c', ServiceFilter.cards p !! i = Some c →
       ServiceFilter.cards p' !! i = Some c' →
       (ServiceFilter.visible c' ↔
        ServiceFilter.data_filter btn = "all"
        ∨ ServiceFilter.data_category c = ServiceFilter.data_filter btn)
       ∧ (¬ ServiceFilter.visible c' →
          ServiceFilter.display c' = "none"
          ∧ ServiceFilter.opacity c' = "0"))
  ∧ ∀ j, (j < length (ServiceFilter.btns p))%nat →
      ServiceFilter.click k (ServiceFilter.click j p) = p'.
Proof.
  intros Hg Hk p'. unfold p', ServiceFilter.click. rewrite Hg, Hk.
  assert (Hrr : ∀ s : gset string,
            s ∖ {[ "is-active" ]} ∖ {[ "is-active" ]}
            = s ∖ {[ "is-active" ]}).
  { intros s. apply set_eq. intros y.
    rewrite !elem_of_difference, elem_of_singleton. tauto. }
  assert (Har : ∀ s : gset string,
            ({[ "is-active" ]} ∪ s ∖ {[ "is-active" ]}) ∖ {[ "is-active" ]}
            = s ∖ {[ "is-active" ]}).
  { intros s. apply set_eq. intros y.
    rewrite !elem_of_difference, elem_of_union, elem_of_difference,
      elem_of_singleton. tauto. }
  split; [|split].
  - intros i b' Hi. simpl in Hi. rewrite list_lookup_imap in Hi.
    destruct (ServiceFilter.btns p !! i) as [b|]; [|done].
    injection Hi as <-. simpl. case_bool_decide as Hik.
    + split; [done | intros _; apply gset_in_add].
    + split; [intros H; by apply gset_not_in_remove in H | done].
  - intros i c c' Hc Hc'. simpl in Hc'. rewrite list_lookup_fmap, Hc in Hc'.
    injection Hc' as <-. unfold ServiceFilter.visible. simpl.
    destruct (String.eqb_spec (ServiceFilter.data_filter btn) "all");
      destruct (String.eqb_spec (ServiceFilter.data_category c)
                  (ServiceFilter.data_filter btn));
      simpl; intuition congruence.
  - intros j Hj.
    destruct (lookup_lt_is_Some_2 (ServiceFilter.btns p) j Hj) as [bj Hbj].
    rewrite Hbj. simpl. rewrite list_lookup_imap, Hk. simpl. f_equal.
    + apply list_eq. intros i. rewrite !list_lookup_imap.
      destruct (ServiceFilter.btns p !! i) as [b|]; [|done]. simpl.
      f_equal. f_equal.
      destruct (bool_decide (i = k)), (bool_decide (i = j));
        by rewrite ?Hrr, ?Har.
    + rewrite <- list_fmap_compose. by apply list_fmap_ext.
Qed.

Lemma filter_click_shows_witness :
  let p' := ServiceFilter.click 1 ServiceFilter.services in
  ServiceFilter.display <$> ServiceFilter.cards p' = [""; "none"; ""]
  ∧ ServiceFilter.click 1 (ServiceFilter.click 2 ServiceFilter.services) = p'
  ∧ ServiceFilter.display
      <$> ServiceFilter.cards
            (ServiceFilter.click 0 (ServiceFilter.click 2
                                      ServiceFilter.services))
    = [""; ""; ""].
Proof.
  intros p'.
  destruct (filter_click_shows ServiceFilter.services 1 _ eq_refl eq_refl)
    as (_ & _ & Hlast).
  split; [reflexivity|]. split; [|reflexivity].
  apply Hlast. vm_compute. lia.
Defined.

(** * Properties of the links and the phone format *)

Lemma whatsapp_hex_digit_safe (n : Z) :
  0 ≤ n < 16 → WhatsApp.url_safe (WhatsApp.hex_digit n) = true.
Proof.
  intros Hn. unfold WhatsApp.url_safe, WhatsApp.unreserved, WhatsApp.hex_digit.
  destruct (Z.ltb_spec n 10).
  - assert (WhatsApp.is_digit (48 + n) = true) as ->; [|by rewrite orb_true_r].
    unfold WhatsApp.is_digit. apply andb_true_iff; split; apply Z.leb_le; lia.
  - assert (WhatsApp.is_alpha (55 + n) = true) as ->; [|done].
    unfold WhatsApp.is_alpha. apply orb_true_iff. left.
    apply andb_true_iff; split; apply Z.leb_le; lia.
Qed.

Lemma whatsapp_escape_safe (o : Z) :
  0 ≤ o < 256 → Forall (λ u, WhatsApp.url_safe u = true) (WhatsApp.escape o).
Proof.
  intros Ho. unfold WhatsApp.escape. repeat constructor.
  - apply whatsapp_hex_digit_safe.
    split; [apply Z.div_pos; lia | apply Z.div_lt_upper_bound; lia].
  - apply whatsapp_hex_digit_safe. apply Z.mod_pos_bound. lia.
Qed.

Lemma whatsapp_utf8_octets (cp : Z) :
  0 ≤ cp < 1114112 → Forall (λ o, 0 ≤ o < 256) (WhatsApp.utf8 cp).
Proof.
  intros Hcp. unfold WhatsApp.utf8.
  destruct (Z.ltb_spec cp 128), (Z.ltb_spec cp 2048), (Z.ltb_spec cp 65536);
    repeat constructor; Z.div_mod_to_equations; lia.
Qed.

Lemma whatsapp_escapes_safe (cp : Z) :
  0 ≤ cp < 1114112 →
  Forall (λ u, WhatsApp.url_safe u = true) (WhatsApp.escapes cp).
Proof.
  intros Hcp. unfold WhatsApp.escapes.
  pose proof (whatsapp_utf8_octets cp Hcp) as Ho.
  induction Ho as [|o l Ho _ IH]; [constructor|].
  rewrite bind_cons. apply Forall_app. split; [|done].
  by apply whatsapp_escape_safe.
Qed.

Lemma whatsapp_escapes_nonempty (cp : Z) : WhatsApp.escapes cp ≠ [].
Proof.
  unfold WhatsApp.escapes, WhatsApp.utf8.
  repeat (destruct (_ <? _)); done.
Qed.

Lemma whatsapp_unreserved_plain (u : Z) :
  WhatsApp.unreserved u = true →
  WhatsApp.leading u = false ∧ WhatsApp.trailing u = false ∧ 0 ≤ u < 128.
Proof.
  intros H. assert (Hr : 0 ≤ u < 128).
  { unfold WhatsApp.unreserved, WhatsApp.is_alpha, WhatsApp.is_digit in H.
    rewrite !orb_true_iff, !andb_true_iff, !Z.leb_le, bool_decide_eq_true in H.
    rewrite !elem_of_cons, elem_of_nil in H. lia. }
  unfold WhatsApp.leading, WhatsApp.trailing.
  split; [|split; [|done]]; apply andb_false_iff; rewrite !Z.leb_gt; lia.
Qed.

(** [encodeURIComponent] throws exactly on the strings that are not
    well formed, returns the empty string only for the empty string,
    and returns nothing but unreserved characters and escapes. *)
Lemma whatsapp_encode_facts (s : list Z) :
  (WhatsApp.encodeURIComponent s = None ↔ WhatsApp.well_formed s = false)
  ∧ (WhatsApp.encodeURIComponent s = Some [] ↔ s = [])
  ∧ (Forall WhatsApp.code_unit s →
     ∀ e, WhatsApp.encodeURIComponent s = Some e →
          Forall (λ u, WhatsApp.url_safe u = true) e).
Proof.
  remember (S (length s)) as n eqn:Hn.
  assert (Hlen : (length s < n)%nat) by lia. clear Hn.
  revert s Hlen. induction n as [|n IH]; intros s Hlen; [lia|].
  destruct s as [|u r].
  { split; [done|]. split; [done|]. intros _ e [= <-]. constructor. }
  simpl in Hlen. cbn [WhatsApp.encodeURIComponent WhatsApp.well_formed].
  destruct (WhatsApp.unreserved u) eqn:Hu.
  - destruct (whatsapp_unreserved_plain u Hu) as (-> & -> & _).
    destruct (IH r ltac:(lia)) as (Hn & _ & Hs). cbn [negb andb].
    split; [|split].
    + rewrite <- Hn. by destruct (WhatsApp.encodeURIComponent r).
    + split; [|done]. by destruct (WhatsApp.encodeURIComponent r).
    + intros Hcu e He.
      destruct (WhatsApp.encodeURIComponent r) as [e0|]; [|done].
      injection He as <-. constructor.
      * unfold WhatsApp.url_safe. by rewrite Hu.
      * apply Hs; [by inversion Hcu | done].
  - destruct (WhatsApp.leading u) eqn:Hl.
    + destruct r as [|v r']; [done|]. simpl in Hlen.
      destruct (WhatsApp.trailing v) eqn:Htv; [|done]. cbn [andb].
      destruct (IH r' ltac:(lia)) as (Hn & _ & Hs).
      split; [|split].
      * rewrite <- Hn. by destruct (WhatsApp.encodeURIComponent r').
      * split; [|done]. destruct (WhatsApp.encodeURIComponent r'); [|done].
        intros [= H]. apply app_eq_nil in H as [H _].
        by apply whatsapp_escapes_nonempty in H.
      * intros Hcu e He.
        destruct (WhatsApp.encodeURIComponent r') as [e0|]; [|done].
        injection He as <-. apply Forall_app. split.
        -- apply whatsapp_escapes_safe.
           unfold WhatsApp.leading, WhatsApp.trailing,
             WhatsApp.pair_point in *.
           apply andb_true_iff in Hl as [?%Z.leb_le ?%Z.leb_le].
           apply andb_true_iff in Htv as [?%Z.leb_le ?%Z.leb_le]. lia.
        -- apply Hs; [|done]. inversion Hcu as [|? ? _ H2]. by inversion H2.
    + destruct (WhatsApp.trailing u) eqn:Ht; [done|]. cbn [negb andb].
      destruct (IH r ltac:(lia)) as (Hn & _ & Hs).
      split; [|split].
      * rewrite <- Hn. by destruct (WhatsApp.encodeURIComponent r).
      * split; [|done]. destruct (WhatsApp.encodeURIComponent r); [|done].
        intros [= H]. apply app_eq_nil in H as [H _].
        by apply whatsapp_escapes_nonempty in H.
      * intros Hcu e He.
        destruct (WhatsApp.encodeURIComponent r) as [e0|]; [|done].
        injection He as <-. apply Forall_app. split.
        -- apply whatsapp_escapes_safe.
           inversion Hcu as [|? ? [? ?] _]; subst. lia.
        -- apply Hs; [by inversion Hcu | done].
Qed.

Lemma whatsapp_digits_only_digits (s : list Z) :
  Forall (λ u, WhatsApp.is_digit u = true) (WhatsApp.digits_only s).
Proof.
  unfold WhatsApp.digits_only. apply Forall_forall.
  by intros u [H _]%list_elem_of_filter.
Qed.

(** X27: [buildLink] throws (the [URIError] of [encodeURIComponent]) exactly
    when the message holds a surrogate without its partner.  Otherwise
    the link is [https://wa.me/] followed by the digits of [number] and
    nothing but them, and by [?text=] with the encoded message exactly
    when the message is not empty; the encoded message holds only
    characters that need no escaping in a URL, and percent signs. *)
Theorem whatsapp_link_shape (message number : list Z) :
  Forall WhatsApp.code_unit message →
  (WhatsApp.buildLink message number = None
   ↔ WhatsApp.well_formed message = false)
  ∧ (∀ link, WhatsApp.buildLink message number = Some link →
       ∃ encoded,
         WhatsApp.encodeURIComponent message = Some encoded
         ∧ link = WhatsApp.units "https://wa.me/"
                  ++ WhatsApp.digits_only number
                  ++ (if decide (message = []) then []
                      else WhatsApp.units "?text=" ++ encoded)
         ∧ Forall (λ u, WhatsApp.url_safe u = true) encoded)
  ∧ Forall (λ u, WhatsApp.is_digit u = true) (WhatsApp.digits_only number)
  ∧ WhatsApp.buildLink [] WhatsApp.WHATSAPP_NUMBER
    = Some (WhatsApp.units "https://wa.me/254700000000")
  ∧ WhatsApp.buildLink (WhatsApp.units "50% off?") WhatsApp.WHATSAPP_NUMBER
    = Some (WhatsApp.units "https://wa.me/254700000000?text=50%25%20off%3F").
Proof.
  intros Hcu.
  destruct (whatsapp_encode_facts message) as (Hnone & Hempty & Hsafe).
  split; [|split; [|split; [apply whatsapp_digits_only_digits | done]]].
  - rewrite <- Hnone. unfold WhatsApp.buildLink.
    by destruct (WhatsApp.encodeURIComponent message).
  - intros link. unfold WhatsApp.buildLink.
    destruct (WhatsApp.encodeURIComponent message) as [e|] eqn:He; [|done].
    simpl. intros [= <-]. exists e. split; [done|].
    split; [|by apply Hsafe].
    do 2 f_equal.
    destruct (decide (e = [])) as [->|Hne], (decide (message = []))
      as [->|Hme]; try done.
    + exfalso. by apply Hme, Hempty.
    + injection He as <-. done.
Qed.

Lemma whatsapp_link_shape_witness :
  WhatsApp.text
    <$> WhatsApp.buildLink (WhatsApp.units "Hi, 50% off?")
          WhatsApp.WHATSAPP_NUMBER
  = Some "https://wa.me/254700000000?text=Hi%2C%2050%25%20off%3F"
  ∧ WhatsApp.text
      <$> WhatsApp.buildLink [55357; 56832; 233] (WhatsApp.units "0700 000")
    = Some "https://wa.me/0700000?text=%F0%9F%98%80%C3%A9"
  ∧ WhatsApp.buildLink [72; 55357] WhatsApp.WHATSAPP_NUMBER = None
  ∧ WhatsApp.buildLink [56832; 55357] WhatsApp.WHATSAPP_NUMBER = None.
Proof.
  destruct (whatsapp_link_shape [72; 55357] WhatsApp.WHATSAPP_NUMBER
              ltac:(repeat constructor; vm_compute; congruence))
    as ([_ Hthrow] & _).
  split; [reflexivity|]. split; [reflexivity|].
  split; [exact (Hthrow eq_refl) | reflexivity].
Defined.









(** * Properties of the cookie banner *)

(** X29: The banner is shown on a page load exactly when no non-empty choice
    is stored.  A click on either button removes it and stores the
    choice under the key, leaving the other keys alone, and from then
    on no page load shows it. *)
Theorem cookie_choice_remembered (st : gmap string string)
    (e : CookieBanner.Event) :
  let p := CookieBanner.load st in
  let p' := CookieBanner.step e p in
  (CookieBanner.banner p = true
   ↔ st !! CookieBanner.key = None ∨ st !! CookieBanner.key = Some "")
  ∧ CookieBanner.storage p = st
  ∧ (CookieBanner.banner p = true →
     CookieBanner.banner p' = false
     ∧ CookieBanner.storage p' !! CookieBanner.key
       = Some (CookieBanner.choice e)
     ∧ (∀ k, k ≠ CookieBanner.key → CookieBanner.storage p' !! k = st !! k)
     ∧ CookieBanner.banner (CookieBanner.load (CookieBanner.storage p'))
       = false)
  ∧ (CookieBanner.banner p = false → p' = p).
Proof.
  intros p p'. unfold p', p, CookieBanner.load, CookieBanner.init,
    CookieBanner.step. simpl.
  destruct (st !! CookieBanner.key) as [v|] eqn:Hv; simpl.
  - destruct (String.eqb_spec v "") as [->|Hne]; simpl.
    + split; [split; [by right | done]|]. split; [done|]. split; [|done].
      intros _. rewrite lookup_insert_eq. split; [done|]. split; [done|].
      split; [intros k Hk; by rewrite lookup_insert_ne|].
      by destruct e.
    + split; [split; [done | intros [|[=]]; done]|]. by rewrite Hv.
  - split; [split; [by left | done]|]. split; [done|]. split; [|done].
    intros _. rewrite lookup_insert_eq. split; [done|]. split; [done|].
    split; [intros k Hk; by rewrite lookup_insert_ne|].
    by destruct e.
Qed.
